(** * Companion-file discovery in VLC: subtitles.c and directory.c

    A shallow embedding of the subtitle detector
    ([src/input/subtitles.c]) and of the directory demuxer
    ([modules/demux/playlist/directory.c]), and the properties of the
    discovery-and-scoring engine proved about them.

    Conventions of the embedding.
    - A C string is the list of its characters before the terminating
      NUL ([cstring]); a [char *] that may be [NULL] is an
      [option cstring].
    - [<ctype.h>] is taken in the "C" locale: [isalnum] is true of the
      ASCII letters and digits only and [tolower] maps [A-Z] to [a-z].
    - Allocation ([malloc], [strdup], [asprintf]) is assumed to succeed.
    - The file system, the URI decoder and the configuration variables
      are collaborators outside the two files; they are passed in as
      records. *)

From Stdlib Require Import List Ascii String ZArith NArith Bool Arith Lia.
From Stdlib Require Import Permutation Sorted.
Import ListNotations.

Local Open Scope list_scope.

Abbreviation cstring := (list ascii).

(** String literals of the C sources. *)
Definition cs (s : string) : cstring := list_ascii_of_string s.

(** No character of a C string is the terminator. *)
Definition no_nul (s : cstring) : bool :=
  forallb (fun c => negb (Ascii.eqb c zero)) s.

(* ================================================================== *)
(** ** The C library functions the two files call *)
(* ================================================================== *)

Module CLib.

(** The [unsigned char] value of a character. *)
Definition code (c : ascii) : N := N_of_ascii c.

Definition isdigit (c : ascii) : bool :=
  ((48 <=? code c) && (code c <=? 57))%N.
Definition isupper (c : ascii) : bool :=
  ((65 <=? code c) && (code c <=? 90))%N.
Definition islower (c : ascii) : bool :=
  ((97 <=? code c) && (code c <=? 122))%N.
Definition isalnum (c : ascii) : bool :=
  isdigit c || isupper c || islower c.

Definition tolower (c : ascii) : ascii :=
  if isupper c then ascii_of_N (code c + 32) else c.

(** [strlen]. *)
Definition strlen (s : cstring) : nat := List.length s.

(** [strcmp]: the difference of the first two characters that differ,
    the terminator counting as 0. *)
Fixpoint strcmp (a b : cstring) : Z :=
  match a, b with
  | [], [] => 0
  | [], y :: _ => (0 - Z.of_N (code y))%Z
  | x :: _, [] => Z.of_N (code x)
  | x :: a', y :: b' =>
      if Ascii.eqb x y then strcmp a' b'
      else (Z.of_N (code x) - Z.of_N (code y))%Z
  end.

(** [strcasecmp]: [strcmp] on the lower-cased characters. *)
Fixpoint strcasecmp (a b : cstring) : Z :=
  match a, b with
  | [], [] => 0
  | [], y :: _ => (0 - Z.of_N (code (tolower y)))%Z
  | x :: _, [] => Z.of_N (code (tolower x))
  | x :: a', y :: b' =>
      if Ascii.eqb (tolower x) (tolower y) then strcasecmp a' b'
      else (Z.of_N (code (tolower x)) - Z.of_N (code (tolower y)))%Z
  end.

(** [strncasecmp]: as [strcasecmp], over at most [n] characters. *)
Fixpoint strncasecmp (a b : cstring) (n : nat) : Z :=
  match n with
  | O => 0
  | S n' =>
      match a, b with
      | [], [] => 0
      | [], y :: _ => (0 - Z.of_N (code (tolower y)))%Z
      | x :: _, [] => Z.of_N (code (tolower x))
      | x :: a', y :: b' =>
          if Ascii.eqb (tolower x) (tolower y) then strncasecmp a' b' n'
          else (Z.of_N (code (tolower x)) - Z.of_N (code (tolower y)))%Z
      end
  end.

(** [strchr]: the offset of the first occurrence of [c]. *)
Fixpoint strchr (s : cstring) (c : ascii) : option nat :=
  match s with
  | [] => None
  | x :: s' =>
      if Ascii.eqb x c then Some O
      else match strchr s' c with
           | Some i => Some (S i)
           | None => None
           end
  end.

(** [strrchr]: the offset of the last occurrence of [c]. *)
Fixpoint strrchr (s : cstring) (c : ascii) : option nat :=
  match s with
  | [] => None
  | x :: s' =>
      match strrchr s' c with
      | Some i => Some (S i)
      | None => if Ascii.eqb x c then Some O else None
      end
  end.

(** [needle] is an initial segment of [hay]. *)
Fixpoint starts_with (needle hay : cstring) : bool :=
  match needle, hay with
  | [], _ => true
  | _ :: _, [] => false
  | x :: n', y :: h' => Ascii.eqb x y && starts_with n' h'
  end.

(** [strstr]: the offset of the first occurrence of [needle]. *)
Fixpoint strstr (hay needle : cstring) : option nat :=
  if starts_with needle hay then Some O
  else match hay with
       | [] => None
       | _ :: h' =>
           match strstr h' needle with
           | Some i => Some (S i)
           | None => None
           end
       end.

(** [strcoll] compares by the collation of the locale, which the
    program does not fix.  Both files use it where the build has it and
    fall back on [strcmp] or [strcasecmp] where it has not. *)
Inductive build :=
| HAVE_STRCOLL (strcoll : cstring -> cstring -> Z)
| NO_STRCOLL.

End CLib.

Import CLib.

(* ================================================================== *)
(** ** Declarations of the VLC headers the two files include *)
(* ================================================================== *)

Module VlcHeaders.

(** Modelled from the spec: the priority enumeration is declared in
    vlc_input_item.h, which is not under src/.  Section 3 of the spec
    gives the values as ordinals, None < MatchNone < MatchLeft,
    MatchRight < MatchAll, with MatchLeft and MatchRight distinct; the
    source compares them with the integer threshold
    [sub-autodetect-fuzzy], for which 0 means disabled. *)
Definition SLAVE_PRIORITY_NONE : Z := 0.
Definition SLAVE_PRIORITY_MATCH_NONE : Z := 1.
Definition SLAVE_PRIORITY_MATCH_RIGHT : Z := 2.
Definition SLAVE_PRIORITY_MATCH_LEFT : Z := 3.
Definition SLAVE_PRIORITY_MATCH_ALL : Z := 4.

(** Modelled from the spec: the companion kinds {Subtitle, Audio} of
    section 3; the enumeration is declared in vlc_input_item.h. *)
Inductive slave_type := SLAVE_TYPE_SPU | SLAVE_TYPE_AUDIO.

(** Modelled from the spec: the item types are declared in
    vlc_input_item.h; the source only tells directories from the
    rest. *)
Definition ITEM_TYPE_FILE : Z := 1.
Definition ITEM_TYPE_DIRECTORY : Z := 2.

(** The return codes of vlc_common.h. *)
Inductive vlc_status := VLC_SUCCESS | VLC_EGENERIC | VLC_ENOMEM.

(** The configuration variables read through [var_GetInteger],
    [var_InheritInteger], [var_InheritBool] and [var_InheritString]. *)
Record vlc_vars := {
  sub_autodetect_fuzzy : Z;
  show_hiddenfiles : bool;
  ignore_filetypes : option cstring;
  directory_sort : option cstring
}.

(** The value of an integer variable is an [int64_t]; both files store
    [sub-autodetect-fuzzy] in an [int].  The conversion keeps the low
    32 bits, read as a signed number. *)
Definition to_int (v : Z) : Z := ((v + 2 ^ 31) mod 2 ^ 32 - 2 ^ 31)%Z.

(** How a run ends: the C code reads outside an array, or through a
    pointer it has freed, on some inputs.  The model stops at the
    first such access and keeps the state reached; what a C
    implementation does afterwards is not modelled. *)
Inductive fault :=
| ReadPastEnd (j : nat)
| NullPath (j : nat)
| UseAfterFree (j : nat).

Inductive outcome := Completed | Faulted (f : fault).

End VlcHeaders.

Import VlcHeaders.

(* ================================================================== *)
(** ** src/input/subtitles.c *)
(* ================================================================== *)

Module Subtitles.

(** The supported subtitle extensions, with the empty terminator. *)
Definition sub_exts : list cstring :=
  map cs [ "idx"; "sub"; "srt";
           "ssa"; "ass"; "smi";
           "utf"; "utf8"; "utf-8";
           "rt"; "aqt"; "txt";
           "usf"; "jss"; "cdg";
           "psb"; "mpsub"; "mpl2";
           "pjs"; "dks"; "stl";
           "vtt"; "sbv"; "" ]%string.

(** The three inner loops of [strcpy_trim]. *)
Fixpoint skip_nonalnum (s : cstring) : cstring :=
  match s with
  | [] => []
  | c :: s' => if isalnum c then s else skip_nonalnum s'
  end.

(** Copies a word lower-cased; returns the copy and what follows. *)
Fixpoint copy_word (s : cstring) : cstring * cstring :=
  match s with
  | [] => ([], [])
  | c :: s' =>
      if isalnum c
      then let (w, r) := copy_word s' in (tolower c :: w, r)
      else ([], s)
  end.

(** The [for(;;)] loop: one turn per word. *)
Fixpoint trim_loop (fuel : nat) (s : cstring) : cstring :=
  match fuel with
  | O => []
  | S fuel' =>
      let (w, s1) := copy_word s in
      match s1 with
      | [] => w
      | _ :: _ =>
          match skip_nonalnum s1 with
          | [] => w
          | s2 => w ++ " "%char :: trim_loop fuel' s2
          end
      end
  end.

Definition strcpy_trim (s : cstring) : cstring :=
  trim_loop (S (strlen s)) (skip_nonalnum s).

Definition strcpy_strip_ext (s : cstring) : cstring :=
  match strrchr s "."%char with
  | None => s
  | Some i => map tolower (firstn i s)
  end.

Definition strcpy_get_ext (s : cstring) : cstring :=
  match strrchr s "."%char with
  | None => []
  | Some i => skipn (S i) s
  end.

Fixpoint whiteonly (s : cstring) : bool :=
  match s with
  | [] => true
  | c :: s' => if isalnum c then false else whiteonly s'
  end.

(** The spec's name normalizer: extension stripped, then trimmed. *)
Definition normalize (filename : cstring) : cstring :=
  strcpy_trim (strcpy_strip_ext filename).

(** The loop of [subtitles_Filter] over [sub_exts], which stops at the
    entry whose first character is NUL. *)
Fixpoint filter_loop (exts : list cstring) (tmp : cstring) : bool :=
  match exts with
  | [] => false
  | [] :: _ => false
  | e :: exts' =>
      if (strcasecmp e tmp =? 0)%Z then true else filter_loop exts' tmp
  end.

(** Check if a file ends with a subtitle extension. *)
Definition subtitles_Filter (psz_dir_content : cstring) : bool :=
  match strrchr psz_dir_content "."%char with
  | None => false
  | Some i => filter_loop sub_exts (skipn (S i) psz_dir_content)
  end.

Fixpoint skip_spaces (s : cstring) : cstring :=
  match s with
  | [] => []
  | c :: s' => if Ascii.eqb c " "%char then skip_spaces s' else s
  end.

(** The loop of [paths_to_list]; [psz_parser] is [None] once [strchr]
    has found no further comma. *)
Fixpoint paths_loop (fuel : nat) (psz_dir : cstring)
         (psz_parser : option cstring) : list cstring :=
  match fuel with
  | O => []
  | S fuel' =>
      match psz_parser with
      | None => []
      | Some [] => []
      | Some s =>
          let (psz_subdir, next) :=
            match strchr s ","%char with
            | Some k => (firstn k s, Some (skip_spaces (skipn (S k) s)))
            | None => (s, None)
            end in
          match psz_subdir with
          | [] => paths_loop fuel' psz_dir next
          | c :: _ =>
              ((if Ascii.eqb c "."%char then psz_dir else []) ++ psz_subdir)
                :: paths_loop fuel' psz_dir next
          end
      end
  end.

(** Convert a list of paths separated by ',' to a list. *)
Definition paths_to_list (psz_dir psz_path : option cstring)
  : option (list cstring) :=
  match psz_dir, psz_path with
  | Some d, Some p => Some (paths_loop (S (strlen p)) d (Some p))
  | _, _ => None
  end.

Record subtitle := {
  psz_path : option cstring;
  i_priority : Z;              (* uint8_t *)
  b_rejected : bool
}.

(** [NULL] is returned for a [NULL] path. *)
Definition subtitle_New (path : option cstring) (prio : Z)
  : option subtitle :=
  match path with
  | None => None
  | Some p =>
      Some {| psz_path := Some p;
              i_priority := prio mod 256;
              b_rejected := false |}
  end.

(** A [subtitle_list] is the list of its [i_subtitles] entries. *)
Abbreviation subtitle_list := (list subtitle).

Definition subtitle_list_Init : subtitle_list := [].

Definition subtitle_list_AppendItem (p_list : subtitle_list)
           (p_subtitle : subtitle) : subtitle_list :=
  p_list ++ [p_subtitle].

(** Lines 237-253, in the build [b].  [None] stands for the
    comparison of a NULL path, which neither [strcoll] nor [strcmp]
    defines. *)
Definition subtitle_Compare (b : build) (p_sub0 p_sub1 : subtitle)
  : option Z :=
  if (i_priority p_sub0 >? i_priority p_sub1)%Z then Some (-1)%Z
  else if (i_priority p_sub0 <? i_priority p_sub1)%Z then Some 1%Z
  else
    match psz_path p_sub0, psz_path p_sub1 with
    | Some path0, Some path1 =>
        Some (match b with
              | HAVE_STRCOLL strcoll => strcoll path0 path1
              | NO_STRCOLL => strcmp path0 path1
              end)
    | _, _ => None
    end.

(** The collaborators of [subtitles_Detect]: the URI decoder, the
    directory reader ([vlc_opendir] followed by [vlc_readdir] until it
    returns [NULL]) and [vlc_stat] followed by [S_ISREG]. *)
Record host := {
  vlc_uri2path : cstring -> option cstring;
  vlc_opendir : cstring -> option (list cstring);
  vlc_stat_isreg : cstring -> bool
}.

(** The calls made to the file system, in order. *)
Inductive io_event :=
| IoOpendir (dir : cstring)
| IoReaddir (name : cstring)
| IoStat (path : cstring).

Abbreviation scan_state := (list subtitle * list io_event)%type.

(** [psz_name[0] == '.'] *)
Definition dot_first (psz_name : cstring) : bool :=
  match psz_name with
  | c :: _ => Ascii.eqb c "."%char
  | [] => false
  end.

(** Lines 351-383: the priority of the entry [psz_name] of directory
    number [j] ([-1] is the directory of the movie). *)
Definition detect_prio (f_fname_trim : cstring) (j : Z)
           (psz_name : cstring) : Z :=
  let tmp_fname_noext := strcpy_strip_ext psz_name in
  let tmp_fname_trim := strcpy_trim tmp_fname_noext in
  if (strcmp tmp_fname_trim f_fname_trim =? 0)%Z then
    SLAVE_PRIORITY_MATCH_ALL
  else
    match strstr tmp_fname_trim f_fname_trim with
    | Some k =>
        let tmp := skipn (k + strlen f_fname_trim) tmp_fname_trim in
        if whiteonly tmp then SLAVE_PRIORITY_MATCH_RIGHT
        else SLAVE_PRIORITY_MATCH_LEFT
    | None =>
        if (j =? -1)%Z then SLAVE_PRIORITY_MATCH_NONE
        else SLAVE_PRIORITY_NONE
    end.

(** Lines 342-404: the body of the [vlc_readdir] loop. *)
Definition detect_entry (h : host) (i_fuzzy : Z)
           (psz_fname f_fname_trim psz_dir : cstring) (j : Z)
           (st : scan_state) (psz_name : cstring) : scan_state :=
  let (p_result, io) := st in
  let io := io ++ [IoReaddir psz_name] in
  if dot_first psz_name || negb (subtitles_Filter psz_name) then
    (p_result, io)
  else
    let i_prio := detect_prio f_fname_trim j psz_name in
    if (i_prio >=? i_fuzzy)%Z then
      let path := psz_dir ++ cs "/" ++ psz_name in
      if (strcmp path psz_fname =? 0)%Z then (p_result, io)
      else
        let io := io ++ [IoStat path] in
        if vlc_stat_isreg h path then
          match subtitle_New (Some path) i_prio with
          | Some p_sub => (subtitle_list_AppendItem p_result p_sub, io)
          | None => (p_result, io)
          end
        else (p_result, io)
    else (p_result, io).

(** Lines 330-405: one turn of the loop over the directories. *)
Definition detect_dir (h : host) (i_fuzzy : Z)
           (psz_fname f_fname_trim f_dir : cstring) (j : Z)
           (psz_dir : cstring) (st : scan_state) : scan_state :=
  if (0 <=? j)%Z && (strcmp psz_dir f_dir =? 0)%Z then st
  else
    let io := snd st ++ [IoOpendir psz_dir] in
    match vlc_opendir h psz_dir with
    | None => (fst st, io)
    | Some names =>
        fold_left
          (detect_entry h i_fuzzy psz_fname f_fname_trim psz_dir j)
          names (fst st, io)
    end.

(** The turns [j >= 0] of the loop, over [subdirs]. *)
Fixpoint detect_subdirs (h : host) (i_fuzzy : Z)
         (psz_fname f_fname_trim f_dir : cstring) (j : Z)
         (subdirs : list cstring) (st : scan_state) : scan_state :=
  match subdirs with
  | [] => st
  | psz_dir :: rest =>
      detect_subdirs h i_fuzzy psz_fname f_fname_trim f_dir (j + 1) rest
        (detect_dir h i_fuzzy psz_fname f_fname_trim f_dir j psz_dir st)
  end.

(** Lines 327-406: the candidate collector. *)
Definition detect_collect (h : host) (i_fuzzy : Z)
           (psz_path : option cstring) (psz_fname f_fname f_dir : cstring)
           (p_result : subtitle_list) : scan_state :=
  let f_fname_noext := strcpy_strip_ext f_fname in
  let f_fname_trim := strcpy_trim f_fname_noext in
  let subdirs := paths_to_list (Some f_dir) psz_path in
  let st := detect_dir h i_fuzzy psz_fname f_fname_trim f_dir (-1) f_dir
                       (p_result, []) in
  match subdirs with
  | None => st
  | Some dirs =>
      detect_subdirs h i_fuzzy psz_fname f_fname_trim f_dir 0 dirs st
  end.

Definition set_rejected (p_sub : subtitle) : subtitle :=
  {| psz_path := psz_path p_sub;
     i_priority := i_priority p_sub;
     b_rejected := true |}.

(** [p_result->pp_subtitles[i]->b_rejected = true] *)
Fixpoint reject_at (i : nat) (l : subtitle_list) : subtitle_list :=
  match l, i with
  | [], _ => []
  | p_sub :: l', O => set_rejected p_sub :: l'
  | p_sub :: l', S i' => p_sub :: reject_at i' l'
  end.

Inductive scan_result := Paired | ScanFault (f : fault).

(** Lines 435-455: the inner loop, whose condition [i < i_subtitles]
    holds at every turn; [rest] is [pp_subtitles] from index [j] on.
    The loop is left by [break] or by reading [pp_subtitles[j]] past
    the last entry. *)
Fixpoint pair_scan (path : cstring) (j : nat) (rest : subtitle_list)
  : scan_result :=
  match rest with
  | [] => ScanFault (ReadPastEnd j)
  | p_sub_inner :: rest' =>
      match psz_path p_sub_inner with
      | None => ScanFault (NullPath j)
      | Some inner =>
          if negb (strncasecmp path inner (strlen path - 3) =? 0)%Z
          then pair_scan path (S j) rest'
          else
            match strrchr inner "."%char with
            | None => pair_scan path (S j) rest'
            | Some k =>
                if (strcasecmp (skipn (S k) inner) (cs "idx") =? 0)%Z
                then Paired
                else pair_scan path (S j) rest'
            end
      end
  end.

(** Lines 420-461: the body of the loop over the results. *)
Definition resolve_one (l : subtitle_list) (i : nat) (p_sub : subtitle)
  : subtitle_list * outcome :=
  match psz_path p_sub with
  | None => (reject_at i l, Completed)
  | Some path =>
      match strrchr path "."%char with
      | None => (l, Completed)
      | Some k =>
          let psz_ext := skipn (S k) path in
          if (strcasecmp psz_ext (cs "sub") =? 0)%Z then
            match pair_scan path 0 l with
            | Paired => (reject_at i l, Completed)
            | ScanFault f => (l, Faulted f)
            end
          else if (strcasecmp psz_ext (cs "cdg") =? 0)%Z then
            if (i_priority p_sub <? SLAVE_PRIORITY_MATCH_ALL)%Z
            then (reject_at i l, Completed)
            else (l, Completed)
          else (l, Completed)
      end
  end.

(** The loop over [i], with [n] turns left. *)
Fixpoint resolve_from (n i : nat) (l : subtitle_list)
  : subtitle_list * outcome :=
  match n with
  | O => (l, Completed)
  | S n' =>
      match nth_error l i with
      | None => (l, Completed)
      | Some p_sub =>
          match resolve_one l i p_sub with
          | (l', Completed) => resolve_from n' (S i) l'
          | stopped => stopped
          end
      end
  end.

(** Lines 418-462: the conflict resolver. *)
Definition resolve_conflicts (p_result : subtitle_list)
  : subtitle_list * outcome :=
  resolve_from (List.length p_result) 0 p_result.

(** What [subtitles_Detect] leaves behind: its return value, unless
    the run stops on a fault, the list [p_result] and the calls made
    to the file system. *)
Record detect_run := {
  dr_status : option vlc_status;
  dr_fault : outcome;
  dr_result : subtitle_list;
  dr_io : list io_event
}.

Definition subtitles_Detect (p_this : vlc_vars) (h : host)
           (psz_path : option cstring) (psz_name_org : option cstring)
           (p_result : subtitle_list) : detect_run :=
  let i_fuzzy := to_int (sub_autodetect_fuzzy p_this) in
  let early (r : vlc_status) :=
    {| dr_status := Some r; dr_fault := Completed;
       dr_result := p_result; dr_io := [] |} in
  if (i_fuzzy =? 0)%Z then early VLC_EGENERIC
  else
    match psz_name_org with
    | None => early VLC_EGENERIC
    | Some name_org =>
        match vlc_uri2path h name_org with
        | None => early VLC_EGENERIC
        | Some psz_fname =>
            match strrchr psz_fname "/"%char with
            | None => early VLC_EGENERIC
            | Some k =>
                let f_fname := skipn (S k) psz_fname in
                let f_dir := firstn (S k) psz_fname in
                let (collected, io) :=
                  detect_collect h i_fuzzy psz_path psz_fname f_fname
                                 f_dir p_result in
                match resolve_conflicts collected with
                | (l, Completed) =>
                    {| dr_status := Some VLC_SUCCESS;
                       dr_fault := Completed;
                       dr_result := l; dr_io := io |}
                | (l, Faulted f) =>
                    {| dr_status := None; dr_fault := Faulted f;
                       dr_result := l; dr_io := io |}
                end
            end
        end
    end.

End Subtitles.

(* ================================================================== *)
(** ** modules/demux/playlist/directory.c *)
(* ================================================================== *)

Module Directory.

Definition ppsz_sub_exts : list cstring :=
  map cs [ "idx"; "sub"; "srt";
           "ssa"; "ass"; "smi";
           "utf"; "utf8"; "utf-8";
           "rt"; "aqt"; "txt";
           "usf"; "jss"; "cdg";
           "psb"; "mpsub"; "mpl2";
           "pjs"; "dks"; "stl";
           "vtt"; "sbv" ]%string.

Definition ppsz_audio_exts : list cstring := map cs [ "ac3" ]%string.

Definition p_slave_list : list (slave_type * list cstring) :=
  [ (SLAVE_TYPE_SPU, ppsz_sub_exts);
    (SLAVE_TYPE_AUDIO, ppsz_audio_exts) ].

(** The loop of [has_ext] over the comma separated list [type]. *)
Fixpoint has_ext_loop (fuel : nat) (ext type : cstring) : bool :=
  match fuel with
  | O => false
  | S fuel' =>
      match type with
      | [] => false
      | _ :: _ =>
          let extlen := strlen ext in
          let e := match strchr type ","%char with
                   | Some k => k
                   | None => strlen type
                   end in
          if Nat.eqb extlen e && (strncasecmp ext type extlen =? 0)%Z
          then true
          else match strchr type ","%char with
               | None => false
               | Some k => has_ext_loop fuel' ext (skipn (S k) type)
               end
      end
  end.

(** Does the provided URI/path/stuff has one of the extension
    provided ? *)
Definition has_ext (psz_exts : option cstring) (psz_uri : cstring)
  : bool :=
  match psz_exts with
  | None => false
  | Some exts =>
      match strrchr psz_uri "."%char with
      | None => false
      | Some i =>
          has_ext_loop (S (strlen exts)) (skipn (S i) psz_uri) exts
      end
  end.

(** The inner loop of [is_slave], over one extension table. *)
Fixpoint ext_listed (psz_ext : cstring) (i_extlen : nat)
         (exts : list cstring) : bool :=
  match exts with
  | [] => false
  | slave_ext :: exts' =>
      if (strncasecmp psz_ext slave_ext i_extlen =? 0)%Z then true
      else ext_listed psz_ext i_extlen exts'
  end.

(** The outer loop of [is_slave], over [p_slave_list]. *)
Fixpoint slave_lookup (psz_ext : cstring) (i_extlen : nat)
         (tables : list (slave_type * list cstring)) : option slave_type :=
  match tables with
  | [] => None
  | (i_type, exts) :: tables' =>
      if ext_listed psz_ext i_extlen exts then Some i_type
      else slave_lookup psz_ext i_extlen tables'
  end.

(** [Some t] stands for [true] with [*p_slave_type = t]. *)
Definition is_slave (psz_name : cstring) : option slave_type :=
  match strrchr psz_name "."%char with
  | None => None
  | Some i =>
      let psz_ext := skipn (S i) psz_name in
      let i_extlen := strlen psz_ext in
      if Nat.eqb i_extlen 0 then None
      else slave_lookup psz_ext i_extlen p_slave_list
  end.

Record input_item_t := {
  psz_name : option cstring;
  psz_uri : cstring;
  i_type : Z
}.

Definition name_of (p : input_item_t) : cstring :=
  match psz_name p with Some n => n | None => [] end.

Definition compar_type (p1 p2 : input_item_t) : Z :=
  if negb (i_type p1 =? i_type p2)%Z then
    if (i_type p1 =? ITEM_TYPE_DIRECTORY)%Z then -1
    else if (i_type p2 =? ITEM_TYPE_DIRECTORY)%Z then 1
    else 0
  else 0.

(** Lines 177-190, in the build [b]. *)
Definition compar_collate (b : build) (p1 p2 : input_item_t) : Z :=
  let i_ret := compar_type p1 p2 in
  if negb (i_ret =? 0)%Z then i_ret
  else
    match b with
    | HAVE_STRCOLL strcoll =>
        (* The program's LOCAL defines if case is ignored *)
        strcoll (name_of p1) (name_of p2)
    | NO_STRCOLL => strcasecmp (name_of p1) (name_of p2)
    end.

(** Modelled from the spec: [strverscmp] is not under src/.  Section
    4.6: "a version-number-aware comparator (numeric runs compared by
    value, not lexicographically)".  A name is cut into its maximal
    runs of digits and its other characters; two runs of digits
    compare by the numbers they denote, any other two pieces by their
    first characters, and names compare piece by piece. *)
Inductive vpiece := VNum (digits : cstring) | VChr (c : ascii).

Fixpoint vpieces (s : cstring) : list vpiece :=
  match s with
  | [] => []
  | c :: s' =>
      if isdigit c then
        match vpieces s' with
        | VNum ds :: t => VNum (c :: ds) :: t
        | t => VNum [c] :: t
        end
      else VChr c :: vpieces s'
  end.

Definition num_val (ds : cstring) : N :=
  fold_left (fun acc c => (acc * 10 + (code c - 48))%N) ds 0%N.

Definition head_code (p : vpiece) : N :=
  match p with
  | VNum (d :: _) => code d
  | VNum [] => 0%N
  | VChr c => code c
  end.

Definition vpiece_cmp (a b : vpiece) : Z :=
  match a, b with
  | VNum x, VNum y => (Z.of_N (num_val x) - Z.of_N (num_val y))%Z
  | _, _ => (Z.of_N (head_code a) - Z.of_N (head_code b))%Z
  end.

Fixpoint vcmp (a b : list vpiece) : Z :=
  match a, b with
  | [], [] => 0
  | [], _ :: _ => -1
  | _ :: _, [] => 1
  | x :: a', y :: b' =>
      if (vpiece_cmp x y =? 0)%Z then vcmp a' b' else vpiece_cmp x y
  end.

Definition strverscmp (a b : cstring) : Z := vcmp (vpieces a) (vpieces b).

Definition compar_version (p1 p2 : input_item_t) : Z :=
  let i_ret := compar_type p1 p2 in
  if negb (i_ret =? 0)%Z then i_ret
  else strverscmp (name_of p1) (name_of p2).

Fixpoint skip_spaces (s : cstring) : cstring :=
  match s with
  | [] => []
  | c :: s' => if Ascii.eqb c " "%char then skip_spaces s' else s
  end.

(** The file name of a URI without directories and extension, without
    the spaces around it, in lower case.  (On an empty name the loop
    that removes the trailing spaces begins by reading [psz_ptr[-1]];
    it writes nothing then, and the read is not modelled.)  The two
    copies the function makes with [strdup] are taken to succeed here;
    [DirectoryMem.name_from_uri] has the returns of [NULL]. *)
Definition name_from_uri (uri : cstring) : cstring :=
  (* remove folders *)
  let psz_ptr := match strrchr uri "/"%char with
                 | Some k => skipn (S k) uri
                 | None => uri
                 end in
  (* remove extension *)
  let psz_ptr := match strrchr psz_ptr "."%char with
                 | Some k => firstn k psz_ptr
                 | None => psz_ptr
                 end in
  (* remove leading white spaces *)
  let psz_ptr := skip_spaces psz_ptr in
  (* remove trailing white spaces *)
  let psz_ptr := rev (skip_spaces (rev psz_ptr)) in
  (* convert to lower case *)
  map tolower psz_ptr.

Record input_item_slave := {
  slave_uri : cstring;
  slave_type_of : slave_type;
  slave_priority : Z           (* uint8_t *)
}.

Definition input_item_slave_New (uri : cstring) (t : slave_type)
           (prio : Z) : input_item_slave :=
  {| slave_uri := uri; slave_type_of := t;
     slave_priority := prio mod 256 |}.

Definition with_priority (p_slave : input_item_slave) (prio : Z)
  : input_item_slave :=
  {| slave_uri := slave_uri p_slave;
     slave_type_of := slave_type_of p_slave;
     slave_priority := prio mod 256 |}.

(** The priority [calculate_slave_priority] stores in the slave. *)
Definition slave_score (psz_item_name psz_slave_name : cstring) : Z :=
  (* check if the names match exactly *)
  if (strcmp psz_item_name psz_slave_name =? 0)%Z then
    SLAVE_PRIORITY_MATCH_ALL
  else
    (* check if the item name is a substring of the slave name *)
    match strstr psz_slave_name psz_item_name with
    | Some k =>
        (* check if the item name was found at the end of the slave
           name *)
        if Nat.eqb
             (strlen (skipn (k + strlen psz_item_name) psz_slave_name)) 0
        then SLAVE_PRIORITY_MATCH_RIGHT
        else SLAVE_PRIORITY_MATCH_LEFT
    | None => SLAVE_PRIORITY_MATCH_NONE
    end.

(** Returns the slave with [i_priority] set; the C function returns
    that field.  Both names are taken to be allocated here;
    [DirectoryMem.calculate_slave_priority] has the branch of lines
    247-251 for a name that is [NULL]. *)
Definition calculate_slave_priority (p_item : input_item_t)
           (p_slave : input_item_slave) : input_item_slave :=
  let psz_item_name := name_from_uri (psz_uri p_item) in
  let psz_slave_name := name_from_uri (slave_uri p_slave) in
  with_priority p_slave (slave_score psz_item_name psz_slave_name).

(** The slaves are shared between the items: [pp_slaves[j]] is a
    pointer, and [input_item_slave_Delete] frees what it points to. *)
Inductive slot := Live (s : input_item_slave) | Freed.

Fixpoint store_set (j : nat) (v : slot) (l : list slot) : list slot :=
  match l, j with
  | [], _ => []
  | _ :: l', O => v :: l'
  | x :: l', S j' => x :: store_set j' v l'
  end.

(** [pp_slaves] and the calls [input_item_AddSlave (children[i],
    pp_slaves[j])] made so far. *)
Record attach_state := {
  pp_slaves : list slot;
  added : list (nat * nat)
}.

(** The body of the loop over [j]. *)
Definition attach_one (i_fuzzy : Z) (p_item : input_item_t) (i j : nat)
           (st : attach_state) : attach_state * outcome :=
  match nth_error (pp_slaves st) j with
  | None => (st, Faulted (ReadPastEnd j))
  | Some Freed => (st, Faulted (UseAfterFree j))
  | Some (Live p_slave) =>
      let scored := calculate_slave_priority p_item p_slave in
      if (slave_priority scored >=? i_fuzzy)%Z then
        ({| pp_slaves := store_set j (Live scored) (pp_slaves st);
            added := added st ++ [(i, j)] |}, Completed)
      else
        ({| pp_slaves := store_set j Freed (pp_slaves st);
            added := added st |}, Completed)
  end.

(** The loop over [j], with [n] turns left. *)
Fixpoint attach_item (i_fuzzy : Z) (p_item : input_item_t) (i : nat)
         (n j : nat) (st : attach_state) : attach_state * outcome :=
  match n with
  | O => (st, Completed)
  | S n' =>
      match attach_one i_fuzzy p_item i j st with
      | (st', Completed) => attach_item i_fuzzy p_item i n' (S j) st'
      | stopped => stopped
      end
  end.

(** The loop over the children [i]. *)
Fixpoint attach_children (i_fuzzy : Z) (i : nat)
         (children : list input_item_t) (st : attach_state)
  : attach_state * outcome :=
  match children with
  | [] => (st, Completed)
  | p_item :: rest =>
      match attach_item i_fuzzy p_item i
                        (List.length (pp_slaves st)) 0 st with
      | (st', Completed) => attach_children i_fuzzy (S i) rest st'
      | stopped => stopped
      end
  end.

Definition attach_slaves (p_demux : vlc_vars)
           (children : list input_item_t) (p_slaves : list slot)
  : attach_state * outcome :=
  let i_fuzzy := to_int (sub_autodetect_fuzzy p_demux) in
  let st := {| pp_slaves := p_slaves; added := [] |} in
  if (i_fuzzy =? 0)%Z then (st, Completed)
  else attach_children i_fuzzy 0 children st.

(** Modelled from the spec: [input_item_node_Sort] is defined in
    src/input/item.c, which is not under src/.  Sections 2 and 4.6:
    the sorter orders the entries by the selected comparator and is
    stable; it is taken to be the insertion sort. *)
Fixpoint sort_insert (compar : input_item_t -> input_item_t -> Z)
         (x : input_item_t) (l : list input_item_t) : list input_item_t :=
  match l with
  | [] => [x]
  | y :: l' =>
      if (compar x y <=? 0)%Z then x :: l
      else y :: sort_insert compar x l'
  end.

Fixpoint input_item_node_Sort
         (compar : input_item_t -> input_item_t -> Z)
         (children : list input_item_t) : list input_item_t :=
  match children with
  | [] => []
  | x :: rest => sort_insert compar x (input_item_node_Sort compar rest)
  end.

Record demux_sys_t := {
  b_dir_sorted : bool;
  b_dir_can_loop : bool
}.

(** Lines 347-350: skip null, "." and ".." and hidden files if option
    is activated. *)
Definition skip_item (b_show_hiddenfiles : bool) (p_item : input_item_t)
  : bool :=
  let i_name_len := match psz_name p_item with
                    | Some n => strlen n
                    | None => O
                    end in
  Nat.eqb i_name_len 0
  || (strcmp (name_of p_item) (cs ".") =? 0)%Z
  || (strcmp (name_of p_item) (cs "..") =? 0)%Z
  || (negb b_show_hiddenfiles
      && match name_of p_item with
         | c :: _ => Ascii.eqb c "."%char
         | [] => false
         end).

(** What the [stream_ReadDir] loop has built: the children of the
    node, the slaves and the number of entries read. *)
Record read_state := {
  rd_children : list input_item_t;
  rd_slaves : list slot;
  rd_reads : nat
}.

(** Lines 345-375: the body of the [stream_ReadDir] loop. *)
Definition read_item (p_demux : vlc_vars) (st : read_state)
           (p_item : input_item_t) : read_state :=
  let b_show_hiddenfiles := show_hiddenfiles p_demux in
  let psz_ignored_exts := ignore_filetypes p_demux in
  let reads := S (rd_reads st) in
  if skip_item b_show_hiddenfiles p_item then
    {| rd_children := rd_children st; rd_slaves := rd_slaves st;
       rd_reads := reads |}
  else
    match is_slave (name_of p_item) with
    | Some i_slave_type =>
        let p_slave := input_item_slave_New (psz_uri p_item) i_slave_type
                                            SLAVE_PRIORITY_NONE in
        {| rd_children := rd_children st;
           rd_slaves := rd_slaves st ++ [Live p_slave];
           rd_reads := reads |}
    | None =>
        if has_ext psz_ignored_exts (name_of p_item) then
          {| rd_children := rd_children st; rd_slaves := rd_slaves st;
             rd_reads := reads |}
        else
          {| rd_children := rd_children st ++ [p_item];
             rd_slaves := rd_slaves st;
             rd_reads := reads |}
    end.

(** Lines 391-406: the comparator selected by [directory-sort]; the
    third mode is taken in the build without [strcoll]. *)
Definition select_compar (p_sys : demux_sys_t) (p_demux : vlc_vars)
  : option (input_item_t -> input_item_t -> Z) :=
  if negb (b_dir_sorted p_sys) then
    match directory_sort p_demux with
    | None => None
    | Some psz_sort =>
        if (strcasecmp psz_sort (cs "version") =? 0)%Z
        then Some compar_version
        else if negb (strcasecmp psz_sort (cs "none") =? 0)%Z
             then Some (compar_collate NO_STRCOLL)
             else None
    end
  else None.

(** What [Demux] leaves behind: the children of the node in their
    final order, the slaves and the attachments made, the number of
    directory entries read and how the run ended. *)
Record demux_run := {
  dm_children : list input_item_t;
  dm_attach : attach_state;
  dm_reads : nat;
  dm_end : outcome
}.

(** [stream] is what the successive calls of [stream_ReadDir] return
    before [NULL]. *)
Definition Demux (p_sys : demux_sys_t) (p_demux : vlc_vars)
           (stream : list input_item_t) : demux_run :=
  let rd := fold_left (read_item p_demux) stream
                      {| rd_children := []; rd_slaves := [];
                         rd_reads := 0 |} in
  match attach_slaves p_demux (rd_children rd) (rd_slaves rd) with
  | (att, Completed) =>
      let sorted :=
        match select_compar p_sys p_demux with
        | Some compar_cb => input_item_node_Sort compar_cb (rd_children rd)
        | None => rd_children rd
        end in
      {| dm_children := sorted; dm_attach := att;
         dm_reads := rd_reads rd; dm_end := Completed |}
  | (att, Faulted f) =>
      {| dm_children := rd_children rd; dm_attach := att;
         dm_reads := rd_reads rd; dm_end := Faulted f |}
  end.

End Directory.

(* ================================================================== *)
(** ** directory.c, when memory can run out *)
(* ================================================================== *)

Module DirectoryMem.

Import Directory.

(** [mem n] tells whether the [n]-th allocation of a run succeeds; each
    function takes the number of allocations made before it and returns
    the number made after it. *)

(** [strdup]: the copy, or [NULL]. *)
Definition strdup (mem : nat -> bool) (n : nat) (s : cstring)
  : option cstring * nat :=
  (if mem n then Some s else None, S n).

(** Lines 202-240: [NULL] when one of the two copies cannot be made;
    [Directory.name_from_uri] is what the lines between the two make of
    the first copy. *)
Definition name_from_uri (mem : nat -> bool) (n : nat) (psz_uri : cstring)
  : option cstring * nat :=
  match strdup mem n psz_uri with
  | (None, n') => (None, n')
  | (Some psz_filename, n') =>
      strdup mem n' (Directory.name_from_uri psz_filename)
  end.

(** Lines 242-282. *)
Definition calculate_slave_priority (mem : nat -> bool) (n : nat)
           (p_item : input_item_t) (p_slave : input_item_slave)
  : input_item_slave * nat :=
  let (psz_item_name, n1) := name_from_uri mem n (psz_uri p_item) in
  let (psz_slave_name, n2) := name_from_uri mem n1 (slave_uri p_slave) in
  match psz_item_name, psz_slave_name with
  | Some item_name, Some slave_name =>
      (with_priority p_slave (slave_score item_name slave_name), n2)
  | _, _ => (with_priority p_slave SLAVE_PRIORITY_NONE, n2)
  end.

(** The body of the loop over [j]. *)
Definition attach_one (mem : nat -> bool) (i_fuzzy : Z)
           (p_item : input_item_t) (i j : nat) (st : attach_state)
           (n : nat) : attach_state * nat * outcome :=
  match nth_error (pp_slaves st) j with
  | None => (st, n, Faulted (ReadPastEnd j))
  | Some Freed => (st, n, Faulted (UseAfterFree j))
  | Some (Live p_slave) =>
      let (scored, n') := calculate_slave_priority mem n p_item p_slave in
      if (slave_priority scored >=? i_fuzzy)%Z then
        ({| pp_slaves := store_set j (Live scored) (pp_slaves st);
            added := added st ++ [(i, j)] |}, n', Completed)
      else
        ({| pp_slaves := store_set j Freed (pp_slaves st);
            added := added st |}, n', Completed)
  end.

(** The loop over [j], with [turns] turns left. *)
Fixpoint attach_item (mem : nat -> bool) (i_fuzzy : Z)
         (p_item : input_item_t) (i : nat) (turns j : nat)
         (st : attach_state) (n : nat) : attach_state * nat * outcome :=
  match turns with
  | O => (st, n, Completed)
  | S turns' =>
      match attach_one mem i_fuzzy p_item i j st n with
      | (st', n', Completed) =>
          attach_item mem i_fuzzy p_item i turns' (S j) st' n'
      | stopped => stopped
      end
  end.

(** The loop over the children [i]. *)
Fixpoint attach_children (mem : nat -> bool) (i_fuzzy : Z) (i : nat)
         (children : list input_item_t) (st : attach_state) (n : nat)
  : attach_state * nat * outcome :=
  match children with
  | [] => (st, n, Completed)
  | p_item :: rest =>
      match attach_item mem i_fuzzy p_item i
                        (List.length (pp_slaves st)) 0 st n with
      | (st', n', Completed) =>
          attach_children mem i_fuzzy (S i) rest st' n'
      | stopped => stopped
      end
  end.

(** Lines 284-302. *)
Definition attach_slaves (mem : nat -> bool) (p_demux : vlc_vars)
           (children : list input_item_t) (p_slaves : list slot)
  : attach_state * nat * outcome :=
  let i_fuzzy := to_int (sub_autodetect_fuzzy p_demux) in
  let st := {| pp_slaves := p_slaves; added := [] |} in
  if (i_fuzzy =? 0)%Z then (st, 0, Completed)
  else attach_children mem i_fuzzy 0 children st 0.

End DirectoryMem.

(* ================================================================== *)
(** ** modules/demux/mpeg/ts_psi_eit.c *)
(* ================================================================== *)

Module TsPsiEit.

(** Arithmetic on [uint32_t], and the conversion of the result to
    [int]. *)
Definition uint32_t (z : Z) : Z := z mod 2 ^ 32.

Definition int_of_uint (z : Z) : Z :=
  if (z <? 2 ^ 31)%Z then z else (z - 2 ^ 32)%Z.

(** [#define CVT_FROM_BCD(v) ((((v) >> 4)&0xf)*10 + ((v)&0xf))] *)
Definition CVT_FROM_BCD (v : Z) : Z :=
  uint32_t (uint32_t (Z.land (Z.shiftr v 4) 15 * 10) + Z.land v 15).

(** Lines 274-279; [i_duration] is a [uint32_t]. *)
Definition EITConvertDuration (i_duration : Z) : Z :=
  int_of_uint
    (uint32_t
       (uint32_t
          (uint32_t (CVT_FROM_BCD (Z.shiftr i_duration 16) * 3600)
           + uint32_t (CVT_FROM_BCD (Z.shiftr i_duration 8) * 60))
        + CVT_FROM_BCD i_duration)).

End TsPsiEit.

(* ================================================================== *)
(** ** unnamed/part_000: an earlier revision of directory.c *)
(* ================================================================== *)

Module Part000.

Import Directory.

(** The kinds are written [INPUT_ITEM_SLAVE_SPU] and
    [INPUT_ITEM_SLAVE_AUDIO] in this revision; the extension tables are
    those of directory.c. *)
Definition p_slave_list : list (slave_type * list cstring) :=
  [ (SLAVE_TYPE_SPU, ppsz_sub_exts);
    (SLAVE_TYPE_AUDIO, ppsz_audio_exts) ].

(** The inner loop of [is_slave], lines 145-153: the test is
    [if( strncasecmp( psz_ext, *ppsz_slave_ext, i_extlen ) )]. *)
Fixpoint ext_listed (psz_ext : cstring) (i_extlen : nat)
         (exts : list cstring) : bool :=
  match exts with
  | [] => false
  | slave_ext :: exts' =>
      if negb (strncasecmp psz_ext slave_ext i_extlen =? 0)%Z then true
      else ext_listed psz_ext i_extlen exts'
  end.

Fixpoint slave_lookup (psz_ext : cstring) (i_extlen : nat)
         (tables : list (slave_type * list cstring)) : option slave_type :=
  match tables with
  | [] => None
  | (i_type, exts) :: tables' =>
      if ext_listed psz_ext i_extlen exts then Some i_type
      else slave_lookup psz_ext i_extlen tables'
  end.

(** Lines 133-156. *)
Definition is_slave (psz_name : cstring) : option slave_type :=
  match strrchr psz_name "."%char with
  | None => None
  | Some i =>
      let psz_ext := skipn (S i) psz_name in
      let i_extlen := strlen psz_ext in
      if Nat.eqb i_extlen 0 then None
      else slave_lookup psz_ext i_extlen p_slave_list
  end.

(** The two nodes the [stream_ReadDir] loop fills; [p_slaves_node] is
    [NULL] until the first slave is met. *)
Record read_state := {
  children : list input_item_t;
  p_slaves_node : option (list input_item_t)
}.

(** Lines 228-259: the body of the [stream_ReadDir] loop. *)
Definition read_item (p_demux : vlc_vars) (st : read_state)
           (p_item : input_item_t) : read_state :=
  if skip_item (show_hiddenfiles p_demux) p_item then st
  else
    match is_slave (name_of p_item) with
    | Some _ =>
        {| children := children st;
           p_slaves_node :=
             Some (match p_slaves_node st with
                   | Some slaves => slaves ++ [p_item]
                   | None => [p_item]
                   end) |}
    | None =>
        if has_ext (ignore_filetypes p_demux) (name_of p_item) then st
        else {| children := children st ++ [p_item];
                p_slaves_node := p_slaves_node st |}
    end.

(** Lines 226-260: the loop. *)
Definition read_dir (p_demux : vlc_vars) (stream : list input_item_t)
  : read_state :=
  fold_left (read_item p_demux) stream
            {| children := []; p_slaves_node := None |}.

End Part000.

(* ================================================================== *)
(** ** Definitions used to state the properties *)
(* ================================================================== *)

Module Props.

Import Subtitles.

(** Where [strcpy_trim] stands in its input: before the first word, in
    a word, or after a word among separators. *)
Inductive trim_state := AtStart | InWord | InGap.

(** [strcpy_trim] as one pass: a word is copied in lower case, and a
    space is written before a word that follows a gap. *)
Fixpoint squeeze (st : trim_state) (s : cstring) : cstring :=
  match s with
  | [] => []
  | c :: s' =>
      if isalnum c then
        match st with
        | InGap => " "%char :: tolower c :: squeeze InWord s'
        | _ => tolower c :: squeeze InWord s'
        end
      else
        squeeze (match st with AtStart => AtStart | _ => InGap end) s'
  end.

(** The state reached after reading [s] from state [st]. *)
Fixpoint state_after (st : trim_state) (s : cstring) : trim_state :=
  match s with
  | [] => st
  | c :: s' =>
      state_after (if isalnum c then InWord
                   else match st with AtStart => AtStart | _ => InGap end)
                  s'
  end.

(** A lower-case ASCII letter or a digit. *)
Definition lower_alnum (c : ascii) : bool := isdigit c || islower c.

(** Lower-case alphanumerics and spaces only, no space after a space
    ([after_space] also stands for the start) and none at the end. *)
Fixpoint well_spaced (after_space : bool) (s : cstring) : bool :=
  match s with
  | [] => negb after_space
  | c :: s' =>
      if Ascii.eqb c " "%char
      then negb after_space && well_spaced true s'
      else lower_alnum c && well_spaced false s'
  end.

(** The shape of a normalized name: words of lower-case ASCII
    alphanumerics separated by single spaces, or nothing. *)
Definition normalized (s : cstring) : bool :=
  match s with
  | [] => true
  | _ :: _ => well_spaced true s
  end.

(** An extension: no dot inside. *)
Definition nodot (e : cstring) : bool :=
  forallb (fun x => negb (Ascii.eqb x "."%char)) e.

(** The name of a file with base name [N] and extension [e]. *)
Definition file_name (N e : cstring) : cstring := N ++ "."%char :: e.

(** A file name: no directory separator inside. *)
Definition noslash (e : cstring) : bool :=
  forallb (fun x => negb (Ascii.eqb x "/"%char)) e.

(** A base name: a C string with no directory separator. *)
Definition base_ok (N : cstring) : bool := no_nul N && noslash N.

(** An extension: a C string with no directory separator and no
    dot. *)
Definition ext_ok (e : cstring) : bool :=
  no_nul e && noslash e && nodot e.

(** The URI of the file [N.e] of the directory [dir]. *)
Definition uri_of (dir N e : cstring) : cstring :=
  dir ++ "/"%char :: file_name N e.

(** A directory entry of the batch listing. *)
Definition entry_of (dir N e : cstring) : Directory.input_item_t :=
  {| Directory.psz_name := Some (file_name N e);
     Directory.psz_uri := uri_of dir N e;
     Directory.i_type := ITEM_TYPE_FILE |}.

(** A candidate the resolver has no rule for: its path has no
    extension, or one that is neither "sub" nor "cdg". *)
Definition other_ext (s : subtitle) : bool :=
  match psz_path s with
  | None => false
  | Some p =>
      match strrchr p "."%char with
      | None => true
      | Some k =>
          negb (strcasecmp (skipn (S k) p) (cs "sub") =? 0)%Z
          && negb (strcasecmp (skipn (S k) p) (cs "cdg") =? 0)%Z
      end
  end.

(** A candidate whose path has the extension [ext], in any case. *)
Definition has_extension (ext : string) (s : subtitle) : bool :=
  match psz_path s with
  | None => false
  | Some p =>
      match strrchr p "."%char with
      | None => false
      | Some k => (strcasecmp (skipn (S k) p) (cs ext) =? 0)%Z
      end
  end.

(** A host with one readable directory [dir], which holds the regular
    files [names]; paths are given as they are, not as URIs. *)
Definition dir_host (dir : cstring) (names : list cstring) : host :=
  {| vlc_uri2path := fun uri => Some uri;
     vlc_opendir := fun d =>
       if list_eq_dec ascii_dec d dir then Some names else None;
     vlc_stat_isreg := fun _ => true |}.

(** The configuration with the threshold [fuzzy] and the hidden-file
    flag [hidden]; nothing ignored, no sort mode. *)
Definition config (fuzzy : Z) (hidden : bool) : vlc_vars :=
  {| sub_autodetect_fuzzy := fuzzy;
     show_hiddenfiles := hidden;
     ignore_filetypes := None;
     directory_sort := None |}.

(** A candidate as [subtitle_New] makes it. *)
Definition candidate (path : string) (prio : Z) : subtitle :=
  {| psz_path := Some (cs path); i_priority := prio; b_rejected := false |}.

(** What a run of the resolver may change in one candidate: nothing but
    the flag, which is only ever set, and not even the flag where the
    resolver has no rule for the extension. *)
Definition framed (s s' : subtitle) : Prop :=
  psz_path s' = psz_path s
  /\ i_priority s' = i_priority s
  /\ (b_rejected s = true -> b_rejected s' = true)
  /\ (other_ext s = true -> b_rejected s' = b_rejected s).

(** A slave of the second run that is still allocated is allocated in
    the first, with the same URI. *)
Definition slot_covers (c1 c2 : Directory.slot) : Prop :=
  match c2 with
  | Directory.Freed => True
  | Directory.Live s2 =>
      match c1 with
      | Directory.Live s1 => Directory.slave_uri s1 = Directory.slave_uri s2
      | Directory.Freed => False
      end
  end.

(** The first of two runs of [attach_slaves] is ahead of the second. *)
Definition covers (st1 st2 : Directory.attach_state) : Prop :=
  Forall2 slot_covers (Directory.pp_slaves st1) (Directory.pp_slaves st2)
  /\ List.length (Directory.added st2) <= List.length (Directory.added st1).

(** A listing of two entries: a movie and its subtitles. *)
Definition two_entries : list Directory.input_item_t :=
  [entry_of (cs "/d") (cs "movie") (cs "mkv");
   entry_of (cs "/d") (cs "movie") (cs "srt")].

(** A host whose directory "/d/" holds two subtitle files. *)
Definition movie_host : host :=
  dir_host (cs "/d/") [cs "movie.srt"; cs "other.srt"].

(** A host whose directory "/d/" holds one hidden subtitle file. *)
Definition hidden_host : host := dir_host (cs "/d/") [cs ".movie.srt"].

(** The children of the node as the [stream_ReadDir] loop leaves them:
    the entries that are neither skipped, nor slaves, nor ignored, in
    the order of the listing. *)
Definition read_children (p_demux : vlc_vars)
           (stream : list Directory.input_item_t)
  : list Directory.input_item_t :=
  Directory.rd_children
    (fold_left (Directory.read_item p_demux) stream
               {| Directory.rd_children := []; Directory.rd_slaves := [];
                  Directory.rd_reads := 0 |}).

(** A piece as [vpieces] makes it: a run of digits that begins with a
    digit, or a character that is not a digit. *)
Definition vpiece_ok (p : Directory.vpiece) : Prop :=
  match p with
  | Directory.VNum [] => False
  | Directory.VNum (d :: _) => isdigit d = true
  | Directory.VChr c => isdigit c = false
  end.

(** An entry of the listing with the name [name] and the type [t]. *)
Definition item (name : string) (t : Z) : Directory.input_item_t :=
  {| Directory.psz_name := Some (cs name);
     Directory.psz_uri := cs "file:///d/" ++ cs name;
     Directory.i_type := t |}.

(** [a] is not above [b] for the comparator [compar]. *)
Definition below (compar : Directory.input_item_t ->
                           Directory.input_item_t -> Z)
           (a b : Directory.input_item_t) : Prop :=
  (compar a b <= 0)%Z.

(** A listing that [stream_ReadDir] does not deliver sorted. *)
Definition unsorted_dir : Directory.demux_sys_t :=
  {| Directory.b_dir_sorted := false; Directory.b_dir_can_loop := false |}.

(** The configuration with discovery disabled and the sort mode
    [mode]. *)
Definition sorting (mode : string) : vlc_vars :=
  {| sub_autodetect_fuzzy := 0;
     show_hiddenfiles := false;
     ignore_filetypes := None;
     directory_sort := Some (cs mode) |}.

(** Two files and a directory, out of order. *)
Definition unsorted_listing : list Directory.input_item_t :=
  [item "track10.mkv" ITEM_TYPE_FILE; item "b" ITEM_TYPE_DIRECTORY;
   item "track2.mkv" ITEM_TYPE_FILE].

(** Two candidates of priority MatchLeft. *)
Definition two_candidates : subtitle_list :=
  [candidate "/d//movie.srt" 3; candidate "/d//song.cdg" 3].

(** The pieces of [s] between the separators [c]: "a,,b" has the pieces
    "a", "" and "b", and the empty string has one empty piece. *)
Fixpoint split_on (c : ascii) (s : cstring) : list cstring :=
  match s with
  | [] => [[]]
  | x :: s' =>
      if Ascii.eqb x c then [] :: split_on c s'
      else match split_on c s' with
           | p :: ps => (x :: p) :: ps
           | [] => [[x]]
           end
  end.

(** The pieces without the last one when it is empty. *)
Fixpoint drop_last_empty (ps : list cstring) : list cstring :=
  match ps with
  | [] => []
  | [[]] => []
  | p :: ps' => p :: drop_last_empty ps'
  end.

(** The entries of a comma separated list of extensions: what stands
    between the commas, and nothing for an empty end. *)
Definition ext_entries (exts : cstring) : list cstring :=
  drop_last_empty (split_on ","%char exts).

(** Lines 158-162 of subtitles.c: the number of paths [paths_to_list]
    allocates its array for, one more than the commas of the list. *)
Fixpoint i_nb_subdirs (psz_path : cstring) : nat :=
  match psz_path with
  | [] => 1
  | x :: rest =>
      if Ascii.eqb x ","%char then S (i_nb_subdirs rest)
      else i_nb_subdirs rest
  end.

(** The pieces of a list of paths: what stands between the commas,
    without the spaces that follow a comma. *)
Definition path_pieces (psz_path : cstring) : list cstring :=
  match split_on ","%char psz_path with
  | [] => []
  | p0 :: ps => p0 :: map skip_spaces ps
  end.

(** A path of the list as it is searched: behind the directory of the
    movie when it begins with a dot, as it is otherwise. *)
Definition with_dir (psz_dir sub : cstring) : cstring :=
  (if dot_first sub then psz_dir else []) ++ sub.

Definition nonempty (s : cstring) : bool :=
  match s with [] => false | _ :: _ => true end.

(** An entry of the listing that [Demux] makes a child of the node:
    not skipped, no slave, and no ignored extension. *)
Definition listed_child (p_demux : vlc_vars)
           (p_item : Directory.input_item_t) : bool :=
  negb (Directory.skip_item (show_hiddenfiles p_demux) p_item)
  && match Directory.is_slave (Directory.name_of p_item) with
     | Some _ => false
     | None => true
     end
  && negb (Directory.has_ext (ignore_filetypes p_demux)
                             (Directory.name_of p_item)).



(** A slave that has not been freed. *)
Definition live (s : Directory.slot) : bool :=
  match s with
  | Directory.Live _ => true
  | Directory.Freed => false
  end.






(** A name with something after its last dot. *)
Definition with_extension (psz_name : cstring) : bool :=
  match strrchr psz_name "."%char with
  | Some i => negb (Nat.eqb (strlen (skipn (S i) psz_name)) 0)
  | None => false
  end.

(** Two decimal digits in one byte, the tens in the high half. *)
Definition bcd_byte (n : Z) : Z := (n / 10 * 16 + n mod 10)%Z.

(** A duration of [h] hours, [m] minutes and [s] seconds as an EIT
    event carries it: three bytes of two decimal digits each. *)
Definition bcd_duration (h m s : Z) : Z :=
  (bcd_byte h * 65536 + bcd_byte m * 256 + bcd_byte s)%Z.

(** The order of the paths in [subtitle_Compare], and of the names in
    [compar_collate], in the build [b]. *)
Definition path_order (b : build) : cstring -> cstring -> Z :=
  match b with
  | HAVE_STRCOLL strcoll => strcoll
  | NO_STRCOLL => strcmp
  end.

Definition name_order (b : build) : cstring -> cstring -> Z :=
  match b with
  | HAVE_STRCOLL strcoll => strcoll
  | NO_STRCOLL => strcasecmp
  end.

(** [cmp] behaves as an order on [x], [y] and [z]: swapping the
    arguments swaps the sign, and it is transitive. *)
Definition orders (cmp : cstring -> cstring -> Z) (x y z : cstring)
  : Prop :=
  Z.sgn (cmp y x) = (- Z.sgn (cmp x y))%Z
  /\ ((cmp x y <= 0)%Z -> (cmp y z <= 0)%Z -> (cmp x z <= 0)%Z).

(** A candidate whose path is a C string. *)
Definition path_ok (s : subtitle) : bool :=
  match psz_path s with
  | Some p => no_nul p
  | None => false
  end.

(** A candidate with a path. *)
Definition given (s : subtitle) : bool :=
  match psz_path s with
  | Some _ => true
  | None => false
  end.

(** [p] is the index file the resolver looks for on behalf of [s]: its
    path agrees with that of [s], in any case, on all but the last three
    characters of the latter, and has the extension "idx". *)
Definition partner (s p : subtitle) : bool :=
  match psz_path s, psz_path p with
  | Some path, Some inner =>
      (strncasecmp path inner (strlen path - 3) =? 0)%Z
      && has_extension "idx" p
  | _, _ => false
  end.

(** No ".sub" candidate without its index file in [l]. *)
Definition paired (l : subtitle_list) (s : subtitle) : bool :=
  negb (has_extension "sub" s) || existsb (partner s) l.

(** The flag the resolver's rules give a candidate with a path. *)
Definition settle (s : subtitle) : subtitle :=
  if has_extension "sub" s
     || (has_extension "cdg" s
         && (i_priority s <? SLAVE_PRIORITY_MATCH_ALL)%Z)
  then set_rejected s
  else s.

(** A candidate as the scan of [subtitles_Detect] appends it: the file
    [name] of a searched and readable directory [dir], with a subtitle
    extension and no dot in front, that is a regular file and whose
    path is not the string of the movie's path, scored at least [t]. *)
Definition candidate_of (h : host) (t : Z) (psz_fname f_fname_trim : cstring)
           (dirs : list cstring) (s : subtitle) : Prop :=
  exists dir name names j,
    In dir dirs /\ vlc_opendir h dir = Some names /\ In name names
    /\ dot_first name = false /\ subtitles_Filter name = true
    /\ psz_path s = Some (dir ++ cs "/" ++ name)
    /\ (strcmp (dir ++ cs "/" ++ name) psz_fname =? 0)%Z = false
    /\ vlc_stat_isreg h (dir ++ cs "/" ++ name) = true
    /\ i_priority s = detect_prio f_fname_trim j name
    /\ (t <= i_priority s <= SLAVE_PRIORITY_MATCH_ALL)%Z
    /\ b_rejected s = false.

(** The test the scan makes on the entry [name] of the directory
    [dir], which is number [j]: no dot in front, a subtitle extension,
    a priority of at least [t], a path that is not the string of the
    movie's path, and a regular file. *)
Definition accepted (h : host) (t : Z) (psz_fname f_fname_trim : cstring)
           (j : Z) (dir name : cstring) : bool :=
  negb (dot_first name) && subtitles_Filter name
  && (detect_prio f_fname_trim j name >=? t)%Z
  && negb (strcmp (dir ++ cs "/" ++ name) psz_fname =? 0)%Z
  && vlc_stat_isreg h (dir ++ cs "/" ++ name).

(** The candidates of one directory, in the order [vlc_readdir] gives
    its entries. *)
Definition found_in (h : host) (t : Z) (psz_fname f_fname_trim : cstring)
           (j : Z) (dir : cstring) : subtitle_list :=
  match vlc_opendir h dir with
  | None => []
  | Some names =>
      map (fun name =>
             {| psz_path := Some (dir ++ cs "/" ++ name);
                i_priority := detect_prio f_fname_trim j name;
                b_rejected := false |})
          (filter (accepted h t psz_fname f_fname_trim j dir) names)
  end.

(** The candidates of the movie's directory, then those of the listed
    directories other than it, in order. *)
Definition found_all (h : host) (t : Z) (psz_fname f_fname_trim : cstring)
           (f_dir : cstring) (subdirs : list cstring) : subtitle_list :=
  found_in h t psz_fname f_fname_trim (-1) f_dir
  ++ flat_map (fun dir =>
                 if (strcmp dir f_dir =? 0)%Z then []
                 else found_in h t psz_fname f_fname_trim 0 dir)
              subdirs.

(** The calls the scan makes for the entry [name] of the directory
    [dir]: it is read, and [vlc_stat] is called when the name has no
    dot in front, a subtitle extension and a priority of at least [t],
    and the path is not the string of the movie's path. *)
Definition io_of_entry (t : Z) (psz_fname f_fname_trim : cstring)
           (j : Z) (dir name : cstring) : list io_event :=
  IoReaddir name
  :: (if negb (dot_first name) && subtitles_Filter name
         && (detect_prio f_fname_trim j name >=? t)%Z
         && negb (strcmp (dir ++ cs "/" ++ name) psz_fname =? 0)%Z
      then [IoStat (dir ++ cs "/" ++ name)]
      else []).

(** The calls made for one directory. *)
Definition io_of_dir (h : host) (t : Z) (psz_fname f_fname_trim : cstring)
           (j : Z) (dir : cstring) : list io_event :=
  IoOpendir dir
  :: match vlc_opendir h dir with
     | None => []
     | Some names =>
         flat_map (io_of_entry t psz_fname f_fname_trim j dir) names
     end.

(** The calls made for the movie's directory, then for the listed
    directories other than it. *)
Definition io_all (h : host) (t : Z) (psz_fname f_fname_trim : cstring)
           (f_dir : cstring) (subdirs : list cstring) : list io_event :=
  io_of_dir h t psz_fname f_fname_trim (-1) f_dir
  ++ flat_map (fun dir =>
                 if (strcmp dir f_dir =? 0)%Z then []
                 else io_of_dir h t psz_fname f_fname_trim 0 dir)
              subdirs.

(** The directories [subtitles_Detect] searches for the movie
    [psz_fname], whose last separator is at offset [k]: its own and
    those of the list [psz_path]. *)
Definition searched_dirs (psz_path : option cstring) (psz_fname : cstring)
           (k : nat) : list cstring :=
  firstn (S k) psz_fname
  :: match paths_to_list (Some (firstn (S k) psz_fname)) psz_path with
     | Some dirs => dirs
     | None => []
     end.

(** The test [has_ext] makes on one entry of the list: the same length
    and, over it, the same characters, case apart. *)
Definition same_ext (ext entry : cstring) : bool :=
  Nat.eqb (strlen ext) (strlen entry)
  && (strncasecmp ext entry (strlen ext) =? 0)%Z.

(** The extension of a name, in lower case: what follows the last dot,
    or nothing when there is no dot. *)
Definition lower_ext (name : cstring) : cstring :=
  match strrchr name "."%char with
  | None => []
  | Some i => map tolower (skipn (S i) name)
  end.

End Props.

(* ================================================================== *)
(** ** Properties of the C library functions *)
(* ================================================================== *)

Module CLibFacts.

Ltac all_chars c :=
  destruct c as [[] [] [] [] [] [] [] []]; vm_compute; try reflexivity;
  try discriminate; auto.

Lemma isalnum_tolower (c : ascii) : isalnum (tolower c) = isalnum c.
Proof. all_chars c. Qed.

Lemma tolower_tolower (c : ascii) : tolower (tolower c) = tolower c.
Proof. all_chars c. Qed.

Lemma tolower_lower_alnum (c : ascii) :
  isalnum c = true -> Props.lower_alnum (tolower c) = true.
Proof. all_chars c. Qed.

Lemma lower_alnum_fixed (c : ascii) :
  Props.lower_alnum c = true -> tolower c = c.
Proof. all_chars c. Qed.

Lemma lower_alnum_isalnum (c : ascii) :
  Props.lower_alnum c = true -> isalnum c = true.
Proof. all_chars c. Qed.

Lemma space_not_alnum (c : ascii) :
  Ascii.eqb c " "%char = true -> isalnum c = false.
Proof. intros H. apply Ascii.eqb_eq in H. subst c. reflexivity. Qed.

Lemma map_tolower_tolower (s : cstring) :
  map tolower (map tolower s) = map tolower s.
Proof.
  induction s as [|c s IH]; simpl; [reflexivity|].
  now rewrite tolower_tolower, IH.
Qed.

Lemma strcmp_refl (a : cstring) : strcmp a a = 0%Z.
Proof.
  induction a as [|x a IH]; simpl; [reflexivity|].
  now rewrite Ascii.eqb_refl.
Qed.

Lemma code_pos_neq (x y : ascii) :
  x <> y -> (Z.of_N (code x) - Z.of_N (code y))%Z <> 0%Z.
Proof.
  intros Hne Hz. apply Hne.
  assert (E : code x = code y) by lia.
  unfold code in E.
  rewrite <- (ascii_N_embedding x), <- (ascii_N_embedding y).
  now rewrite E.
Qed.

Lemma code_nonzero_of_neq (x : ascii) :
  x <> zero -> Z.of_N (code x) <> 0%Z.
Proof.
  intros Hne Hz. apply Hne.
  assert (E : code x = 0%N) by lia.
  unfold code in E.
  rewrite <- (ascii_N_embedding x). now rewrite E.
Qed.

End CLibFacts.

(* ================================================================== *)
(** ** The name normalizer *)
(* ================================================================== *)

Module NormalizerFacts.

Import Subtitles Props CLibFacts.

Lemma squeeze_skip (s : cstring) :
  squeeze AtStart s = squeeze InWord (skip_nonalnum s).
Proof.
  induction s as [|c s IH]; simpl; [reflexivity|].
  destruct (isalnum c) eqn:E; simpl; [now rewrite E | exact IH].
Qed.

Lemma squeeze_gap_skip (s : cstring) :
  squeeze InGap s = squeeze InGap (skip_nonalnum s).
Proof.
  induction s as [|c s IH]; simpl; [reflexivity|].
  destruct (isalnum c) eqn:E; simpl; [now rewrite E | exact IH].
Qed.

Lemma skip_nonalnum_length (s : cstring) :
  List.length (skip_nonalnum s) <= List.length s.
Proof.
  induction s as [|c s IH]; simpl; [lia|].
  destruct (isalnum c); simpl; lia.
Qed.

Lemma skip_nonalnum_head (s : cstring) c t :
  skip_nonalnum s = c :: t -> isalnum c = true.
Proof.
  induction s as [|x s IH]; simpl; [discriminate|].
  destruct (isalnum x) eqn:E; [|exact IH].
  intros H. injection H as -> _. exact E.
Qed.

Lemma copy_word_squeeze (s : cstring) :
  squeeze InWord s = fst (copy_word s) ++ squeeze InWord (snd (copy_word s)).
Proof.
  induction s as [|c s IH]; simpl; [reflexivity|].
  destruct (isalnum c) eqn:E.
  - destruct (copy_word s) as [w r] eqn:Ew. simpl in *. now rewrite IH.
  - simpl. now rewrite E.
Qed.

Lemma copy_word_rest (s : cstring) :
  List.length (snd (copy_word s)) <= List.length s
  /\ match snd (copy_word s) with
     | [] => True
     | c :: _ => isalnum c = false
     end.
Proof.
  induction s as [|c s [IH1 IH2]]; simpl; [split; [lia|exact I]|].
  destruct (isalnum c) eqn:E.
  - destruct (copy_word s) as [w r]. simpl in *. split; [lia|exact IH2].
  - simpl. split; [lia|exact E].
Qed.

(** The loop of the source never runs out of turns. *)
Lemma trim_loop_squeeze (fuel : nat) :
  forall s, List.length s < fuel -> trim_loop fuel s = squeeze InWord s.
Proof.
  induction fuel as [|fuel IH]; intros s Hlen; [lia|].
  simpl. rewrite (copy_word_squeeze s).
  pose proof (copy_word_rest s) as [Hl Hh].
  destruct (copy_word s) as [w s1]. simpl in *.
  destruct s1 as [|c s1]; [now rewrite app_nil_r|].
  simpl. rewrite Hh.
  rewrite squeeze_gap_skip.
  pose proof (skip_nonalnum_length s1) as Hs.
  destruct (skip_nonalnum s1) as [|d s2] eqn:Es; [now rewrite app_nil_r|].
  pose proof (skip_nonalnum_head _ _ _ Es) as Hd.
  rewrite IH by (simpl in *; lia).
  simpl. now rewrite Hd.
Qed.

Lemma strcpy_trim_squeeze (s : cstring) :
  strcpy_trim s = squeeze AtStart s.
Proof.
  unfold strcpy_trim, strlen. rewrite squeeze_skip.
  apply trim_loop_squeeze.
  pose proof (skip_nonalnum_length s). lia.
Qed.

Lemma squeeze_app (s t : cstring) :
  forall st, squeeze st (s ++ t)
             = squeeze st s ++ squeeze (state_after st s) t.
Proof.
  induction s as [|c s IH]; intros st; simpl; [reflexivity|].
  destruct (isalnum c); [destruct st|]; simpl; now rewrite IH.
Qed.

Lemma squeeze_map_tolower (s : cstring) :
  forall st, squeeze st (map tolower s) = squeeze st s.
Proof.
  induction s as [|c s IH]; intros st; simpl; [reflexivity|].
  rewrite isalnum_tolower, tolower_tolower.
  destruct (isalnum c); [destruct st|]; now rewrite IH.
Qed.

Lemma strcpy_trim_map_tolower (s : cstring) :
  strcpy_trim (map tolower s) = strcpy_trim s.
Proof. rewrite !strcpy_trim_squeeze. apply squeeze_map_tolower. Qed.

(** Every output is well spaced, whatever precedes it. *)
Lemma squeeze_well_spaced (s : cstring) :
  forall st, well_spaced false (squeeze st s) = true
             /\ (st = AtStart ->
                 squeeze st s <> [] ->
                 well_spaced true (squeeze st s) = true).
Proof.
  induction s as [|c s IH]; intros st; simpl.
  - split; [reflexivity|]. intros _ H. now elim H.
  - destruct (isalnum c) eqn:E.
    + pose proof (tolower_lower_alnum c E) as Hl.
      assert (Hsp : Ascii.eqb (tolower c) " "%char = false).
      { destruct (Ascii.eqb (tolower c) " "%char) eqn:Esp; [|reflexivity].
        apply space_not_alnum in Esp.
        rewrite isalnum_tolower in Esp. congruence. }
      destruct (IH InWord) as [IH1 _].
      destruct st; simpl; rewrite Hsp, Hl, IH1; simpl; split; auto;
        discriminate.
    + destruct st; simpl.
      * destruct (IH AtStart) as [IH1 IH2]. split; [exact IH1|].
        intros _ Hne. now apply IH2.
      * destruct (IH InGap) as [IH1 _]. split; [exact IH1|discriminate].
      * destruct (IH InGap) as [IH1 _]. split; [exact IH1|discriminate].
Qed.

(** A well spaced string is copied as it is. *)
Lemma squeeze_fixed (s : cstring) :
  (well_spaced false s = true -> squeeze InWord s = s)
  /\ (well_spaced true s = true ->
      squeeze AtStart s = s /\ squeeze InGap s = " "%char :: s).
Proof.
  induction s as [|c s [IHw IHg]]; simpl.
  - split; [reflexivity|discriminate].
  - destruct (Ascii.eqb c " "%char) eqn:Esp.
    + rewrite (space_not_alnum c Esp). simpl.
      apply Ascii.eqb_eq in Esp. subst c.
      split; [|discriminate].
      intros H. destruct (IHg H) as [_ ->]. reflexivity.
    + split; intros H; apply andb_prop in H as [Hc Hs];
        rewrite (lower_alnum_isalnum c Hc), (lower_alnum_fixed c Hc),
                (IHw Hs); auto.
Qed.

Lemma normalized_strcpy_trim (x : cstring) :
  normalized (strcpy_trim x) = true.
Proof.
  rewrite strcpy_trim_squeeze.
  destruct (squeeze AtStart x) as [|c t] eqn:E; [reflexivity|].
  unfold normalized. rewrite <- E.
  apply (squeeze_well_spaced x AtStart); [reflexivity|].
  rewrite E. discriminate.
Qed.

Lemma normalized_fixed (y : cstring) :
  normalized y = true -> strcpy_trim y = y.
Proof.
  intros H. rewrite strcpy_trim_squeeze.
  destruct y as [|c t]; [reflexivity|].
  now apply (squeeze_fixed (c :: t)).
Qed.

(** A normalized name has no dot, so no extension to strip. *)
Lemma well_spaced_no_dot (s : cstring) :
  forall b, well_spaced b s = true -> strrchr s "."%char = None.
Proof.
  induction s as [|c s IH]; intros b; simpl; [reflexivity|].
  destruct (Ascii.eqb c " "%char) eqn:Esp; intros H;
    apply andb_prop in H as [Hc Hs]; rewrite (IH _ Hs).
  - apply Ascii.eqb_eq in Esp. subst c. reflexivity.
  - destruct (Ascii.eqb c "."%char) eqn:Ed; [|reflexivity].
    apply Ascii.eqb_eq in Ed. subst c. discriminate.
Qed.

Lemma normalized_no_ext (s : cstring) :
  normalized s = true -> strcpy_strip_ext s = s.
Proof.
  intros H. unfold strcpy_strip_ext.
  destruct s as [|c t]; [reflexivity|].
  now rewrite (well_spaced_no_dot (c :: t) true H).
Qed.

(** The explicit reading of [normalized]. *)
Lemma well_spaced_chars (s : cstring) :
  forall b, well_spaced b s = true ->
            Forall (fun c => lower_alnum c = true \/ c = " "%char) s.
Proof.
  induction s as [|c s IH]; intros b; simpl; [constructor|].
  destruct (Ascii.eqb c " "%char) eqn:Esp; intros H;
    apply andb_prop in H as [Hc Hs]; constructor; eauto.
  right. now apply Ascii.eqb_eq.
Qed.

Lemma well_spaced_last (s : cstring) :
  forall b, well_spaced b s = true -> s <> [] ->
            last s "a"%char <> " "%char.
Proof.
  induction s as [|c s IH]; intros b H Hne; [now elim Hne|].
  simpl in H.
  destruct (Ascii.eqb c " "%char) eqn:Esp;
    apply andb_prop in H as [Hc Hs].
  - destruct s as [|d s]; [discriminate|].
    change (last (c :: d :: s) "a"%char) with (last (d :: s) "a"%char).
    apply (IH _ Hs). discriminate.
  - destruct s as [|d s].
    + simpl. intros ->. discriminate.
    + change (last (c :: d :: s) "a"%char) with (last (d :: s) "a"%char).
      apply (IH _ Hs). discriminate.
Qed.

Lemma well_spaced_no_double (s : cstring) :
  forall b u v, well_spaced b s = true ->
                s <> u ++ " "%char :: " "%char :: v.
Proof.
  induction s as [|c s IH]; intros b u v H E.
  - destruct u; discriminate.
  - simpl in H.
    destruct u as [|x u]; simpl in E; injection E as -> E.
    + subst s. destruct b; simpl in H; discriminate.
    + destruct (Ascii.eqb x " "%char);
        apply andb_prop in H as [_ Hs]; exact (IH _ u v Hs E).
Qed.

(** C7.  The normalizer is idempotent: [strcpy_trim] returns its own
    output unchanged, and so does the whole normalizer (extension
    stripped, then trimmed).  Every output has the normalized shape:
    lower-case ASCII alphanumerics and spaces only, no space at the
    start or at the end and no two spaces in a row; and every string of
    that shape is a fixed point. *)
Theorem normalizer_idempotent :
  forall x : cstring,
    strcpy_trim (strcpy_trim x) = strcpy_trim x
    /\ normalize (normalize x) = normalize x
    /\ normalized (strcpy_trim x) = true
    /\ Forall (fun c => lower_alnum c = true \/ c = " "%char)
              (strcpy_trim x)
    /\ hd "a"%char (strcpy_trim x) <> " "%char
    /\ last (strcpy_trim x) "a"%char <> " "%char
    /\ (forall u v, strcpy_trim x <> u ++ " "%char :: " "%char :: v)
    /\ (forall y : cstring, normalized y = true -> strcpy_trim y = y).
Proof.
  intros x.
  pose proof (normalized_strcpy_trim x) as Hn.
  assert (Hfix : strcpy_trim (strcpy_trim x) = strcpy_trim x)
    by (now apply normalized_fixed).
  split; [exact Hfix|].
  split.
  { unfold normalize.
    rewrite (normalized_no_ext _ (normalized_strcpy_trim _)).
    now apply normalized_fixed, normalized_strcpy_trim. }
  split; [exact Hn|].
  destruct (strcpy_trim x) as [|c t] eqn:E.
  - repeat split; try constructor; try discriminate.
    + intros u v. destruct u; discriminate.
    + apply normalized_fixed.
  - unfold normalized in Hn.
    split; [exact (well_spaced_chars _ _ Hn)|].
    split.
    { simpl in *. intros ->. simpl in Hn. discriminate. }
    split; [apply (well_spaced_last _ _ Hn); discriminate|].
    split; [intros u v; exact (well_spaced_no_double _ _ u v Hn)|].
    apply normalized_fixed.
Qed.

(** The theorem at the name "  The.Movie--(2009) ". *)
Lemma normalizer_idempotent_witness :
  strcpy_trim (cs "the movie 2009") = cs "the movie 2009".
Proof.
  apply (normalizer_idempotent (cs "  The.Movie--(2009) ")).
  reflexivity.
Defined.

End NormalizerFacts.

(* ================================================================== *)
(** ** Searching and comparing C strings *)
(* ================================================================== *)

Module SearchFacts.

Import CLibFacts.

Lemma starts_with_app (n b : cstring) : starts_with n (n ++ b) = true.
Proof.
  induction n as [|x n IH]; simpl; [reflexivity|].
  now rewrite Ascii.eqb_refl, IH.
Qed.

Lemma starts_with_split (n : cstring) :
  forall h, starts_with n h = true -> h = n ++ skipn (List.length n) h.
Proof.
  induction n as [|x n IH]; intros h H; simpl in *; [reflexivity|].
  destruct h as [|y h]; [discriminate|].
  apply andb_prop in H as [Hxy Hn].
  apply Ascii.eqb_eq in Hxy. subst y. simpl. f_equal. now apply IH.
Qed.

(** [strstr] returns an occurrence. *)
Lemma strstr_some (h : cstring) :
  forall n k, strstr h n = Some k ->
              h = firstn k h ++ n ++ skipn (k + List.length n) h
              /\ k <= List.length h.
Proof.
  induction h as [|y h IH]; intros n k; simpl.
  - destruct (starts_with n []) eqn:E; [|discriminate].
    intros H. injection H as <-. split; [|lia].
    destruct n; [reflexivity|discriminate].
  - destruct (starts_with n (y :: h)) eqn:E.
    + intros H. injection H as <-. simpl. split; [|lia].
      now apply starts_with_split.
    + destruct (strstr h n) as [i|] eqn:Ei; [|discriminate].
      intros H. injection H as <-.
      destruct (IH n i Ei) as [Hs Hl]. simpl. split; [|lia].
      f_equal. exact Hs.
Qed.

(** [strstr] returns the first occurrence. *)
Lemma strstr_first (a : cstring) :
  forall n b, exists k, strstr (a ++ n ++ b) n = Some k
                        /\ k <= List.length a.
Proof.
  induction a as [|x a IH]; intros n b.
  - exists 0. split; [|simpl; lia].
    simpl app. destruct (n ++ b) as [|z t] eqn:E; simpl.
    + destruct n; [reflexivity|discriminate].
    + rewrite <- E, starts_with_app. reflexivity.
  - destruct (IH n b) as [k [Hk Hle]].
    simpl app. simpl strstr.
    destruct (starts_with n (x :: a ++ n ++ b)).
    + exists 0. split; [reflexivity|simpl; lia].
    + rewrite Hk. exists (S k). split; [reflexivity|simpl; lia].
Qed.

(** The offset of the first occurrence, the tail behind it given. *)
Lemma strstr_at (a n b : cstring) :
  (forall a' b', a ++ n ++ b = a' ++ n ++ b' ->
                 List.length a <= List.length a') ->
  strstr (a ++ n ++ b) n = Some (List.length a)
  /\ skipn (List.length a + List.length n) (a ++ n ++ b) = b.
Proof.
  intros Hmin.
  destruct (strstr_first a n b) as [k [Hk Hle]].
  destruct (strstr_some _ _ _ Hk) as [Hs Hl].
  assert (Hfl : List.length (firstn k (a ++ n ++ b)) = k)
    by (apply firstn_length_le; exact Hl).
  pose proof (Hmin _ _ Hs) as Hge. rewrite Hfl in Hge.
  assert (k = List.length a) by lia. subst k.
  split; [exact Hk|].
  rewrite app_assoc, <- length_app, skipn_app, Nat.sub_diag.
  now rewrite skipn_all2 by lia.
Qed.

Lemma strstr_none (h n a b : cstring) :
  strstr h n = None -> h <> a ++ n ++ b.
Proof.
  intros Hn E. subst h.
  destruct (strstr_first a n b) as [k [Hk _]]. congruence.
Qed.

(** On strings without NUL, [strcmp] returns 0 on equal strings
    only. *)
Lemma strcmp_zero (a : cstring) :
  forall b, no_nul a = true -> no_nul b = true ->
            strcmp a b = 0%Z -> a = b.
Proof.
  induction a as [|x a IH]; intros [|y b] Ha Hb H; simpl in *;
    try reflexivity.
  - apply andb_prop in Hb as [Hy _]. exfalso.
    destruct (Ascii.eqb y zero) eqn:E; [discriminate|].
    apply Ascii.eqb_neq in E.
    pose proof (code_nonzero_of_neq y E). lia.
  - apply andb_prop in Ha as [Hx _]. exfalso.
    destruct (Ascii.eqb x zero) eqn:E; [discriminate|].
    apply Ascii.eqb_neq in E.
    pose proof (code_nonzero_of_neq x E). lia.
  - apply andb_prop in Ha as [_ Ha]. apply andb_prop in Hb as [_ Hb].
    destruct (Ascii.eqb x y) eqn:E.
    + apply Ascii.eqb_eq in E. subst y. f_equal. now apply IH.
    + apply Ascii.eqb_neq in E. exfalso.
      exact (code_pos_neq x y E H).
Qed.

Lemma strcmp_zero_iff (a b : cstring) :
  no_nul a = true -> no_nul b = true ->
  ((strcmp a b =? 0)%Z = true <-> a = b).
Proof.
  intros Ha Hb. rewrite Z.eqb_eq. split.
  - now apply strcmp_zero.
  - intros ->. apply strcmp_refl.
Qed.

Lemma strrchr_none (e : cstring) (c : ascii) :
  forallb (fun x => negb (Ascii.eqb x c)) e = true ->
  strrchr e c = None.
Proof.
  induction e as [|x e IH]; simpl; [reflexivity|].
  intros H. apply andb_prop in H as [Hx He].
  rewrite (IH He). now destruct (Ascii.eqb x c).
Qed.

(** The last dot of [a.e], when [e] has none, is the one between. *)
Lemma strrchr_app (a e : cstring) (c : ascii) :
  forallb (fun x => negb (Ascii.eqb x c)) e = true ->
  strrchr (a ++ c :: e) c = Some (List.length a).
Proof.
  intros He. induction a as [|x a IH]; simpl.
  - now rewrite (strrchr_none e c He), Ascii.eqb_refl.
  - now rewrite IH.
Qed.

End SearchFacts.

(* ================================================================== *)
(** ** The relevance scorers *)
(* ================================================================== *)

Module ScorerFacts.

Import Subtitles Props CLibFacts SearchFacts NormalizerFacts.

Lemma tolower_not_nul (c : ascii) :
  isalnum c = true -> Ascii.eqb (tolower c) zero = false.
Proof. all_chars c. Qed.

Lemma squeeze_no_nul (s : cstring) :
  forall st, no_nul (squeeze st s) = true.
Proof.
  induction s as [|c s IH]; intros st; simpl; [reflexivity|].
  destruct (isalnum c) eqn:E; [|apply IH].
  destruct st; simpl; rewrite (tolower_not_nul c E), IH; reflexivity.
Qed.

Lemma strcpy_trim_no_nul (s : cstring) : no_nul (strcpy_trim s) = true.
Proof. rewrite strcpy_trim_squeeze. apply squeeze_no_nul. Qed.

Lemma state_after_not_start (t : cstring) :
  forall st, st <> AtStart -> state_after st t <> AtStart.
Proof.
  induction t as [|d t IH]; intros st Hst; simpl; [exact Hst|].
  apply IH. destruct (isalnum d); [discriminate|].
  destruct st; [now elim Hst|discriminate|discriminate].
Qed.

(** Nothing has been copied as long as no word has begun. *)
Lemma state_after_start (s : cstring) :
  state_after AtStart s = AtStart -> squeeze AtStart s = [].
Proof.
  induction s as [|c s IH]; simpl; [reflexivity|].
  destruct (isalnum c); [|exact IH].
  intros H. exfalso.
  apply (state_after_not_start s InWord); [discriminate|exact H].
Qed.

Lemma squeeze_gap_start (s : cstring) :
  squeeze InGap s = match squeeze AtStart s with
                    | [] => []
                    | w => " "%char :: w
                    end.
Proof.
  induction s as [|c s IH]; simpl; [reflexivity|].
  destruct (isalnum c); [reflexivity|exact IH].
Qed.

Lemma strcmp_app_cons (a : cstring) (x : ascii) (b : cstring) :
  strcmp (a ++ x :: b) a = Z.of_N (code x).
Proof.
  induction a as [|y a IH]; simpl; [reflexivity|].
  now rewrite Ascii.eqb_refl.
Qed.

(** A tail with an alphanumeric character is not white, however
    much of what precedes it is kept. *)
Lemma whiteonly_skipn_tail (X b : cstring) :
  whiteonly b = false ->
  forall m, m <= List.length X -> whiteonly (skipn m (X ++ b)) = false.
Proof.
  intros Hb. induction X as [|x X IH]; intros m Hm; simpl in *.
  - assert (m = 0) by lia. subst m. exact Hb.
  - destruct m as [|m]; simpl.
    + destruct (isalnum x); [reflexivity|].
      apply (IH 0). lia.
    + apply IH. lia.
Qed.

(** [detect_prio] in terms of the normalized name of the entry. *)
Lemma detect_prio_eq (p : cstring) (j : Z) (name : cstring) :
  detect_prio p j name =
  let c := normalize name in
  if (strcmp c p =? 0)%Z then SLAVE_PRIORITY_MATCH_ALL
  else match strstr c p with
       | Some k =>
           if whiteonly (skipn (k + List.length p) c)
           then SLAVE_PRIORITY_MATCH_RIGHT
           else SLAVE_PRIORITY_MATCH_LEFT
       | None =>
           if (j =? -1)%Z then SLAVE_PRIORITY_MATCH_NONE
           else SLAVE_PRIORITY_NONE
       end.
Proof. reflexivity. Qed.

(** The normalized name of the file [N.e]. *)
Lemma normalize_file_name (N e : cstring) :
  nodot e = true -> normalize (file_name N e) = squeeze AtStart N.
Proof.
  intros He. unfold normalize, strcpy_strip_ext, file_name.
  rewrite (strrchr_app N e "."%char He).
  rewrite firstn_app, Nat.sub_diag, firstn_all. simpl.
  rewrite app_nil_r, strcpy_trim_map_tolower.
  apply strcpy_trim_squeeze.
Qed.

(** An exact name with no occurrence found to the left of a tail with
    an alphanumeric character scores MatchLeft. *)
Lemma detect_prio_left (p : cstring) (j : Z) (name a b : cstring) :
  normalize name = a ++ p ++ b ->
  (strcmp (a ++ p ++ b) p =? 0)%Z = false ->
  (forall m, m <= List.length a + List.length p ->
             whiteonly (skipn m (a ++ p ++ b)) = false) ->
  detect_prio p j name = SLAVE_PRIORITY_MATCH_LEFT.
Proof.
  intros Hn Hc Hw. rewrite detect_prio_eq. cbv zeta. rewrite Hn, Hc.
  destruct (strstr_first a p b) as [k [Hk Hle]].
  rewrite Hk, Hw by lia. reflexivity.
Qed.

Lemma squeeze_2009 (st : trim_state) :
  st <> AtStart -> squeeze st (cs " (2009)") = cs " 2009".
Proof. destruct st; intros H; [now elim H|reflexivity|reflexivity]. Qed.

Lemma squeeze_cd2 (st : trim_state) :
  st <> AtStart -> squeeze st (cs " - CD2") = cs " cd2".
Proof. destruct st; intros H; [now elim H|reflexivity|reflexivity]. Qed.

(** The entry "N (2009).ce" against the movie "N.pe". *)
Lemma decorated_name_left (N pe ce : cstring) (j : Z) :
  nodot pe = true -> nodot ce = true ->
  detect_prio (normalize (file_name N pe)) j
              (file_name (N ++ cs " (2009)") ce)
  = SLAVE_PRIORITY_MATCH_LEFT.
Proof.
  intros Hpe Hce. rewrite (normalize_file_name N pe Hpe).
  pose proof (normalize_file_name (N ++ cs " (2009)") ce Hce) as Hn.
  rewrite squeeze_app in Hn.
  destruct (state_after AtStart N) eqn:Est.
  - rewrite (state_after_start N Est) in *.
    apply (detect_prio_left [] j _ [] (cs "2009")); [exact Hn|reflexivity|].
    intros m Hm. assert (m = 0) by (simpl in Hm; lia). now subst m.
  - rewrite squeeze_2009 in Hn by discriminate.
    apply (detect_prio_left _ j _ [] (cs " 2009")); [exact Hn| |].
    + simpl app. now rewrite strcmp_app_cons.
    + intros m Hm. simpl app.
      apply whiteonly_skipn_tail; [reflexivity|exact Hm].
  - rewrite squeeze_2009 in Hn by discriminate.
    apply (detect_prio_left _ j _ [] (cs " 2009")); [exact Hn| |].
    + simpl app. now rewrite strcmp_app_cons.
    + intros m Hm. simpl app.
      apply whiteonly_skipn_tail; [reflexivity|exact Hm].
Qed.

(** The entry "Part1 - N - CD2.ce" against the movie "N.pe". *)
Lemma embedded_name_left (N pe ce : cstring) (j : Z) :
  nodot pe = true -> nodot ce = true ->
  detect_prio (normalize (file_name N pe)) j
              (file_name (cs "Part1 - " ++ N ++ cs " - CD2") ce)
  = SLAVE_PRIORITY_MATCH_LEFT.
Proof.
  intros Hpe Hce. rewrite (normalize_file_name N pe Hpe).
  pose proof (normalize_file_name (cs "Part1 - " ++ N ++ cs " - CD2")
                                  ce Hce) as Hn.
  rewrite !squeeze_app in Hn.
  change (squeeze AtStart (cs "Part1 - ")) with (cs "part1") in Hn.
  change (state_after AtStart (cs "Part1 - ")) with InGap in Hn.
  rewrite squeeze_cd2 in Hn
    by (apply state_after_not_start; discriminate).
  rewrite squeeze_gap_start in Hn.
  pose proof (squeeze_no_nul N AtStart) as Hnul.
  destruct (squeeze AtStart N) as [|c t] eqn:Ep.
  - apply (detect_prio_left [] j _ [] (cs "part1 cd2"));
      [exact Hn|reflexivity|].
    intros m Hm. assert (m = 0) by (simpl in Hm; lia). now subst m.
  - apply (detect_prio_left _ j _ (cs "part1 ") (cs " cd2"));
      [exact Hn| |].
    + destruct (strcmp (cs "part1 " ++ (c :: t) ++ cs " cd2") (c :: t)
                =? 0)%Z eqn:E; [|reflexivity].
      apply strcmp_zero_iff in E; [|  |exact Hnul].
      * apply (f_equal (@List.length ascii)) in E.
        rewrite !length_app in E. simpl in E. lia.
      * unfold no_nul in *. rewrite !forallb_app, Hnul.
        reflexivity.
    + intros m Hm. rewrite app_assoc.
      apply whiteonly_skipn_tail; [reflexivity|].
      now rewrite length_app.
Qed.

(** The rule of [subtitles_Detect] when the movie name is found in the
    name of the entry. *)
Lemma detect_prio_found (f name a b : cstring) (j : Z) :
  normalize name <> normalize f ->
  normalize name = a ++ normalize f ++ b ->
  (forall a' b', normalize name = a' ++ normalize f ++ b' ->
                 List.length a <= List.length a') ->
  detect_prio (normalize f) j name =
  if whiteonly b then SLAVE_PRIORITY_MATCH_RIGHT
  else SLAVE_PRIORITY_MATCH_LEFT.
Proof.
  intros Hne Hn Hmin. rewrite detect_prio_eq. cbv zeta.
  destruct (strcmp (normalize name) (normalize f) =? 0)%Z eqn:E.
  - apply strcmp_zero_iff in E; [now elim Hne| |];
      apply strcpy_trim_no_nul.
  - rewrite Hn in Hmin |- *.
    destruct (strstr_at a (normalize f) b Hmin) as [-> ->].
    reflexivity.
Qed.

End ScorerFacts.

Module SlaveScoreFacts.

Import Directory Props CLibFacts SearchFacts.

Lemma tolower_keeps_not_nul (c : ascii) :
  Ascii.eqb c zero = false -> Ascii.eqb (tolower c) zero = false.
Proof. all_chars c. Qed.

Lemma no_nul_firstn (k : nat) (s : cstring) :
  no_nul s = true -> no_nul (firstn k s) = true.
Proof.
  intros H. rewrite <- (firstn_skipn k s) in H.
  unfold no_nul in *. rewrite forallb_app in H.
  now apply andb_prop in H as [H _].
Qed.

Lemma no_nul_skipn (k : nat) (s : cstring) :
  no_nul s = true -> no_nul (skipn k s) = true.
Proof.
  intros H. rewrite <- (firstn_skipn k s) in H.
  unfold no_nul in *. rewrite forallb_app in H.
  now apply andb_prop in H as [_ H].
Qed.

Lemma no_nul_skip_spaces (s : cstring) :
  no_nul s = true -> no_nul (skip_spaces s) = true.
Proof.
  induction s as [|c s IH]; simpl; [reflexivity|].
  intros H. destruct (Ascii.eqb c " "%char); [|exact H].
  apply andb_prop in H as [_ H]. now apply IH.
Qed.

Lemma no_nul_rev (s : cstring) :
  no_nul s = true -> no_nul (rev s) = true.
Proof.
  unfold no_nul. rewrite !forallb_forall. intros H x Hx.
  apply H. now apply in_rev.
Qed.

Lemma no_nul_map_tolower (s : cstring) :
  no_nul s = true -> no_nul (map tolower s) = true.
Proof.
  induction s as [|c s IH]; simpl; [reflexivity|].
  intros H. apply andb_prop in H as [Hc Hs].
  rewrite (IH Hs), tolower_keeps_not_nul; [reflexivity|].
  now destruct (Ascii.eqb c zero).
Qed.

Lemma name_from_uri_no_nul (uri : cstring) :
  no_nul uri = true -> no_nul (name_from_uri uri) = true.
Proof.
  intros H. unfold name_from_uri.
  apply no_nul_map_tolower, no_nul_rev, no_nul_skip_spaces, no_nul_rev,
        no_nul_skip_spaces.
  assert (H1 : no_nul (match strrchr uri "/"%char with
                       | Some k => skipn (S k) uri
                       | None => uri
                       end) = true).
  { destruct (strrchr uri "/"%char); [now apply no_nul_skipn|exact H]. }
  destruct (strrchr _ "."%char); [now apply no_nul_firstn|exact H1].
Qed.

(** The rule of [calculate_slave_priority] when the item name is found
    in the slave name. *)
Lemma slave_score_found (item slave a b : cstring) :
  no_nul item = true -> no_nul slave = true ->
  slave <> item ->
  slave = a ++ item ++ b ->
  (forall a' b', slave = a' ++ item ++ b' ->
                 List.length a <= List.length a') ->
  slave_score item slave =
  match b with
  | [] => SLAVE_PRIORITY_MATCH_RIGHT
  | _ :: _ => SLAVE_PRIORITY_MATCH_LEFT
  end.
Proof.
  intros Hi Hs Hne E Hmin. unfold slave_score, strlen.
  destruct (strcmp item slave =? 0)%Z eqn:Ec.
  - apply strcmp_zero_iff in Ec; auto. now elim Hne.
  - rewrite E in Hmin |- *.
    destruct (strstr_at a item b Hmin) as [-> ->].
    now destruct b.
Qed.

(** The scores against an empty item name. *)
Lemma slave_score_empty (slave : cstring) :
  no_nul slave = true ->
  slave_score [] slave =
  match slave with
  | [] => SLAVE_PRIORITY_MATCH_ALL
  | _ :: _ => SLAVE_PRIORITY_MATCH_LEFT
  end.
Proof.
  intros Hs. destruct slave as [|c t]; [reflexivity|].
  unfold slave_score.
  destruct (strcmp [] (c :: t) =? 0)%Z eqn:Ec.
  - apply strcmp_zero_iff in Ec; auto. discriminate.
  - reflexivity.
Qed.

(** The item name found before a non-empty rest scores MatchLeft. *)
Lemma slave_score_left (item slave a b : cstring) :
  no_nul item = true -> no_nul slave = true ->
  slave = a ++ item ++ b -> b <> [] ->
  slave_score item slave = SLAVE_PRIORITY_MATCH_LEFT.
Proof.
  intros Hi Hs E Hb. unfold slave_score, strlen.
  destruct (strcmp item slave =? 0)%Z eqn:Ec.
  - apply strcmp_zero_iff in Ec; auto. exfalso.
    rewrite Ec in E at 1. apply (f_equal (@List.length ascii)) in E.
    rewrite !length_app in E. destruct b; [now apply Hb|simpl in E; lia].
  - subst slave. destruct (strstr_first a item b) as [k [-> Hle]].
    destruct (skipn _ _) eqn:Ek; [|reflexivity].
    apply (f_equal (@List.length ascii)) in Ek.
    rewrite length_skipn, !length_app in Ek.
    destruct b; [now elim Hb|simpl in Ek; lia].
Qed.

Lemma skip_spaces_app (s t : cstring) :
  skip_spaces (s ++ t) = match skip_spaces s with
                         | [] => skip_spaces t
                         | _ :: _ => skip_spaces s ++ t
                         end.
Proof.
  induction s as [|c s IH]; simpl; [now destruct (skip_spaces t)|].
  destruct (Ascii.eqb c " "%char); [exact IH|reflexivity].
Qed.

Lemma skip_spaces_suffix (s : cstring) :
  exists sp, s = sp ++ skip_spaces s.
Proof.
  induction s as [|c s [sp IH]]; simpl; [now exists []|].
  destruct (Ascii.eqb c " "%char); [|now exists []].
  exists (c :: sp). simpl. now f_equal.
Qed.

(** Removing the trailing spaces leaves an initial segment. *)
Lemma rstrip_prefix (s : cstring) :
  exists sp, s = rev (skip_spaces (rev s)) ++ sp.
Proof.
  destruct (skip_spaces_suffix (rev s)) as [q Hq].
  exists (rev q). rewrite <- rev_app_distr, <- Hq. now rewrite rev_involutive.
Qed.

(** Nothing is removed behind a character that is not a space. *)
Lemma rstrip_nonspace (s : cstring) (z : ascii) :
  Ascii.eqb z " "%char = false ->
  rev (skip_spaces (rev (s ++ [z]))) = s ++ [z].
Proof.
  intros Hz. rewrite rev_app_distr. simpl. rewrite Hz. simpl.
  now rewrite rev_involutive.
Qed.

Lemma rstrip_app_nonspace (s t : cstring) (z : ascii) :
  Ascii.eqb z " "%char = false ->
  rev (skip_spaces (rev (s ++ t ++ [z]))) = s ++ t ++ [z].
Proof. intros Hz. rewrite app_assoc. now apply rstrip_nonspace. Qed.

Lemma skipn_app_cons (d : cstring) (c : ascii) (rest : cstring) :
  skipn (S (List.length d)) (d ++ c :: rest) = rest.
Proof. induction d as [|x d IH]; simpl; [reflexivity|exact IH]. Qed.

(** The name of the file [N.e] of a directory. *)
Lemma name_from_uri_of (dir N e : cstring) :
  noslash N = true -> noslash e = true -> nodot e = true ->
  name_from_uri (uri_of dir N e)
  = map tolower (rev (skip_spaces (rev (skip_spaces N)))).
Proof.
  intros HN He Hd. unfold name_from_uri, uri_of.
  rewrite (strrchr_app dir (file_name N e) "/"%char).
  - rewrite skipn_app_cons. unfold file_name.
    rewrite (strrchr_app N e "."%char Hd).
    now rewrite firstn_app, Nat.sub_diag, firstn_all, app_nil_r.
  - unfold file_name, noslash in *. rewrite forallb_app. simpl.
    now rewrite HN, He.
Qed.

Lemma uri_of_no_nul (dir N e : cstring) :
  no_nul dir = true -> no_nul N = true -> no_nul e = true ->
  no_nul (uri_of dir N e) = true.
Proof.
  intros Hd HN He. unfold uri_of, file_name, no_nul in *.
  rewrite forallb_app. simpl. rewrite forallb_app. simpl.
  now rewrite Hd, HN, He.
Qed.

Lemma base_ok_app (N t : cstring) :
  base_ok N = true -> base_ok t = true -> base_ok (N ++ t) = true.
Proof.
  unfold base_ok, no_nul, noslash. rewrite !forallb_app.
  intros H1 H2.
  apply andb_prop in H1 as [-> ->]. now apply andb_prop in H2 as [-> ->].
Qed.

(** The names of the item [N.pe] and of a slave [M.ce]. *)
Lemma names_of (dir N M pe ce : cstring) :
  no_nul dir = true -> base_ok N = true -> base_ok M = true ->
  ext_ok pe = true -> ext_ok ce = true ->
  let item := name_from_uri (uri_of dir N pe) in
  let slave := name_from_uri (uri_of dir M ce) in
  item = map tolower (rev (skip_spaces (rev (skip_spaces N))))
  /\ slave = map tolower (rev (skip_spaces (rev (skip_spaces M))))
  /\ no_nul item = true /\ no_nul slave = true.
Proof.
  intros Hd HN HM Hpe Hce. unfold base_ok, ext_ok in *.
  apply andb_prop in HN as [HN1 HN2]. apply andb_prop in HM as [HM1 HM2].
  apply andb_prop in Hpe as [Hpe Hpe3].
  apply andb_prop in Hpe as [Hpe1 Hpe2].
  apply andb_prop in Hce as [Hce Hce3].
  apply andb_prop in Hce as [Hce1 Hce2].
  cbv zeta. repeat split.
  - now apply name_from_uri_of.
  - now apply name_from_uri_of.
  - now apply name_from_uri_no_nul, uri_of_no_nul.
  - now apply name_from_uri_no_nul, uri_of_no_nul.
Qed.

(** The slave "N (2009).ce" against the item "N.pe". *)
Lemma slave_decorated_left (dir N pe ce : cstring) :
  no_nul dir = true -> base_ok N = true ->
  ext_ok pe = true -> ext_ok ce = true ->
  slave_score (name_from_uri (uri_of dir N pe))
              (name_from_uri (uri_of dir (N ++ cs " (2009)") ce))
  = SLAVE_PRIORITY_MATCH_LEFT.
Proof.
  intros Hd HN Hpe Hce.
  assert (HM : base_ok (N ++ cs " (2009)") = true)
    by (apply base_ok_app; [exact HN|reflexivity]).
  destruct (names_of dir N (N ++ cs " (2009)") pe ce Hd HN HM Hpe Hce)
    as (Ei & Es & Hi & Hs).
  rewrite skip_spaces_app in Es.
  destruct (skip_spaces N) as [|c r] eqn:EL.
  - rewrite Ei, Es. reflexivity.
  - pose proof (rstrip_app_nonspace (c :: r) (cs " (2009") ")"%char
                                      eq_refl) as Hr.
    change (cs " (2009" ++ [")"%char]) with (cs " (2009)") in Hr.
    rewrite Hr in Es. clear Hr.
    destruct (rstrip_prefix (c :: r)) as [sp Hsp].
    rewrite Hsp, <- !app_assoc, map_app, <- Ei in Es.
    apply (slave_score_left _ _ [] _ Hi Hs Es).
    rewrite !map_app. simpl. intros H. apply app_eq_nil in H as [_ H].
    discriminate.
Qed.

(** The slave "Part1 - N - CD2.ce" against the item "N.pe". *)
Lemma slave_embedded_left (dir N pe ce : cstring) :
  no_nul dir = true -> base_ok N = true ->
  ext_ok pe = true -> ext_ok ce = true ->
  slave_score (name_from_uri (uri_of dir N pe))
              (name_from_uri
                 (uri_of dir (cs "Part1 - " ++ N ++ cs " - CD2") ce))
  = SLAVE_PRIORITY_MATCH_LEFT.
Proof.
  intros Hd HN Hpe Hce.
  assert (HM : base_ok (cs "Part1 - " ++ N ++ cs " - CD2") = true)
    by (repeat apply base_ok_app; solve [exact HN|reflexivity]).
  destruct (names_of dir N (cs "Part1 - " ++ N ++ cs " - CD2") pe ce
                     Hd HN HM Hpe Hce)
    as (Ei & Es & Hi & Hs).
  change (skip_spaces (cs "Part1 - " ++ N ++ cs " - CD2"))
    with (cs "Part1 - " ++ N ++ cs " - CD2") in Es.
  pose proof (rstrip_app_nonspace (cs "Part1 - " ++ N) (cs " - CD")
                                  "2"%char eq_refl) as Hr.
  change (cs " - CD" ++ ["2"%char]) with (cs " - CD2") in Hr.
  rewrite <- app_assoc in Hr. rewrite Hr in Es. clear Hr.
  destruct (skip_spaces_suffix N) as [sp1 H1].
  destruct (rstrip_prefix (skip_spaces N)) as [sp2 H2].
  rewrite H2 in H1.
  set (slave := name_from_uri (uri_of dir _ ce)) in *.
  rewrite H1 in Es.
  rewrite !map_app, <- Ei, <- !app_assoc in Es.
  rewrite (app_assoc (map tolower (cs "Part1 - "))) in Es.
  apply (slave_score_left _ _ _ _ Hi Hs Es).
  intros H. apply app_eq_nil in H as [_ H]. discriminate.
Qed.

End SlaveScoreFacts.

Module Scoring.

Import Subtitles Directory Props.
Import CLibFacts SearchFacts NormalizerFacts ScorerFacts SlaveScoreFacts.

(** The priority stored by [calculate_slave_priority] is the score of
    the two names: it fits the [uint8_t] field. *)
Lemma calculate_slave_priority_score (p_item : input_item_t)
      (p_slave : input_item_slave) :
  slave_priority (calculate_slave_priority p_item p_slave)
  = slave_score (name_from_uri (psz_uri p_item))
                (name_from_uri (slave_uri p_slave)).
Proof.
  unfold calculate_slave_priority, with_priority, slave_score. simpl.
  destruct (strcmp _ _ =? 0)%Z; [reflexivity|].
  destruct (strstr _ _); [|reflexivity].
  destruct (Nat.eqb _ 0); reflexivity.
Qed.

(** The first character of a normalized name is alphanumeric. *)
Lemma normalize_head (name : cstring) (x : ascii) (r : cstring) :
  normalize name = x :: r ->
  isalnum x = true /\ Ascii.eqb x zero = false.
Proof.
  intros E.
  pose proof (normalized_strcpy_trim (strcpy_strip_ext name)) as Hn.
  pose proof (strcpy_trim_no_nul (strcpy_strip_ext name)) as Hz.
  unfold normalize in E. rewrite E in Hn, Hz. simpl in Hn, Hz.
  apply andb_prop in Hz as [Hz _].
  split; [|now destruct (Ascii.eqb x zero)].
  destruct (Ascii.eqb x " "%char); [discriminate|].
  apply andb_prop in Hn as [Hx _]. now apply lower_alnum_isalnum.
Qed.

(** The scores of [subtitles_Detect] against an empty movie name. *)
Lemma detect_prio_empty (j : Z) (name : cstring) :
  detect_prio [] j name =
  match normalize name with
  | [] => SLAVE_PRIORITY_MATCH_ALL
  | _ :: _ => SLAVE_PRIORITY_MATCH_LEFT
  end.
Proof.
  rewrite detect_prio_eq. cbv zeta.
  destruct (normalize name) as [|x r] eqn:E; [reflexivity|].
  destruct (normalize_head name x r E) as [Ha Hz].
  simpl. apply Ascii.eqb_neq in Hz.
  pose proof (code_nonzero_of_neq x Hz) as Hc.
  destruct (Z.of_N (code x) =? 0)%Z eqn:Ez; [apply Z.eqb_eq in Ez; lia|].
  now rewrite Ha.
Qed.

(** The scores of some entries beside the movie "movie.mkv": the name
    alone, the name at the end, the name followed by text, and a name
    that does not hold it. *)
Example detect_prio_samples :
  let movie := normalize (cs "movie.mkv") in
  detect_prio movie (-1) (cs "movie.srt") = SLAVE_PRIORITY_MATCH_ALL
  /\ detect_prio movie (-1) (cs "Movie--.SRT") = SLAVE_PRIORITY_MATCH_ALL
  /\ detect_prio movie (-1) (cs "en movie.srt") = SLAVE_PRIORITY_MATCH_RIGHT
  /\ detect_prio movie (-1) (cs "movie.en.srt") = SLAVE_PRIORITY_MATCH_LEFT
  /\ detect_prio movie (-1) (cs "other.srt") = SLAVE_PRIORITY_MATCH_NONE
  /\ detect_prio movie 0 (cs "other.srt") = SLAVE_PRIORITY_NONE.
Proof. repeat split; vm_compute; reflexivity. Qed.

(** C1, as amended.  Against the movie "N.pe", the entry "N (2009).ce"
    scores MatchLeft, not MatchRight, since the digits that follow the
    name are alphanumeric, and the entry "Part1 - N - CD2.ce" scores
    MatchLeft, in [subtitles_Detect] and in [calculate_slave_priority]
    alike.  When the normalized movie name differs from the normalized
    name of the entry and occurs in it, [subtitles_Detect] scores
    MatchRight exactly when the tail behind the first occurrence has no
    alphanumeric character, and MatchLeft otherwise;
    [calculate_slave_priority], on its own names, scores MatchRight
    exactly when that tail is empty, and MatchLeft otherwise. *)
Theorem decoration_scores :
  forall (dir N pe ce : cstring) (j : Z) (t : slave_type),
    no_nul dir = true -> base_ok N = true ->
    ext_ok pe = true -> ext_ok ce = true ->
    let movie := normalize (file_name N pe) in
    let item := entry_of dir N pe in
    let slave M :=
      input_item_slave_New (uri_of dir M ce) t SLAVE_PRIORITY_NONE in
    detect_prio movie j (file_name (N ++ cs " (2009)") ce)
    = SLAVE_PRIORITY_MATCH_LEFT
    /\ detect_prio movie j (file_name (cs "Part1 - " ++ N ++ cs " - CD2") ce)
       = SLAVE_PRIORITY_MATCH_LEFT
    /\ slave_priority
         (calculate_slave_priority item (slave (N ++ cs " (2009)")))
       = SLAVE_PRIORITY_MATCH_LEFT
    /\ slave_priority
         (calculate_slave_priority
            item (slave (cs "Part1 - " ++ N ++ cs " - CD2")))
       = SLAVE_PRIORITY_MATCH_LEFT
    /\ (forall (f name a b : cstring),
           normalize name <> normalize f ->
           normalize name = a ++ normalize f ++ b ->
           (forall a' b', normalize name = a' ++ normalize f ++ b' ->
                          List.length a <= List.length a') ->
           detect_prio (normalize f) j name =
           if whiteonly b then SLAVE_PRIORITY_MATCH_RIGHT
           else SLAVE_PRIORITY_MATCH_LEFT)
    /\ (forall (p_item : input_item_t) (p_slave : input_item_slave)
               (a b : cstring),
           no_nul (psz_uri p_item) = true ->
           no_nul (slave_uri p_slave) = true ->
           name_from_uri (slave_uri p_slave)
           <> name_from_uri (psz_uri p_item) ->
           name_from_uri (slave_uri p_slave)
           = a ++ name_from_uri (psz_uri p_item) ++ b ->
           (forall a' b',
               name_from_uri (slave_uri p_slave)
               = a' ++ name_from_uri (psz_uri p_item) ++ b' ->
               List.length a <= List.length a') ->
           slave_priority (calculate_slave_priority p_item p_slave) =
           match b with
           | [] => SLAVE_PRIORITY_MATCH_RIGHT
           | _ :: _ => SLAVE_PRIORITY_MATCH_LEFT
           end).
Proof.
  intros dir N pe ce j t Hd HN Hpe Hce movie item slave.
  assert (Hpd : nodot pe = true)
    by (unfold ext_ok in Hpe; now apply andb_prop in Hpe as [_ ?]).
  assert (Hcd : nodot ce = true)
    by (unfold ext_ok in Hce; now apply andb_prop in Hce as [_ ?]).
  split; [now apply decorated_name_left|].
  split; [now apply embedded_name_left|].
  split.
  { rewrite calculate_slave_priority_score.
    unfold item, slave, entry_of, input_item_slave_New.
    cbn [psz_uri slave_uri]. now apply slave_decorated_left. }
  split.
  { rewrite calculate_slave_priority_score.
    unfold item, slave, entry_of, input_item_slave_New.
    cbn [psz_uri slave_uri]. now apply slave_embedded_left. }
  split.
  - intros f name a b. apply detect_prio_found.
  - intros p_item p_slave a b Hi Hs Hne E Hmin.
    rewrite calculate_slave_priority_score.
    apply (slave_score_found _ _ a b); auto using name_from_uri_no_nul.
Qed.

(** The theorem at the movie "/d/movie.mkv". *)
Lemma decoration_scores_witness :
  detect_prio (normalize (cs "movie.mkv")) (-1) (cs "movie (2009).srt")
  = SLAVE_PRIORITY_MATCH_LEFT.
Proof.
  exact (proj1 (decoration_scores (cs "/d") (cs "movie") (cs "mkv")
                                  (cs "srt") (-1) SLAVE_TYPE_SPU
                                  eq_refl eq_refl eq_refl eq_refl)).
Defined.

(** C1 as stated fails at the movie "movie.mkv": the entry
    "movie (2009).srt" is not scored MatchRight by either scorer. *)
Lemma decoration_counterexample :
  detect_prio (normalize (cs "movie.mkv")) (-1) (cs "movie (2009).srt")
  <> SLAVE_PRIORITY_MATCH_RIGHT
  /\ slave_priority
       (calculate_slave_priority
          (entry_of (cs "/d") (cs "movie") (cs "mkv"))
          (input_item_slave_New (cs "/d/movie (2009).srt") SLAVE_TYPE_SPU
                                SLAVE_PRIORITY_NONE))
     <> SLAVE_PRIORITY_MATCH_RIGHT.
Proof. split; vm_compute; discriminate. Qed.

(** C2, as amended.  When the name of the movie normalizes to the
    empty string, an entry whose name normalizes to the empty string
    scores MatchAll and every other entry scores MatchLeft, in
    [subtitles_Detect] and in [calculate_slave_priority] alike: no
    entry falls through to the branches of a name that is not found. *)
Theorem empty_movie_name_scores :
  forall (f name : cstring) (j : Z)
         (p_item : input_item_t) (p_slave : input_item_slave),
    normalize f = [] ->
    name_from_uri (psz_uri p_item) = [] ->
    no_nul (slave_uri p_slave) = true ->
    detect_prio (normalize f) j name =
    match normalize name with
    | [] => SLAVE_PRIORITY_MATCH_ALL
    | _ :: _ => SLAVE_PRIORITY_MATCH_LEFT
    end
    /\ slave_priority (calculate_slave_priority p_item p_slave) =
       match name_from_uri (slave_uri p_slave) with
       | [] => SLAVE_PRIORITY_MATCH_ALL
       | _ :: _ => SLAVE_PRIORITY_MATCH_LEFT
       end.
Proof.
  intros f name j p_item p_slave Hf Hi Hs. split.
  - rewrite Hf. apply detect_prio_empty.
  - rewrite calculate_slave_priority_score, Hi.
    apply slave_score_empty. now apply name_from_uri_no_nul.
Qed.

(** The theorem at the movie "---.mkv" and the entry "a.srt". *)
Lemma empty_movie_name_scores_witness :
  detect_prio (normalize (cs "---.mkv")) (-1) (cs "a.srt")
  = SLAVE_PRIORITY_MATCH_LEFT
  /\ slave_priority
       (calculate_slave_priority
          (entry_of (cs "/d") (cs " ") (cs "mkv"))
          (input_item_slave_New (cs "/d/a.srt") SLAVE_TYPE_SPU
                                SLAVE_PRIORITY_NONE))
     = SLAVE_PRIORITY_MATCH_LEFT.
Proof.
  exact (empty_movie_name_scores
           (cs "---.mkv") (cs "a.srt") (-1)
           (entry_of (cs "/d") (cs " ") (cs "mkv"))
           (input_item_slave_New (cs "/d/a.srt") SLAVE_TYPE_SPU
                                 SLAVE_PRIORITY_NONE)
           eq_refl eq_refl eq_refl).
Defined.

(** C2 as stated fails at the movie "---.mkv", whose name normalizes
    to the empty string: the entry "a.srt" is scored MatchLeft, in the
    directory of the movie and in any other, not MatchNone or None. *)
Lemma empty_movie_name_counterexample :
  normalize (cs "---.mkv") = []
  /\ normalize (cs "a.srt") <> []
  /\ detect_prio (normalize (cs "---.mkv")) (-1) (cs "a.srt")
     = SLAVE_PRIORITY_MATCH_LEFT
  /\ detect_prio (normalize (cs "---.mkv")) 0 (cs "a.srt")
     = SLAVE_PRIORITY_MATCH_LEFT
  /\ SLAVE_PRIORITY_MATCH_LEFT <> SLAVE_PRIORITY_MATCH_NONE
  /\ SLAVE_PRIORITY_MATCH_LEFT <> SLAVE_PRIORITY_NONE.
Proof. repeat split; vm_compute; discriminate. Qed.

End Scoring.

(* ================================================================== *)
(** ** The extension classifiers *)
(* ================================================================== *)

Module Classifier.

Import Subtitles Directory Props.

Import SearchFacts SlaveScoreFacts.

(** C3.  [is_slave] compares only the first [strlen (ext)] characters:
    a file "N.s", whose extension is a strict prefix of "sub", is
    classified as a subtitle whatever its base name, and so are
    "movie.a" (a prefix of "ass") and "movie.u".  [subtitles_Filter] and
    [has_ext], which compare the whole extension, reject it. *)
Theorem is_slave_accepts_prefix :
  (forall N : cstring,
      is_slave (file_name N (cs "s")) = Some SLAVE_TYPE_SPU
      /\ subtitles_Filter (file_name N (cs "s")) = false
      /\ has_ext (Some (cs "idx,sub,srt")) (file_name N (cs "s")) = false)
  /\ is_slave (cs "movie.s") = Some SLAVE_TYPE_SPU
  /\ is_slave (cs "movie.a") = Some SLAVE_TYPE_SPU
  /\ is_slave (cs "movie.u") = Some SLAVE_TYPE_SPU
  /\ subtitles_Filter (cs "movie.s") = false
  /\ is_slave (cs "movie.sub") = Some SLAVE_TYPE_SPU
  /\ subtitles_Filter (cs "movie.sub") = true.
Proof.
  split; [|repeat split; vm_compute; reflexivity].
  intros N. unfold is_slave, subtitles_Filter, has_ext, file_name.
  rewrite (strrchr_app N (cs "s") "."%char eq_refl), skipn_app_cons.
  repeat split; vm_compute; reflexivity.
Qed.

End Classifier.

(* ================================================================== *)
(** ** The conflict resolver *)
(* ================================================================== *)

Module Resolver.

Import Subtitles Props.

Lemma framed_refl (s : subtitle) : framed s s.
Proof. repeat split; auto. Qed.

Lemma framed_trans (s1 s2 s3 : subtitle) :
  framed s1 s2 -> framed s2 s3 -> framed s1 s3.
Proof.
  intros (P1 & Q1 & R1 & O1) (P2 & Q2 & R2 & O2).
  assert (E : other_ext s2 = other_ext s1)
    by (unfold other_ext; now rewrite P1).
  repeat split; try congruence; auto.
  intros H. rewrite O2, O1; auto. now rewrite E.
Qed.

Lemma Forall2_framed_refl (l : subtitle_list) : Forall2 framed l l.
Proof. induction l; constructor; auto using framed_refl. Qed.

Lemma Forall2_framed_trans (l1 l2 l3 : subtitle_list) :
  Forall2 framed l1 l2 -> Forall2 framed l2 l3 -> Forall2 framed l1 l3.
Proof.
  intros H. revert l3.
  induction H as [|s1 s2 l1 l2 Hs Hl IH]; intros l3 H23;
    inversion H23; subst; constructor; eauto using framed_trans.
Qed.

(** Setting the flag of entry [i] is within the frame when the resolver
    has a rule for that entry. *)
Lemma reject_at_framed (l : subtitle_list) :
  forall i p_sub,
    nth_error l i = Some p_sub -> other_ext p_sub = false ->
    Forall2 framed l (reject_at i l).
Proof.
  induction l as [|s l IH]; intros i p_sub Hn Ho;
    [destruct i; discriminate|].
  destruct i as [|i]; simpl in *.
  - injection Hn as ->. constructor; [|apply Forall2_framed_refl].
    repeat split; auto. congruence.
  - constructor; [apply framed_refl|]. eapply IH; eauto.
Qed.

Lemma resolve_one_framed (l : subtitle_list) (i : nat) (p_sub : subtitle) :
  nth_error l i = Some p_sub ->
  Forall2 framed l (fst (resolve_one l i p_sub)).
Proof.
  intros Hn. unfold resolve_one.
  destruct (psz_path p_sub) as [path|] eqn:Ep.
  - destruct (strrchr path "."%char) as [k|] eqn:Ek;
      [|apply Forall2_framed_refl].
    destruct (strcasecmp (skipn (S k) path) (cs "sub") =? 0)%Z eqn:Es.
    + destruct (pair_scan path 0 l); [|apply Forall2_framed_refl].
      apply (reject_at_framed l i p_sub Hn).
      unfold other_ext. now rewrite Ep, Ek, Es.
    + destruct (strcasecmp (skipn (S k) path) (cs "cdg") =? 0)%Z eqn:Ec;
        [|apply Forall2_framed_refl].
      destruct (i_priority p_sub <? SLAVE_PRIORITY_MATCH_ALL)%Z;
        [|apply Forall2_framed_refl].
      apply (reject_at_framed l i p_sub Hn).
      unfold other_ext. rewrite Ep, Ek, Es, Ec. reflexivity.
  - apply (reject_at_framed l i p_sub Hn).
    unfold other_ext. now rewrite Ep.
Qed.

Lemma resolve_from_framed (n : nat) :
  forall i l, Forall2 framed l (fst (resolve_from n i l)).
Proof.
  induction n as [|n IH]; intros i l; simpl; [apply Forall2_framed_refl|].
  destruct (nth_error l i) as [p_sub|] eqn:Hn; [|apply Forall2_framed_refl].
  pose proof (resolve_one_framed l i p_sub Hn) as H1.
  destruct (resolve_one l i p_sub) as [l' [|f]]; simpl in *; [|exact H1].
  exact (Forall2_framed_trans _ _ _ H1 (IH (S i) l')).
Qed.

Lemma Forall2_framed_map (l l' : subtitle_list) :
  Forall2 framed l l' ->
  map psz_path l' = map psz_path l
  /\ map i_priority l' = map i_priority l
  /\ List.length l' = List.length l.
Proof.
  induction 1 as [|s s' l l' (P & Q & _) _ (IH1 & IH2 & IH3)]; simpl;
    [auto|].
  repeat split; congruence.
Qed.

Lemma Forall2_framed_nth (l l' : subtitle_list) :
  Forall2 framed l l' ->
  forall i s s', nth_error l i = Some s -> nth_error l' i = Some s' ->
                 framed s s'.
Proof.
  induction 1 as [|a a' l l' Ha _ IH]; intros i s s' H1 H2;
    destruct i; simpl in *; try discriminate.
  - injection H1 as <-. injection H2 as <-. exact Ha.
  - eauto.
Qed.

Lemma Forall2_framed_nth_ex (l l' : subtitle_list) :
  Forall2 framed l l' ->
  forall i s, nth_error l i = Some s ->
              exists s', nth_error l' i = Some s' /\ framed s s'.
Proof.
  induction 1 as [|a a' l l' Ha _ IH]; intros i s H1;
    destruct i; simpl in *; try discriminate.
  - injection H1 as <-. eauto.
  - eauto.
Qed.

(** C10.  The conflict resolver only ever sets the rejected flag.
    Wherever the run ends, the list has the same length and every
    candidate has the path and the priority it had (the [subtitle]
    structure has no kind field); a flag that was set stays set; and the
    flag of a candidate whose path has no extension, or an extension
    that is neither "sub" nor "cdg", is the one it had. *)
Theorem resolver_frame :
  forall (p_result : subtitle_list),
    let after := fst (resolve_conflicts p_result) in
    List.length after = List.length p_result
    /\ map psz_path after = map psz_path p_result
    /\ map i_priority after = map i_priority p_result
    /\ (forall i s,
           nth_error p_result i = Some s ->
           exists s',
             nth_error after i = Some s'
             /\ psz_path s' = psz_path s
             /\ i_priority s' = i_priority s
             /\ (b_rejected s = true -> b_rejected s' = true)
             /\ (other_ext s = true -> b_rejected s' = b_rejected s)).
Proof.
  intros p_result after.
  assert (H : Forall2 framed p_result after)
    by apply resolve_from_framed.
  destruct (Forall2_framed_map _ _ H) as (P & Q & L).
  repeat split; auto.
  intros i s Hs.
  destruct (Forall2_framed_nth_ex _ _ H i s Hs) as (s' & Hs' & F).
  exists s'. split; [exact Hs'|exact F].
Qed.

(** The theorem at two candidates of priority MatchLeft, of which the
    resolver rejects "/d//song.cdg" and leaves "/d//movie.srt". *)
Lemma resolver_frame_witness :
  exists s',
    nth_error (fst (resolve_conflicts two_candidates)) 0 = Some s'
    /\ psz_path s' = psz_path (candidate "/d//movie.srt" 3)
    /\ i_priority s' = i_priority (candidate "/d//movie.srt" 3)
    /\ (b_rejected (candidate "/d//movie.srt" 3) = true ->
        b_rejected s' = true)
    /\ (other_ext (candidate "/d//movie.srt" 3) = true ->
        b_rejected s' = b_rejected (candidate "/d//movie.srt" 3)).
Proof.
  exact (proj2 (proj2 (proj2 (resolver_frame two_candidates)))
               0 (candidate "/d//movie.srt" 3) eq_refl).
Defined.

Lemma reject_at_nth (l : subtitle_list) :
  forall i s, nth_error l i = Some s ->
              nth_error (reject_at i l) i = Some (set_rejected s).
Proof.
  induction l as [|x l IH]; intros [|i] s H; simpl in *; try discriminate.
  - now injection H as ->.
  - now apply IH.
Qed.

(** A turn that completes on a ".sub" candidate has rejected it. *)
Lemma resolve_one_sub (l l' : subtitle_list) (i : nat) (s : subtitle) :
  nth_error l i = Some s -> has_extension "sub" s = true ->
  resolve_one l i s = (l', Completed) ->
  exists s', nth_error l' i = Some s' /\ b_rejected s' = true.
Proof.
  intros Hn Hs. unfold has_extension in Hs. unfold resolve_one.
  destruct (psz_path s) as [path|]; [|discriminate].
  destruct (strrchr path "."%char) as [k|]; [|discriminate].
  rewrite Hs.
  destruct (pair_scan path 0 l); [|discriminate].
  intros H. injection H as <-.
  exists (set_rejected s). split; [now apply reject_at_nth|reflexivity].
Qed.

(** When the resolver completes, every ".sub" candidate is rejected:
    the scan for its index was left by [break]. *)
Lemma resolve_from_sub (n : nat) :
  forall i l l',
    resolve_from n i l = (l', Completed) ->
    forall k s, i <= k < i + n -> nth_error l k = Some s ->
                has_extension "sub" s = true ->
                exists s', nth_error l' k = Some s' /\ b_rejected s' = true.
Proof.
  induction n as [|n IH]; intros i l l' H k s Hk Hs Hsub; [lia|].
  simpl in H.
  destruct (nth_error l i) as [p_sub|] eqn:Hi.
  - pose proof (resolve_one_framed l i p_sub Hi) as F1.
    destruct (resolve_one l i p_sub) as [l1 [|f]] eqn:E1; [|discriminate].
    simpl in F1.
    pose proof (resolve_from_framed n (S i) l1) as F2. rewrite H in F2.
    simpl in F2.
    destruct (Nat.eq_dec k i) as [->|Hne].
    + rewrite Hi in Hs. injection Hs as ->.
      destruct (resolve_one_sub l l1 i s Hi Hsub E1) as (s1 & Hs1 & R1).
      destruct (Forall2_framed_nth_ex _ _ F2 i s1 Hs1)
        as (s' & Hs' & _ & _ & R & _).
      exists s'. split; [exact Hs'|now apply R].
    + destruct (Forall2_framed_nth_ex _ _ F1 k s Hs)
        as (s1 & Hs1 & P & _).
      apply (IH (S i) l1 l' H k s1); [lia|exact Hs1|].
      unfold has_extension in *. now rewrite P.
  - exfalso. apply nth_error_None in Hi.
    assert (nth_error l k = None) by (apply nth_error_None; lia).
    congruence.
Qed.

(** An extension that reads "idx" reads neither "sub" nor "cdg". *)
Lemma idx_other_ext (s : subtitle) :
  has_extension "idx" s = true -> other_ext s = true.
Proof.
  unfold has_extension, other_ext.
  destruct (psz_path s) as [p|]; [|discriminate].
  destruct (strrchr p "."%char) as [k|]; [|reflexivity].
  destruct (skipn (S k) p) as [|c e]; [vm_compute; discriminate|].
  change (cs "idx") with ("i"%char :: cs "dx").
  change (cs "sub") with ("s"%char :: cs "ub").
  change (cs "cdg") with ("c"%char :: cs "dg").
  cbn [strcasecmp].
  change (tolower "i") with "i"%char. change (tolower "s") with "s"%char.
  change (tolower "c") with "c"%char.
  destruct (Ascii.eqb (tolower c) "i") eqn:E.
  - apply Ascii.eqb_eq in E. rewrite E. intros _. reflexivity.
  - apply Ascii.eqb_neq in E. intros H. apply Z.eqb_eq in H. exfalso.
    exact (CLibFacts.code_pos_neq _ _ E H).
Qed.

(** The pairing rule, for the runs that complete: every ".sub"
    candidate is rejected and every ".idx" candidate keeps its flag. *)
Lemma pairing_when_completed (p_result l' : subtitle_list) :
  resolve_conflicts p_result = (l', Completed) ->
  forall k s,
    nth_error p_result k = Some s ->
    exists s',
      nth_error l' k = Some s'
      /\ (has_extension "sub" s = true -> b_rejected s' = true)
      /\ (has_extension "idx" s = true -> b_rejected s' = b_rejected s).
Proof.
  intros H k s Hs.
  pose proof (resolve_from_framed (List.length p_result) 0 p_result) as F.
  unfold resolve_conflicts in H. rewrite H in F. simpl in F.
  destruct (Forall2_framed_nth_ex _ _ F k s Hs) as (s' & Hs' & _ & _ & _ & O).
  exists s'. split; [exact Hs'|]. split.
  - intros Hsub.
    assert (Hk : 0 <= k < 0 + List.length p_result)
      by (split; [lia|]; apply nth_error_Some; congruence).
    destruct (resolve_from_sub _ 0 p_result l' H k s Hk Hs Hsub)
      as (s2 & Hs2 & R).
    congruence.
  - intros Hidx. apply O. now apply idx_other_ext.
Qed.

(** C4.  With the movie "/d/movie.mkv" and the entries "other.sub",
    "movie.sub" and "movie.idx", the three files are collected, and the
    inner loop of the resolver, whose condition tests [i] instead of
    [j], runs past the end of the list while it looks for the index of
    "other.sub": the run stops there and "movie.sub" is not rejected.
    With the pair alone the loop is left by [break], "movie.sub" is
    rejected and "movie.idx" is kept. *)
Theorem pairing_reads_past_end :
  let run :=
    subtitles_Detect
      (config 1 false)
      (dir_host (cs "/d/") [cs "other.sub"; cs "movie.sub"; cs "movie.idx"])
      None (Some (cs "/d/movie.mkv")) subtitle_list_Init in
  map psz_path (dr_result run)
  = [Some (cs "/d//other.sub"); Some (cs "/d//movie.sub");
     Some (cs "/d//movie.idx")]
  /\ dr_fault run = Faulted (ReadPastEnd 3)
  /\ dr_status run = None
  /\ map b_rejected (dr_result run) = [false; false; false]
  /\ (let pair :=
        subtitles_Detect
          (config 1 false)
          (dir_host (cs "/d/") [cs "movie.sub"; cs "movie.idx"])
          None (Some (cs "/d/movie.mkv")) subtitle_list_Init in
      dr_fault pair = Completed
      /\ map psz_path (dr_result pair)
         = [Some (cs "/d//movie.sub"); Some (cs "/d//movie.idx")]
      /\ map b_rejected (dr_result pair) = [true; false]).
Proof. repeat split; vm_compute; reflexivity. Qed.

End Resolver.

(* ================================================================== *)
(** ** The candidate collectors *)
(* ================================================================== *)

Module Collector.

Import Subtitles Directory Props.

(** *** The scan of [subtitles_Detect] *)

Section DetectScan.

Variable h : host.
Variables psz_fname f_fname_trim f_dir : cstring.

(** The scan only appends to [p_result]. *)
Lemma detect_entry_grows (t : Z) (psz_dir : cstring) (j : Z)
      (st : scan_state) (name : cstring) :
  List.length (fst st)
  <= List.length
       (fst (detect_entry h t psz_fname f_fname_trim psz_dir j st name)).
Proof.
  unfold detect_entry. destruct st as [l io]. simpl.
  destruct (dot_first name || negb (subtitles_Filter name)); simpl; [lia|].
  destruct (detect_prio f_fname_trim j name >=? t)%Z; simpl; [|lia].
  destruct (strcmp _ psz_fname =? 0)%Z; simpl; [lia|].
  destruct (vlc_stat_isreg h _); simpl; [|lia].
  unfold subtitle_list_AppendItem. rewrite length_app. simpl. lia.
Qed.

Lemma detect_entries_grow (t : Z) (psz_dir : cstring) (j : Z)
      (names : list cstring) :
  forall st,
    List.length (fst st)
    <= List.length
         (fst (fold_left
                 (detect_entry h t psz_fname f_fname_trim psz_dir j)
                 names st)).
Proof.
  induction names as [|name names IH]; intros st; simpl; [lia|].
  etransitivity; [|apply IH]. apply detect_entry_grows.
Qed.

Lemma detect_dir_grows (t : Z) (j : Z) (psz_dir : cstring)
      (st : scan_state) :
  List.length (fst st)
  <= List.length
       (fst (detect_dir h t psz_fname f_fname_trim f_dir j psz_dir st)).
Proof.
  unfold detect_dir.
  destruct ((0 <=? j)%Z && (strcmp psz_dir f_dir =? 0)%Z); [lia|].
  destruct (vlc_opendir h psz_dir) as [names|]; simpl; [|lia].
  exact (detect_entries_grow t psz_dir j names (fst st, _)).
Qed.

Lemma detect_subdirs_grow (t : Z) (subdirs : list cstring) :
  forall j st,
    List.length (fst st)
    <= List.length
         (fst (detect_subdirs h t psz_fname f_fname_trim f_dir j subdirs st)).
Proof.
  induction subdirs as [|d ds IH]; intros j st; simpl; [lia|].
  etransitivity; [|apply IH]. apply detect_dir_grows.
Qed.

Variables t1 t2 : Z.
Hypothesis Hle : (t1 <= t2)%Z.

(** An entry kept at the higher threshold is kept at the lower one. *)
Lemma detect_entry_mono (psz_dir : cstring) (j : Z)
      (st1 st2 : scan_state) (name : cstring) :
  List.length (fst st2) <= List.length (fst st1) ->
  List.length
    (fst (detect_entry h t2 psz_fname f_fname_trim psz_dir j st2 name))
  <= List.length
       (fst (detect_entry h t1 psz_fname f_fname_trim psz_dir j st1 name)).
Proof.
  intros H. unfold detect_entry.
  destruct st1 as [l1 io1], st2 as [l2 io2]. simpl in *.
  destruct (dot_first name || negb (subtitles_Filter name)) eqn:Ed;
    simpl; [lia|].
  destruct (detect_prio f_fname_trim j name >=? t2)%Z eqn:E2.
  - assert (E1 : (detect_prio f_fname_trim j name >=? t1)%Z = true)
      by (apply Z.geb_le; apply Z.geb_le in E2; lia).
    rewrite E1.
    destruct (strcmp _ psz_fname =? 0)%Z; simpl; [lia|].
    destruct (vlc_stat_isreg h _); simpl; [|lia].
    unfold subtitle_list_AppendItem. rewrite !length_app. simpl. lia.
  - simpl.
    pose proof (detect_entry_grows t1 psz_dir j (l1, io1) name) as G.
    unfold detect_entry in G. simpl in G. rewrite Ed in G. simpl in G.
    lia.
Qed.

Lemma detect_entries_mono (psz_dir : cstring) (j : Z)
      (names : list cstring) :
  forall st1 st2,
    List.length (fst st2) <= List.length (fst st1) ->
    List.length
      (fst (fold_left (detect_entry h t2 psz_fname f_fname_trim psz_dir j)
                      names st2))
    <= List.length
         (fst (fold_left (detect_entry h t1 psz_fname f_fname_trim psz_dir j)
                         names st1)).
Proof.
  induction names as [|name names IH]; intros st1 st2 H; simpl; [exact H|].
  apply IH. now apply detect_entry_mono.
Qed.

Lemma detect_dir_mono (j : Z) (psz_dir : cstring) (st1 st2 : scan_state) :
  List.length (fst st2) <= List.length (fst st1) ->
  List.length
    (fst (detect_dir h t2 psz_fname f_fname_trim f_dir j psz_dir st2))
  <= List.length
       (fst (detect_dir h t1 psz_fname f_fname_trim f_dir j psz_dir st1)).
Proof.
  intros H. unfold detect_dir.
  destruct ((0 <=? j)%Z && (strcmp psz_dir f_dir =? 0)%Z); [exact H|].
  destruct (vlc_opendir h psz_dir) as [names|]; simpl; [|exact H].
  now apply detect_entries_mono.
Qed.

Lemma detect_subdirs_mono (subdirs : list cstring) :
  forall j st1 st2,
    List.length (fst st2) <= List.length (fst st1) ->
    List.length
      (fst (detect_subdirs h t2 psz_fname f_fname_trim f_dir j subdirs st2))
    <= List.length
         (fst (detect_subdirs h t1 psz_fname f_fname_trim f_dir j subdirs
                              st1)).
Proof.
  induction subdirs as [|d ds IH]; intros j st1 st2 H; simpl; [exact H|].
  apply IH. now apply detect_dir_mono.
Qed.

End DetectScan.

(** The collector keeps what it is given and appends to it. *)
Lemma detect_collect_grows (h : host) (t : Z) (psz_path : option cstring)
      (psz_fname f_fname f_dir : cstring) (p_result : subtitle_list) :
  List.length p_result
  <= List.length
       (fst (detect_collect h t psz_path psz_fname f_fname f_dir p_result)).
Proof.
  unfold detect_collect.
  pose proof (detect_dir_grows h psz_fname
                (strcpy_trim (strcpy_strip_ext f_fname)) f_dir t (-1) f_dir
                (p_result, [])) as G.
  simpl in G.
  destruct (paths_to_list (Some f_dir) psz_path) as [dirs|]; [|exact G].
  etransitivity; [exact G|]. apply detect_subdirs_grow.
Qed.

(** Raising the threshold never makes the collector return more. *)
Lemma detect_collect_mono (h : host) (t1 t2 : Z)
      (psz_path : option cstring) (psz_fname f_fname f_dir : cstring)
      (p_result : subtitle_list) :
  (t1 <= t2)%Z ->
  List.length
    (fst (detect_collect h t2 psz_path psz_fname f_fname f_dir p_result))
  <= List.length
       (fst (detect_collect h t1 psz_path psz_fname f_fname f_dir p_result)).
Proof.
  intros Hle. unfold detect_collect.
  assert (G : List.length
                (fst (detect_dir h t2 psz_fname
                        (strcpy_trim (strcpy_strip_ext f_fname)) f_dir (-1)
                        f_dir (p_result, [])))
              <= List.length
                   (fst (detect_dir h t1 psz_fname
                           (strcpy_trim (strcpy_strip_ext f_fname)) f_dir
                           (-1) f_dir (p_result, []))))
    by (apply detect_dir_mono; [exact Hle|simpl; lia]).
  destruct (paths_to_list (Some f_dir) psz_path) as [dirs|]; [|exact G].
  now apply detect_subdirs_mono.
Qed.

(** The resolver keeps the length of the list. *)
Lemma resolve_conflicts_length (l : subtitle_list) :
  List.length (fst (resolve_conflicts l)) = List.length l.
Proof.
  pose proof (Resolver.resolve_from_framed (List.length l) 0 l) as H.
  now apply Resolver.Forall2_framed_map in H.
Qed.

(** The length of the list [subtitles_Detect] leaves behind. *)
Lemma subtitles_Detect_length (p_this : vlc_vars) (h : host)
      (psz_path psz_name_org : option cstring) (p_result : subtitle_list) :
  List.length (dr_result (subtitles_Detect p_this h psz_path psz_name_org
                                           p_result))
  = if (to_int (sub_autodetect_fuzzy p_this) =? 0)%Z
    then List.length p_result
    else
      match psz_name_org with
      | None => List.length p_result
      | Some name_org =>
          match vlc_uri2path h name_org with
          | None => List.length p_result
          | Some psz_fname =>
              match strrchr psz_fname "/"%char with
              | None => List.length p_result
              | Some k =>
                  List.length
                    (fst (detect_collect h
                            (to_int (sub_autodetect_fuzzy p_this))
                            psz_path psz_fname (skipn (S k) psz_fname)
                            (firstn (S k) psz_fname) p_result))
              end
          end
      end.
Proof.
  unfold subtitles_Detect.
  destruct (to_int (sub_autodetect_fuzzy p_this) =? 0)%Z; [reflexivity|].
  destruct psz_name_org as [name_org|]; [|reflexivity].
  destruct (vlc_uri2path h name_org) as [psz_fname|]; [|reflexivity].
  destruct (strrchr psz_fname "/"%char) as [k|]; [|reflexivity].
  destruct (detect_collect _ _ _ _ _ _ _) as [collected io]. simpl.
  pose proof (resolve_conflicts_length collected) as L.
  destruct (resolve_conflicts collected) as [l [|f]]; simpl in *; exact L.
Qed.

(** *** The loops of [attach_slaves] *)

Lemma store_set_length (j : nat) (v : slot) (l : list slot) :
  List.length (store_set j v l) = List.length l.
Proof.
  revert j. induction l as [|x l IH]; intros [|j]; simpl; auto.
Qed.

Lemma store_set_covers (l1 l2 : list slot) :
  Forall2 slot_covers l1 l2 ->
  forall j v1 v2, slot_covers v1 v2 ->
                  Forall2 slot_covers (store_set j v1 l1) (store_set j v2 l2).
Proof.
  induction 1 as [|c1 c2 l1 l2 Hc Hl IH]; intros [|j] v1 v2 Hv; simpl;
    constructor; auto.
Qed.

Lemma covers_nth (l1 l2 : list slot) :
  Forall2 slot_covers l1 l2 ->
  forall j,
    match nth_error l2 j with
    | Some c2 => exists c1, nth_error l1 j = Some c1 /\ slot_covers c1 c2
    | None => nth_error l1 j = None
    end.
Proof.
  induction 1 as [|c1 c2 l1 l2 Hc Hl IH]; intros [|j]; simpl; eauto.
  apply IH.
Qed.

Lemma covers_refl (l : list slot) : Forall2 slot_covers l l.
Proof.
  induction l as [|c l IH]; constructor; auto.
  destruct c; simpl; auto.
Qed.

(** The score depends on the URI of the slave only. *)
Lemma score_same_uri (p_item : input_item_t) (s1 s2 : input_item_slave) :
  slave_uri s1 = slave_uri s2 ->
  slave_priority (calculate_slave_priority p_item s1)
  = slave_priority (calculate_slave_priority p_item s2).
Proof.
  intros E. unfold calculate_slave_priority, with_priority. simpl.
  now rewrite E.
Qed.

Section AttachRuns.

Variable p_item : input_item_t.
Variable i : nat.

(** Attachments are only ever added. *)
Lemma attach_one_grows (t : Z) (j : nat) (st : attach_state) :
  List.length (added st)
  <= List.length (added (fst (attach_one t p_item i j st))).
Proof.
  unfold attach_one.
  destruct (nth_error (pp_slaves st) j) as [[p_slave|]|]; simpl; try lia.
  destruct (_ >=? t)%Z; simpl; [rewrite length_app; simpl|]; lia.
Qed.

Lemma attach_item_grows (t : Z) (n : nat) :
  forall j st,
    List.length (added st)
    <= List.length (added (fst (attach_item t p_item i n j st))).
Proof.
  induction n as [|n IH]; intros j st; simpl; [lia|].
  pose proof (attach_one_grows t j st) as G.
  destruct (attach_one t p_item i j st) as [st' [|f]]; simpl in *; [|exact G].
  etransitivity; [exact G|apply IH].
Qed.

Variables t1 t2 : Z.
Hypothesis Hle : (t1 <= t2)%Z.

(** One turn of the two runs: the run at the higher threshold attaches
    no more, and where it goes on the other goes on ahead of it. *)
Lemma attach_one_mono (j : nat) (st1 st2 : attach_state) :
  covers st1 st2 ->
  let r1 := attach_one t1 p_item i j st1 in
  let r2 := attach_one t2 p_item i j st2 in
  List.length (added (fst r2)) <= List.length (added (fst r1))
  /\ (snd r2 = Completed ->
      snd r1 = Completed /\ covers (fst r1) (fst r2)).
Proof.
  intros [Hc Ha]. cbv zeta.
  pose proof (attach_one_grows t1 j st1) as G1.
  pose proof (covers_nth _ _ Hc j) as Hn.
  unfold attach_one in *.
  destruct (nth_error (pp_slaves st2) j) as [[s2|]|].
  - destruct Hn as (c1 & -> & Hs). destruct c1 as [s1|]; [|now elim Hs].
    simpl in Hs. rewrite (score_same_uri p_item s1 s2 Hs) in *.
    destruct (slave_priority (calculate_slave_priority p_item s2) >=? t2)%Z
      eqn:E2.
    + assert (E1 : (slave_priority (calculate_slave_priority p_item s2)
                    >=? t1)%Z = true)
        by (apply Z.geb_le; apply Z.geb_le in E2; lia).
      rewrite E1. simpl. rewrite !length_app. simpl.
      split; [lia|]. intros _. split; [reflexivity|].
      split; simpl; [|rewrite !length_app; simpl; lia].
      apply store_set_covers; [exact Hc|]. simpl.
      unfold calculate_slave_priority, with_priority. simpl. exact Hs.
    + destruct (_ >=? t1)%Z; simpl in *;
        (split; [try rewrite length_app; simpl; lia|]); intros _;
        (split; [reflexivity|]);
        (split; simpl;
         [apply store_set_covers; [exact Hc|exact I]
         |try rewrite length_app; simpl; lia]).
  - simpl in *. split; [lia|discriminate].
  - simpl in *. split; [lia|discriminate].
Qed.

Lemma attach_item_mono (n : nat) :
  forall j st1 st2,
    covers st1 st2 ->
    let r1 := attach_item t1 p_item i n j st1 in
    let r2 := attach_item t2 p_item i n j st2 in
    List.length (added (fst r2)) <= List.length (added (fst r1))
    /\ (snd r2 = Completed ->
        snd r1 = Completed /\ covers (fst r1) (fst r2)).
Proof.
  induction n as [|n IH]; intros j st1 st2 Hc; cbv zeta; simpl.
  - split; [apply Hc|]. intros _. split; [reflexivity|exact Hc].
  - destruct (attach_one_mono j st1 st2 Hc) as [Ha Hgo].
    pose proof (attach_item_grows t1 n (S j)
                  (fst (attach_one t1 p_item i j st1))) as G.
    destruct (attach_one t2 p_item i j st2) as [st2' [|f2]]; simpl in *.
    + destruct (Hgo eq_refl) as [E1 Hc'].
      destruct (attach_one t1 p_item i j st1) as [st1' o1]; simpl in *.
      subst o1. exact (IH (S j) st1' st2' Hc').
    + split; [|discriminate].
      destruct (attach_one t1 p_item i j st1) as [st1' [|f1]]; simpl in *;
        lia.
Qed.

End AttachRuns.

Lemma attach_children_grows (t : Z) (children : list input_item_t) :
  forall i st,
    List.length (added st)
    <= List.length (added (fst (attach_children t i children st))).
Proof.
  induction children as [|p_item rest IH]; intros i st; simpl; [lia|].
  pose proof (attach_item_grows p_item i t (List.length (pp_slaves st)) 0 st)
    as G.
  destruct (attach_item t p_item i _ 0 st) as [st' [|f]]; simpl in *;
    [|exact G].
  etransitivity; [exact G|apply IH].
Qed.

Lemma attach_children_mono (t1 t2 : Z) (children : list input_item_t) :
  (t1 <= t2)%Z ->
  forall i st1 st2,
    covers st1 st2 ->
    List.length (added (fst (attach_children t2 i children st2)))
    <= List.length (added (fst (attach_children t1 i children st1))).
Proof.
  intros Hle.
  induction children as [|p_item rest IH]; intros i st1 st2 Hc; simpl;
    [apply Hc|].
  assert (En : List.length (pp_slaves st1) = List.length (pp_slaves st2))
    by (destruct Hc as [Hc _]; exact (Forall2_length Hc)).
  rewrite En.
  destruct (attach_item_mono p_item i t1 t2 Hle
                             (List.length (pp_slaves st2)) 0 st1 st2 Hc)
    as [Ha Hgo].
  pose proof (attach_children_grows t1 rest (S i)
                (fst (attach_item t1 p_item i
                                  (List.length (pp_slaves st2)) 0 st1))) as G.
  destruct (attach_item t2 p_item i _ 0 st2) as [st2' [|f2]]; simpl in *.
  - destruct (Hgo eq_refl) as [E1 Hc'].
    destruct (attach_item t1 p_item i _ 0 st1) as [st1' o1]; simpl in *.
    subst o1. exact (IH (S i) st1' st2' Hc').
  - destruct (attach_item t1 p_item i _ 0 st1) as [st1' [|f1]]; simpl in *;
      lia.
Qed.

(** *** The thresholds *)

Lemma read_items_reads (p_demux : vlc_vars) (stream : list input_item_t) :
  forall st,
    rd_reads (fold_left (read_item p_demux) stream st)
    = rd_reads st + List.length stream.
Proof.
  induction stream as [|p_item rest IH]; intros st; simpl; [lia|].
  rewrite IH. unfold read_item.
  destruct (skip_item _ p_item); simpl; [lia|].
  destruct (is_slave _); simpl; [lia|].
  destruct (has_ext _ _); simpl; lia.
Qed.

(** C5, as amended.  When the threshold is zero, [subtitles_Detect]
    returns at once: it opens and reads no directory and leaves the
    result list as it was, empty if it was empty; and [attach_slaves]
    returns before it looks at any item or slave, and attaches nothing.
    In the batch mode the directory has been read by then: [Demux] reads
    every entry of the listing, whatever the threshold. *)
Theorem zero_threshold_disables :
  forall (p_this : vlc_vars) (h : host)
         (psz_path psz_name_org : option cstring) (p_result : subtitle_list)
         (children : list input_item_t) (p_slaves : list slot)
         (p_sys : demux_sys_t) (stream : list input_item_t),
    sub_autodetect_fuzzy p_this = 0%Z ->
    subtitles_Detect p_this h psz_path psz_name_org p_result
    = {| dr_status := Some VLC_EGENERIC; dr_fault := Completed;
         dr_result := p_result; dr_io := [] |}
    /\ dr_result (subtitles_Detect p_this h psz_path psz_name_org
                                   subtitle_list_Init) = []
    /\ attach_slaves p_this children p_slaves
       = ({| pp_slaves := p_slaves; added := [] |}, Completed)
    /\ added (dm_attach (Demux p_sys p_this stream)) = []
    /\ dm_end (Demux p_sys p_this stream) = Completed
    /\ dm_reads (Demux p_sys p_this stream) = List.length stream.
Proof.
  intros p_this h psz_path psz_name_org p_result children p_slaves p_sys
         stream H0.
  assert (A : forall c s, attach_slaves p_this c s
                          = ({| pp_slaves := s; added := [] |}, Completed))
    by (intros c s; unfold attach_slaves; now rewrite H0).
  unfold subtitles_Detect, Demux. rewrite H0, !A. simpl.
  repeat split. apply (read_items_reads p_this stream).
Qed.

(** The theorem at a listing of two entries. *)
Lemma zero_threshold_disables_witness :
  dr_io (subtitles_Detect (config 0 false)
                          (dir_host (cs "/d/") [cs "movie.srt"])
                          None (Some (cs "/d/movie.mkv")) subtitle_list_Init)
  = []
  /\ dm_reads (Demux {| b_dir_sorted := true; b_dir_can_loop := false |}
                     (config 0 false) two_entries) = 2.
Proof.
  pose proof (zero_threshold_disables
                (config 0 false) (dir_host (cs "/d/") [cs "movie.srt"])
                None (Some (cs "/d/movie.mkv")) subtitle_list_Init
                [] [] {| b_dir_sorted := true; b_dir_can_loop := false |}
                two_entries eq_refl) as (H1 & _ & _ & _ & _ & H6).
  split; [now rewrite H1|exact H6].
Defined.

(** C5 as stated fails in the batch mode: at threshold zero the listing
    of the two entries "movie.mkv" and "movie.srt" is read in full. *)
Lemma zero_threshold_counterexample :
  sub_autodetect_fuzzy (config 0 false) = 0%Z
  /\ dm_reads (Demux {| b_dir_sorted := true; b_dir_can_loop := false |}
                     (config 0 false) two_entries) <> 0.
Proof. split; vm_compute; [reflexivity|discriminate]. Qed.

(** A threshold within the range of [int] is stored as it is. *)
Lemma to_int_fits (t : Z) :
  (- 2 ^ 31 <= t < 2 ^ 31)%Z -> to_int t = t.
Proof.
  intros H. unfold to_int.
  change (2 ^ 31)%Z with 2147483648%Z in *.
  change (2 ^ 32)%Z with 4294967296%Z.
  rewrite Z.mod_small; lia.
Qed.

(** C6, as amended.  For thresholds that, as the two files store them
    in an [int], are [t1 <= t2] with [t1] not zero, the collector of
    [subtitles_Detect] returns no more candidates at [t2] than at [t1],
    on the same directories and from the same list, and [attach_slaves]
    attaches no more slaves at [t2] than at [t1], on the same items and
    slaves; a threshold within the range of [int] is stored as it is.
    (At [t1 = 0] discovery is disabled and nothing is returned, so a
    threshold above zero may return more; and a threshold beyond the
    range of [int] acts as the number its low 32 bits give.) *)
Theorem threshold_monotone :
  forall (p1 p2 : vlc_vars) (h : host)
         (psz_path psz_name_org : option cstring) (p_result : subtitle_list)
         (children : list input_item_t) (p_slaves : list slot),
    (to_int (sub_autodetect_fuzzy p1) <= to_int (sub_autodetect_fuzzy p2))%Z ->
    to_int (sub_autodetect_fuzzy p1) <> 0%Z ->
    List.length
      (dr_result (subtitles_Detect p2 h psz_path psz_name_org p_result))
    <= List.length
         (dr_result (subtitles_Detect p1 h psz_path psz_name_org p_result))
    /\ List.length (added (fst (attach_slaves p2 children p_slaves)))
       <= List.length (added (fst (attach_slaves p1 children p_slaves)))
    /\ (forall t : Z, (- 2 ^ 31 <= t < 2 ^ 31)%Z -> to_int t = t).
Proof.
  intros p1 p2 h psz_path psz_name_org p_result children p_slaves Hle Hnz.
  split; [|split; [|exact to_int_fits]].
  - rewrite !subtitles_Detect_length.
    apply Z.eqb_neq in Hnz. rewrite Hnz.
    destruct psz_name_org as [name_org|];
      [|now destruct (to_int (sub_autodetect_fuzzy p2) =? 0)%Z].
    destruct (vlc_uri2path h name_org) as [psz_fname|];
      [|now destruct (to_int (sub_autodetect_fuzzy p2) =? 0)%Z].
    destruct (strrchr psz_fname "/"%char) as [k|];
      [|now destruct (to_int (sub_autodetect_fuzzy p2) =? 0)%Z].
    destruct (to_int (sub_autodetect_fuzzy p2) =? 0)%Z.
    + apply detect_collect_grows.
    + now apply detect_collect_mono.
  - unfold attach_slaves.
    apply Z.eqb_neq in Hnz. rewrite Hnz.
    destruct (to_int (sub_autodetect_fuzzy p2) =? 0)%Z; [simpl; lia|].
    apply attach_children_mono; [exact Hle|].
    split; [apply covers_refl|simpl; lia].
Qed.

(** The theorem at the thresholds 1 and 4 and the entries "movie.srt"
    and "other.srt" beside the movie "/d/movie.mkv". *)
Lemma threshold_monotone_witness :
  List.length
    (dr_result (subtitles_Detect (config 4 false) movie_host None
                                 (Some (cs "/d/movie.mkv")) []))
  <= List.length
       (dr_result (subtitles_Detect (config 1 false) movie_host None
                                    (Some (cs "/d/movie.mkv")) [])).
Proof.
  refine (proj1 (threshold_monotone (config 1 false) (config 4 false)
                                    movie_host None (Some (cs "/d/movie.mkv"))
                                    [] [] [] _ _)).
  - vm_compute. discriminate.
  - vm_compute. discriminate.
Defined.

(** C6 as stated fails at the thresholds 0 and 1: beside the movie
    "/d/movie.mkv" the collector returns nothing at 0 and both subtitle
    files at 1.  It fails beyond the range of [int] as well: nothing is
    returned at 5, and both files at 2^32 + 1, which is stored as 1. *)
Lemma threshold_counterexample :
  (0 <= 1)%Z
  /\ List.length
       (dr_result (subtitles_Detect (config 0 false) movie_host None
                                    (Some (cs "/d/movie.mkv")) [])) = 0
  /\ List.length
       (dr_result (subtitles_Detect (config 1 false) movie_host None
                                    (Some (cs "/d/movie.mkv")) [])) = 2
  /\ (5 <= 2 ^ 32 + 1)%Z
  /\ List.length
       (dr_result (subtitles_Detect (config 5 false) movie_host None
                                    (Some (cs "/d/movie.mkv")) [])) = 0
  /\ List.length
       (dr_result (subtitles_Detect (config (2 ^ 32 + 1) false) movie_host
                                    None (Some (cs "/d/movie.mkv")) [])) = 2.
Proof. repeat split; vm_compute; try reflexivity; discriminate. Qed.

(** *** Hidden files *)

Lemma strcmp_literal (a b : cstring) :
  no_nul a = true -> no_nul b = true ->
  ((strcmp a b =? 0)%Z = true <-> a = b).
Proof. apply SearchFacts.strcmp_zero_iff. Qed.

(** The test of [Demux]. *)
Lemma skip_item_iff (b_show_hiddenfiles : bool) (p_item : input_item_t) :
  no_nul (name_of p_item) = true ->
  (skip_item b_show_hiddenfiles p_item = true <->
   name_of p_item = []
   \/ name_of p_item = cs "."
   \/ name_of p_item = cs ".."
   \/ (b_show_hiddenfiles = false /\ dot_first (name_of p_item) = true)).
Proof.
  intros Hn. unfold skip_item.
  assert (E0 : Nat.eqb match psz_name p_item with
                       | Some n => strlen n
                       | None => 0
                       end 0 = true <-> name_of p_item = []).
  { unfold name_of, strlen. destruct (psz_name p_item) as [[|c n]|]; simpl;
      split; auto; discriminate. }
  rewrite !orb_true_iff, andb_true_iff, negb_true_iff, E0.
  rewrite (strcmp_literal _ (cs ".") Hn eq_refl).
  rewrite (strcmp_literal _ (cs "..") Hn eq_refl).
  unfold dot_first. tauto.
Qed.

(** The test of [subtitles_Detect]: an entry whose name begins with a
    dot is read and dropped. *)
Lemma detect_entry_dot (h : host) (t : Z)
      (psz_fname f_fname_trim psz_dir : cstring) (j : Z)
      (st : scan_state) (name : cstring) :
  dot_first name = true ->
  detect_entry h t psz_fname f_fname_trim psz_dir j st name
  = (fst st, snd st ++ [IoReaddir name]).
Proof.
  intros H. unfold detect_entry. destruct st as [l io]. now rewrite H.
Qed.

(** [subtitles_Detect] reads one variable, the threshold. *)
Lemma subtitles_Detect_vars (p q : vlc_vars) (h : host)
      (psz_path psz_name_org : option cstring) (p_result : subtitle_list) :
  sub_autodetect_fuzzy p = sub_autodetect_fuzzy q ->
  subtitles_Detect p h psz_path psz_name_org p_result
  = subtitles_Detect q h psz_path psz_name_org p_result.
Proof. intros E. unfold subtitles_Detect. now rewrite E. Qed.

(** The children the [stream_ReadDir] loop makes. *)
Lemma read_items_children (p_demux : vlc_vars)
      (stream : list input_item_t) :
  forall st,
    rd_children (fold_left (read_item p_demux) stream st)
    = rd_children st ++ filter (listed_child p_demux) stream.
Proof.
  induction stream as [|p_item rest IH]; intros st; cbn [fold_left filter].
  - now rewrite app_nil_r.
  - rewrite IH. unfold read_item, listed_child.
    destruct (skip_item (show_hiddenfiles p_demux) p_item);
      cbn [negb andb rd_children]; [reflexivity|].
    destruct (is_slave (name_of p_item));
      cbn [negb andb rd_children]; [reflexivity|].
    destruct (has_ext (ignore_filetypes p_demux) (name_of p_item));
      cbn [negb rd_children]; [reflexivity|].
    now rewrite <- app_assoc.
Qed.

(** The sorter keeps the entries. *)
Lemma sort_insert_In (compar : input_item_t -> input_item_t -> Z)
      (x c : input_item_t) (l : list input_item_t) :
  In c (sort_insert compar x l) <-> c = x \/ In c l.
Proof.
  induction l as [|y l IH]; simpl.
  - intuition congruence.
  - destruct (compar x y <=? 0)%Z; simpl; [intuition congruence|].
    rewrite IH. intuition congruence.
Qed.

Lemma sort_In (compar : input_item_t -> input_item_t -> Z)
      (c : input_item_t) (l : list input_item_t) :
  In c (input_item_node_Sort compar l) <-> In c l.
Proof.
  induction l as [|x l IH]; simpl; [tauto|].
  rewrite sort_insert_In, IH. intuition congruence.
Qed.

(** The children of the node [Demux] leaves are the entries of the
    listing that are not skipped, are no slaves and are not ignored. *)
Lemma Demux_children_In (p_sys : demux_sys_t) (p_demux : vlc_vars)
      (stream : list input_item_t) (c : input_item_t) :
  In c (dm_children (Demux p_sys p_demux stream))
  <-> In c stream /\ listed_child p_demux c = true.
Proof.
  rewrite <- filter_In.
  pose proof (read_items_children
                p_demux stream
                {| rd_children := []; rd_slaves := []; rd_reads := 0 |}) as C.
  cbn [rd_children app] in C.
  unfold Demux. destruct (attach_slaves _ _ _) as [att [|f]];
    cbn [dm_children]; rewrite ?C; [|tauto].
  destruct (select_compar p_sys p_demux) as [compar_cb|]; [|tauto].
  apply sort_In.
Qed.

(** C8, as amended.  In the batch listing, [Demux] always skips an
    entry with no name and the names "." and "..", and skips any other
    name that begins with a dot exactly when [show-hiddenfiles] is not
    set; with the flag set such a name goes on to the classifier.  A
    skipped entry is counted and becomes neither a child nor a slave;
    an entry that is not skipped becomes a slave if [is_slave] accepts
    its name, is dropped if its extension is ignored, and becomes a
    child otherwise: no child of the node [Demux] leaves is a skipped
    entry, and every entry of the listing that is not skipped, no slave
    and not ignored is one.  In the single-sidecar scan,
    [subtitles_Detect] drops every name that begins with a dot, "." and
    ".." among them, and no variable changes that: it reads
    [sub-autodetect-fuzzy] only. *)
Theorem hidden_entries :
  forall (b_show_hiddenfiles : bool) (p_item : input_item_t)
         (p q : vlc_vars) (h : host) (psz_path psz_name_org : option cstring)
         (p_result : subtitle_list)
         (t : Z) (psz_fname f_fname_trim psz_dir : cstring) (j : Z)
         (st : scan_state) (name : cstring)
         (p_sys : demux_sys_t) (stream : list input_item_t)
         (rd : read_state),
    no_nul (name_of p_item) = true ->
    sub_autodetect_fuzzy p = sub_autodetect_fuzzy q ->
    dot_first name = true ->
    (skip_item b_show_hiddenfiles p_item = true <->
     name_of p_item = []
     \/ name_of p_item = cs "."
     \/ name_of p_item = cs ".."
     \/ (b_show_hiddenfiles = false /\ dot_first (name_of p_item) = true))
    /\ detect_entry h t psz_fname f_fname_trim psz_dir j st name
       = (fst st, snd st ++ [IoReaddir name])
    /\ subtitles_Detect p h psz_path psz_name_org p_result
       = subtitles_Detect q h psz_path psz_name_org p_result
    /\ (skip_item (show_hiddenfiles p) p_item = true ->
        read_item p rd p_item
        = {| rd_children := rd_children rd; rd_slaves := rd_slaves rd;
             rd_reads := S (rd_reads rd) |})
    /\ (skip_item (show_hiddenfiles p) p_item = false ->
        read_item p rd p_item
        = match is_slave (name_of p_item) with
          | Some i_slave_type =>
              {| rd_children := rd_children rd;
                 rd_slaves :=
                   rd_slaves rd
                   ++ [Live (input_item_slave_New (psz_uri p_item)
                                                  i_slave_type
                                                  SLAVE_PRIORITY_NONE)];
                 rd_reads := S (rd_reads rd) |}
          | None =>
              if has_ext (ignore_filetypes p) (name_of p_item)
              then {| rd_children := rd_children rd;
                      rd_slaves := rd_slaves rd;
                      rd_reads := S (rd_reads rd) |}
              else {| rd_children := rd_children rd ++ [p_item];
                      rd_slaves := rd_slaves rd;
                      rd_reads := S (rd_reads rd) |}
          end)
    /\ (forall c,
           In c (dm_children (Demux p_sys p stream)) ->
           In c stream /\ skip_item (show_hiddenfiles p) c = false)
    /\ (In p_item stream ->
        skip_item (show_hiddenfiles p) p_item = false ->
        is_slave (name_of p_item) = None ->
        has_ext (ignore_filetypes p) (name_of p_item) = false ->
        In p_item (dm_children (Demux p_sys p stream))).
Proof.
  intros b_show_hiddenfiles p_item p q h psz_path psz_name_org p_result
         t psz_fname f_fname_trim psz_dir j st name p_sys stream rd
         Hn Hpq Hdot.
  split; [now apply skip_item_iff|].
  split; [now apply detect_entry_dot|].
  split; [now apply subtitles_Detect_vars|].
  split; [|split; [|split]].
  - intros Hs. unfold read_item. now rewrite Hs.
  - intros Hs. unfold read_item. now rewrite Hs.
  - intros c Hc. apply Demux_children_In in Hc as [Hin Hl].
    split; [exact Hin|]. unfold listed_child in Hl.
    now destruct (skip_item (show_hiddenfiles p) c).
  - intros Hin Hs Hsl He. apply Demux_children_In.
    split; [exact Hin|]. unfold listed_child. now rewrite Hs, Hsl, He.
Qed.

(** The theorem at the hidden entry ".movie.srt" with the flag set. *)
Lemma hidden_entries_witness :
  (skip_item true (entry_of (cs "/d") (cs ".movie") (cs "srt")) = true <->
   cs ".movie.srt" = []
   \/ cs ".movie.srt" = cs "."
   \/ cs ".movie.srt" = cs ".."
   \/ (true = false /\ dot_first (cs ".movie.srt") = true))
  /\ detect_entry hidden_host 1 (cs "/d/movie.mkv") (cs "movie") (cs "/d/")
                  (-1) ([], []) (cs ".movie.srt")
     = ([], [IoReaddir (cs ".movie.srt")])
  /\ subtitles_Detect (config 1 true) hidden_host None
                      (Some (cs "/d/movie.mkv")) []
     = subtitles_Detect (config 1 false) hidden_host None
                        (Some (cs "/d/movie.mkv")) []
  /\ rd_slaves
       (read_item (config 1 true)
                  {| rd_children := []; rd_slaves := []; rd_reads := 0 |}
                  (entry_of (cs "/d") (cs ".movie") (cs "srt")))
     = [Live (input_item_slave_New (cs "/d/.movie.srt") SLAVE_TYPE_SPU
                                   SLAVE_PRIORITY_NONE)].
Proof.
  destruct (hidden_entries
              true (entry_of (cs "/d") (cs ".movie") (cs "srt"))
              (config 1 true) (config 1 false) hidden_host None
              (Some (cs "/d/movie.mkv")) []
              1 (cs "/d/movie.mkv") (cs "movie") (cs "/d/") (-1)
              ([], []) (cs ".movie.srt")
              {| b_dir_sorted := true; b_dir_can_loop := false |}
              [entry_of (cs "/d") (cs ".movie") (cs "srt")]
              {| rd_children := []; rd_slaves := []; rd_reads := 0 |}
              eq_refl eq_refl eq_refl)
    as (A & B & C & _ & D & _).
  split; [exact A|]. split; [exact B|]. split; [exact C|].
  now rewrite (D eq_refl).
Defined.

(** C8 as stated fails in the single-sidecar scan: with
    [show-hiddenfiles] set, the entry ".movie.srt" beside the movie
    "/d/movie.mkv" is read and not returned, while the batch listing
    keeps it as a subtitle slave. *)
Lemma hidden_entries_counterexample :
  show_hiddenfiles (config 1 true) = true
  /\ dr_io (subtitles_Detect (config 1 true) hidden_host None
                             (Some (cs "/d/movie.mkv")) [])
     = [IoOpendir (cs "/d/"); IoReaddir (cs ".movie.srt")]
  /\ dr_result (subtitles_Detect (config 1 true) hidden_host None
                                 (Some (cs "/d/movie.mkv")) []) = []
  /\ skip_item true (entry_of (cs "/d") (cs ".movie") (cs "srt")) = false
  /\ is_slave (cs ".movie.srt") = Some SLAVE_TYPE_SPU.
Proof. repeat split; vm_compute; reflexivity. Qed.

End Collector.

(* ================================================================== *)
(** ** The sorter of the directory listing *)
(* ================================================================== *)

Module Sorter.

Import Directory Props.

(** *** The insertion sort, for any total and transitive comparator *)

Section InsertionSort.

Variable compar : input_item_t -> input_item_t -> Z.

Hypothesis compar_total :
  forall a b, (0 < compar a b)%Z -> (compar b a <= 0)%Z.
Hypothesis compar_trans :
  forall a b c, (compar a b <= 0)%Z -> (compar b c <= 0)%Z ->
                (compar a c <= 0)%Z.

Lemma sort_insert_perm (x : input_item_t) (l : list input_item_t) :
  Permutation (x :: l) (sort_insert compar x l).
Proof.
  induction l as [|y l IH]; simpl; [apply Permutation_refl|].
  destruct (compar x y <=? 0)%Z; [apply Permutation_refl|].
  etransitivity; [apply perm_swap|]. now apply perm_skip.
Qed.

Lemma sort_perm (l : list input_item_t) :
  Permutation l (input_item_node_Sort compar l).
Proof.
  induction l as [|x l IH]; simpl; [constructor|].
  etransitivity; [|apply sort_insert_perm]. now apply perm_skip.
Qed.

Lemma sort_insert_sorted (x : input_item_t) (l : list input_item_t) :
  StronglySorted (below compar) l -> StronglySorted (below compar) (sort_insert compar x l).
Proof.
  induction 1 as [|y l Hs IH Hy]; simpl.
  - constructor; constructor.
  - destruct (compar x y <=? 0)%Z eqn:E.
    + apply Z.leb_le in E. constructor; [now constructor|].
      constructor; [exact E|].
      eapply Forall_impl; [|exact Hy]. intros z Hz.
      exact (compar_trans x y z E Hz).
    + apply Z.leb_gt in E. constructor; [exact IH|].
      eapply Permutation_Forall; [apply sort_insert_perm|].
      constructor; [now apply compar_total|exact Hy].
Qed.

Lemma sort_sorted (l : list input_item_t) :
  StronglySorted (below compar) (input_item_node_Sort compar l).
Proof.
  induction l as [|x l IH]; simpl; [constructor|].
  now apply sort_insert_sorted.
Qed.

(** In a sorted list an earlier entry is below a later one. *)
Lemma sorted_nth (l : list input_item_t) :
  StronglySorted (below compar) l ->
  forall i j a b,
    i < j -> nth_error l i = Some a -> nth_error l j = Some b ->
    (compar a b <= 0)%Z.
Proof.
  induction 1 as [|y l Hs IH Hy]; intros i j a b Hij Ha Hb.
  - destruct i; discriminate.
  - destruct j as [|j]; [lia|]. simpl in Hb.
    destruct i as [|i]; simpl in Ha.
    + injection Ha as <-.
      rewrite Forall_forall in Hy. apply Hy.
      eapply nth_error_In; eauto.
    + apply (IH i j); auto. lia.
Qed.

End InsertionSort.

(** *** The version comparator *)

Lemma isdigit_true (c : ascii) :
  isdigit c = true -> (48 <= Z.of_N (code c) <= 57)%Z.
Proof.
  unfold isdigit. intros H. apply andb_prop in H as [H1 H2].
  apply N.leb_le in H1, H2. lia.
Qed.

Lemma isdigit_false (c : ascii) :
  isdigit c = false -> (Z.of_N (code c) < 48 \/ 57 < Z.of_N (code c))%Z.
Proof.
  unfold isdigit. intros H. apply andb_false_iff in H as [H|H];
    apply N.leb_gt in H; lia.
Qed.

Lemma vpieces_ok (s : cstring) : Forall vpiece_ok (vpieces s).
Proof.
  induction s as [|c s IH]; simpl; [constructor|].
  destruct (isdigit c) eqn:E; [|now constructor].
  destruct (vpieces s) as [|[ds|d] t]; inversion IH; subst;
    repeat constructor; auto.
Qed.

Lemma vpiece_cmp_antisym (x y : vpiece) :
  vpiece_cmp y x = (- vpiece_cmp x y)%Z.
Proof. destruct x, y; simpl; lia. Qed.

(** The order of the pieces is transitive, and two pieces are equal in
    it only through pieces equal to both. *)
Lemma vpiece_cmp_trans (x y z : vpiece) :
  vpiece_ok x -> vpiece_ok y -> vpiece_ok z ->
  (vpiece_cmp x y <= 0)%Z -> (vpiece_cmp y z <= 0)%Z ->
  (vpiece_cmp x z <= 0)%Z
  /\ (vpiece_cmp x z = 0%Z ->
      vpiece_cmp x y = 0%Z /\ vpiece_cmp y z = 0%Z).
Proof.
  destruct x as [[|dx x]|cx], y as [[|dy y]|cy], z as [[|dz z]|cz];
    simpl; intros Hx Hy Hz; try contradiction;
    try (apply isdigit_true in Hx); try (apply isdigit_false in Hx);
    try (apply isdigit_true in Hy); try (apply isdigit_false in Hy);
    try (apply isdigit_true in Hz); try (apply isdigit_false in Hz);
    lia.
Qed.

Lemma vcmp_antisym (a : list vpiece) :
  forall b, vcmp b a = (- vcmp a b)%Z.
Proof.
  induction a as [|x a IH]; intros [|y b]; simpl; try reflexivity.
  rewrite (vpiece_cmp_antisym x y).
  destruct (vpiece_cmp x y =? 0)%Z eqn:E.
  - apply Z.eqb_eq in E. rewrite E. simpl. apply IH.
  - apply Z.eqb_neq in E.
    destruct (- vpiece_cmp x y =? 0)%Z eqn:E'; [|reflexivity].
    apply Z.eqb_eq in E'. lia.
Qed.

Lemma vcmp_head (x y : vpiece) (a b : list vpiece) :
  (vcmp (x :: a) (y :: b) <= 0)%Z ->
  (vpiece_cmp x y <= 0)%Z
  /\ (vpiece_cmp x y = 0%Z -> (vcmp a b <= 0)%Z).
Proof.
  simpl. destruct (vpiece_cmp x y =? 0)%Z eqn:E.
  - apply Z.eqb_eq in E. intros H. split; [lia|auto].
  - apply Z.eqb_neq in E. intros H. split; [exact H|]. intros E0.
    now elim E.
Qed.

Lemma vcmp_trans (a : list vpiece) :
  forall b c,
    Forall vpiece_ok a -> Forall vpiece_ok b -> Forall vpiece_ok c ->
    (vcmp a b <= 0)%Z -> (vcmp b c <= 0)%Z -> (vcmp a c <= 0)%Z.
Proof.
  induction a as [|x a IH]; intros b c Ha Hb Hc Hab Hbc.
  - destruct c; simpl; lia.
  - destruct b as [|y b]; [simpl in Hab; lia|].
    destruct c as [|z c]; [simpl in Hbc; lia|].
    inversion Ha; inversion Hb; inversion Hc; subst.
    apply vcmp_head in Hab as [Hxy Hab]. apply vcmp_head in Hbc as [Hyz Hbc].
    destruct (vpiece_cmp_trans x y z) as [Hxz H0]; auto.
    simpl. destruct (vpiece_cmp x z =? 0)%Z eqn:E; [|exact Hxz].
    apply Z.eqb_eq in E. destruct (H0 E) as [E1 E2].
    apply (IH b c); auto.
Qed.

Lemma strverscmp_antisym (a b : cstring) :
  strverscmp b a = (- strverscmp a b)%Z.
Proof. apply vcmp_antisym. Qed.

Lemma strverscmp_trans (a b c : cstring) :
  (strverscmp a b <= 0)%Z -> (strverscmp b c <= 0)%Z ->
  (strverscmp a c <= 0)%Z.
Proof. apply vcmp_trans; apply vpieces_ok. Qed.

(** [compar_version] by the kinds of the two entries. *)
Lemma compar_version_cases (p1 p2 : input_item_t) :
  compar_version p1 p2 =
  match (i_type p1 =? ITEM_TYPE_DIRECTORY)%Z,
        (i_type p2 =? ITEM_TYPE_DIRECTORY)%Z with
  | true, false => (-1)%Z
  | false, true => 1%Z
  | _, _ => strverscmp (name_of p1) (name_of p2)
  end.
Proof.
  unfold compar_version, compar_type.
  destruct (i_type p1 =? i_type p2)%Z eqn:E.
  - apply Z.eqb_eq in E. rewrite E. simpl.
    now destruct (i_type p2 =? ITEM_TYPE_DIRECTORY)%Z.
  - simpl.
    destruct (i_type p1 =? ITEM_TYPE_DIRECTORY)%Z eqn:E1;
      destruct (i_type p2 =? ITEM_TYPE_DIRECTORY)%Z eqn:E2; simpl;
      try reflexivity.
    apply Z.eqb_eq in E1, E2. apply Z.eqb_neq in E. congruence.
Qed.

Lemma compar_version_total (a b : input_item_t) :
  (0 < compar_version a b)%Z -> (compar_version b a <= 0)%Z.
Proof.
  rewrite !compar_version_cases.
  destruct (i_type a =? _)%Z, (i_type b =? _)%Z;
    rewrite ?(strverscmp_antisym (name_of a) (name_of b)); lia.
Qed.

Lemma compar_version_trans (a b c : input_item_t) :
  (compar_version a b <= 0)%Z -> (compar_version b c <= 0)%Z ->
  (compar_version a c <= 0)%Z.
Proof.
  rewrite !compar_version_cases.
  destruct (i_type a =? _)%Z, (i_type b =? _)%Z, (i_type c =? _)%Z;
    try lia; apply strverscmp_trans.
Qed.

(** *** The sort of [Demux] *)

(** A sort mode that reads "none" does not read "version". *)
Lemma none_not_version (psz_sort : cstring) :
  strcasecmp psz_sort (cs "none") = 0%Z ->
  (strcasecmp psz_sort (cs "version") =? 0)%Z = false.
Proof.
  destruct psz_sort as [|c s]; [vm_compute; discriminate|].
  change (cs "none") with ("n"%char :: cs "one").
  change (cs "version") with ("v"%char :: cs "ersion").
  cbn [strcasecmp].
  change (tolower "n") with "n"%char. change (tolower "v") with "v"%char.
  destruct (Ascii.eqb (tolower c) "n") eqn:E.
  - apply Ascii.eqb_eq in E. rewrite E. intros _. reflexivity.
  - apply Ascii.eqb_neq in E. intros H. exfalso.
    exact (CLibFacts.code_pos_neq _ _ E H).
Qed.

Lemma select_version (p_sys : demux_sys_t) (p_demux : vlc_vars)
      (psz_sort : cstring) :
  b_dir_sorted p_sys = false ->
  directory_sort p_demux = Some psz_sort ->
  strcasecmp psz_sort (cs "version") = 0%Z ->
  select_compar p_sys p_demux = Some compar_version.
Proof.
  intros Hs Hd Hv. unfold select_compar. now rewrite Hs, Hd, Hv.
Qed.

Lemma select_none (p_sys : demux_sys_t) (p_demux : vlc_vars)
      (psz_sort : cstring) :
  directory_sort p_demux = Some psz_sort ->
  strcasecmp psz_sort (cs "none") = 0%Z ->
  select_compar p_sys p_demux = None.
Proof.
  intros Hd Hn. unfold select_compar.
  rewrite Hd, (none_not_version _ Hn), Hn.
  now destruct (b_dir_sorted p_sys).
Qed.

(** The children [Demux] leaves behind, when the run completes. *)
Lemma Demux_children (p_sys : demux_sys_t) (p_demux : vlc_vars)
      (stream : list input_item_t) :
  dm_children (Demux p_sys p_demux stream) =
  match dm_end (Demux p_sys p_demux stream),
        select_compar p_sys p_demux with
  | Completed, Some compar_cb =>
      input_item_node_Sort compar_cb (read_children p_demux stream)
  | _, _ => read_children p_demux stream
  end.
Proof.
  unfold Demux, read_children.
  destruct (attach_slaves _ _ _) as [att [|f]]; simpl; [|reflexivity].
  now destruct (select_compar p_sys p_demux).
Qed.

(** What the sorter does with the comparator [compar_version]. *)
Lemma version_sorted (l : list input_item_t) :
  let sorted := input_item_node_Sort compar_version l in
  Permutation l sorted
  /\ (forall i j a b,
         i < j ->
         nth_error sorted i = Some a -> nth_error sorted j = Some b ->
         (i_type b = ITEM_TYPE_DIRECTORY -> i_type a = ITEM_TYPE_DIRECTORY)
         /\ (i_type a = i_type b ->
             (strverscmp (name_of a) (name_of b) <= 0)%Z)).
Proof.
  intros sorted. split; [apply sort_perm|].
  intros i j a b Hij Ha Hb.
  pose proof (sorted_nth compar_version _
                (sort_sorted compar_version compar_version_total
                             compar_version_trans l)
                i j a b Hij Ha Hb) as Hab.
  rewrite compar_version_cases in Hab. split.
  - intros Eb. apply Z.eqb_eq in Eb. rewrite Eb in Hab.
    destruct (i_type a =? ITEM_TYPE_DIRECTORY)%Z eqn:Ea;
      [now apply Z.eqb_eq|lia].
  - intros E. rewrite E in Hab.
    now destruct (i_type b =? ITEM_TYPE_DIRECTORY)%Z.
Qed.

(** A listing flagged as sorted is not sorted again. *)
Lemma select_sorted (p_sys : demux_sys_t) (p_demux : vlc_vars) :
  b_dir_sorted p_sys = true -> select_compar p_sys p_demux = None.
Proof. intros H. unfold select_compar. now rewrite H. Qed.

(** C9, as amended.  The sorter with the version comparator returns its
    entries reordered so that an entry that precedes a directory is a
    directory, and of two entries of the same type the earlier one is
    not above the later one in the version order of their names, in
    which "track2.mkv" is below "track10.mkv".  With the sort mode
    "version", on a listing that is not flagged as sorted and when the
    slaves have been attached, the children [Demux] leaves are the
    entries kept, sorted so; with the sort mode "none", and on every
    listing flagged as sorted whatever the mode, they are the entries
    kept, in the order of the listing. *)
Theorem version_sort :
  forall (p_sys : demux_sys_t) (p_demux : vlc_vars)
         (stream l : list input_item_t) (psz_sort : cstring),
    let run := Demux p_sys p_demux stream in
    let sorted := input_item_node_Sort compar_version l in
    Permutation l sorted
    /\ (forall i j a b,
           i < j ->
           nth_error sorted i = Some a -> nth_error sorted j = Some b ->
           (i_type b = ITEM_TYPE_DIRECTORY -> i_type a = ITEM_TYPE_DIRECTORY)
           /\ (i_type a = i_type b ->
               (strverscmp (name_of a) (name_of b) <= 0)%Z))
    /\ (strverscmp (cs "track2.mkv") (cs "track10.mkv") < 0)%Z
    /\ input_item_node_Sort compar_version unsorted_listing
       = [item "b" ITEM_TYPE_DIRECTORY; item "track2.mkv" ITEM_TYPE_FILE;
          item "track10.mkv" ITEM_TYPE_FILE]
    /\ (directory_sort p_demux = Some psz_sort ->
        strcasecmp psz_sort (cs "version") = 0%Z ->
        b_dir_sorted p_sys = false ->
        dm_end run = Completed ->
        dm_children run
        = input_item_node_Sort compar_version (read_children p_demux stream))
    /\ (directory_sort p_demux = Some psz_sort ->
        strcasecmp psz_sort (cs "none") = 0%Z ->
        dm_children run = read_children p_demux stream)
    /\ (b_dir_sorted p_sys = true ->
        dm_children run = read_children p_demux stream).
Proof.
  intros p_sys p_demux stream l psz_sort run sorted.
  pose proof (Demux_children p_sys p_demux stream) as Hc. fold run in Hc.
  destruct (version_sorted l) as [Hp Ho].
  split; [exact Hp|]. split; [exact Ho|].
  split; [reflexivity|]. split; [reflexivity|]. split; [|split].
  - intros Hd Hv Hs He.
    now rewrite He, (select_version p_sys p_demux psz_sort Hs Hd Hv) in Hc.
  - intros Hd Hn. rewrite Hc, (select_none p_sys p_demux psz_sort Hd Hn).
    now destruct (dm_end run).
  - intros Hs. rewrite Hc, (select_sorted p_sys p_demux Hs).
    now destruct (dm_end run).
Qed.

(** The theorem at a listing of two files and a directory. *)
Lemma version_sort_witness :
  dm_children (Demux unsorted_dir (sorting "version") unsorted_listing)
  = input_item_node_Sort compar_version
                         (read_children (sorting "version") unsorted_listing)
  /\ dm_children (Demux unsorted_dir (sorting "none") unsorted_listing)
     = read_children (sorting "none") unsorted_listing.
Proof.
  split.
  - exact (proj1 (proj2 (proj2 (proj2 (proj2
             (version_sort unsorted_dir (sorting "version")
                           unsorted_listing [] (cs "version"))))))
                 eq_refl eq_refl eq_refl eq_refl).
  - exact (proj1 (proj2 (proj2 (proj2 (proj2 (proj2
             (version_sort unsorted_dir (sorting "none")
                           unsorted_listing [] (cs "none")))))))
                 eq_refl eq_refl).
Defined.

(** C9 as stated fails on a listing flagged as sorted: with the sort
    mode "version" the children stay in the order of the listing, the
    file "track10.mkv" before the directory "b" and before
    "track2.mkv". *)
Lemma version_sort_counterexample :
  directory_sort (sorting "version") = Some (cs "version")
  /\ dm_end (Demux {| b_dir_sorted := true; b_dir_can_loop := false |}
                   (sorting "version") unsorted_listing) = Completed
  /\ dm_children (Demux {| b_dir_sorted := true; b_dir_can_loop := false |}
                        (sorting "version") unsorted_listing)
     = [item "track10.mkv" ITEM_TYPE_FILE; item "b" ITEM_TYPE_DIRECTORY;
        item "track2.mkv" ITEM_TYPE_FILE]
  /\ dm_children (Demux {| b_dir_sorted := true; b_dir_can_loop := false |}
                        (sorting "version") unsorted_listing)
     <> input_item_node_Sort compar_version unsorted_listing.
Proof. repeat split; vm_compute; try reflexivity. discriminate. Qed.

End Sorter.

(* ================================================================== *)
(** ** The loops with a bound on their turns *)
(* ================================================================== *)

Module Turns.

Import Subtitles Directory.

Lemma skip_spaces_length (s : cstring) :
  List.length (Subtitles.skip_spaces s) <= List.length s.
Proof.
  induction s as [|c s IH]; simpl; [lia|].
  destruct (Ascii.eqb c " "%char); simpl; lia.
Qed.

Lemma strchr_bound (s : cstring) (c : ascii) :
  forall k, strchr s c = Some k -> k < List.length s.
Proof.
  induction s as [|x s IH]; simpl; [discriminate|].
  destruct (Ascii.eqb x c); intros k H.
  - injection H as <-. lia.
  - destruct (strchr s c) as [i|]; [|discriminate].
    injection H as <-. specialize (IH i eq_refl). lia.
Qed.

Lemma paths_loop_done (fuel : nat) (psz_dir : cstring) :
  paths_loop fuel psz_dir None = [].
Proof. now destruct fuel. Qed.

(** The loop of [paths_to_list] ends within the turns it is given: more
    turns give the same list. *)
Lemma paths_loop_turns (psz_dir : cstring) (fuel : nat) :
  forall fuel' s,
    List.length s < fuel -> List.length s < fuel' ->
    paths_loop fuel psz_dir (Some s) = paths_loop fuel' psz_dir (Some s).
Proof.
  induction fuel as [|fuel IH]; intros fuel' s H H'; [lia|].
  destruct fuel' as [|fuel']; [lia|].
  destruct s as [|c s]; [reflexivity|].
  cbn [paths_loop].
  destruct (strchr (c :: s) ","%char) as [k|] eqn:Ek.
  - pose proof (strchr_bound _ _ _ Ek) as Hk.
    pose proof (skip_spaces_length (skipn (S k) (c :: s))) as Hs.
    rewrite length_skipn in Hs.
    remember (Subtitles.skip_spaces (skipn (S k) (c :: s))) as next.
    simpl in H, H', Hk, Hs.
    rewrite (IH fuel' next) by lia.
    reflexivity.
  - now rewrite !paths_loop_done.
Qed.

(** The loop of [has_ext] ends within the turns it is given. *)
Lemma has_ext_loop_turns (ext : cstring) (fuel : nat) :
  forall fuel' type,
    List.length type < fuel -> List.length type < fuel' ->
    has_ext_loop fuel ext type = has_ext_loop fuel' ext type.
Proof.
  induction fuel as [|fuel IH]; intros fuel' type H H'; [lia|].
  destruct fuel' as [|fuel']; [lia|].
  destruct type as [|c type]; [reflexivity|].
  cbn [has_ext_loop].
  destruct (strchr (c :: type) ","%char) as [k|] eqn:Ek; [|reflexivity].
  pose proof (strchr_bound _ _ _ Ek) as Hk.
  assert (Hs : List.length (skipn (S k) (c :: type))
               < List.length (c :: type))
    by (rewrite length_skipn; simpl in *; lia).
  remember (skipn (S k) (c :: type)) as next.
  simpl in H, H', Hs.
  rewrite (IH fuel' next) by lia.
  reflexivity.
Qed.

End Turns.

(* ================================================================== *)
(** ** The name functions of subtitles.c *)
(* ================================================================== *)

Module NameParts.

Import Subtitles Props CLibFacts SearchFacts NormalizerFacts.

Lemma squeeze_length (s : cstring) :
  forall st,
    List.length (squeeze st s)
    <= List.length s + match st with InGap => 1 | _ => 0 end.
Proof.
  induction s as [|c s IH]; intros st; simpl; [lia|].
  destruct (isalnum c).
  - pose proof (IH InWord). destruct st; simpl in *; lia.
  - pose proof (IH AtStart). pose proof (IH InGap).
    destruct st; simpl in *; lia.
Qed.

Lemma strrchr_bound (s : cstring) (c : ascii) :
  forall k, strrchr s c = Some k -> k < List.length s.
Proof.
  induction s as [|x s IH]; simpl; [discriminate|].
  intros k. destruct (strrchr s c) as [i|].
  - intros H. injection H as <-. specialize (IH i eq_refl). lia.
  - destruct (Ascii.eqb x c); [|discriminate].
    intros H. injection H as <-. lia.
Qed.

(** What [strrchr] finds: the character at the offset is [c] and none
    behind it is. *)
Lemma strrchr_split (s : cstring) (c : ascii) :
  forall k, strrchr s c = Some k ->
            s = firstn k s ++ c :: skipn (S k) s
            /\ forallb (fun x => negb (Ascii.eqb x c)) (skipn (S k) s) = true.
Proof.
  induction s as [|x s IH]; simpl; [discriminate|].
  intros k. destruct (strrchr s c) as [i|] eqn:E.
  - intros H. injection H as <-. destruct (IH i eq_refl) as [H1 H2].
    simpl. split; [now f_equal|exact H2].
  - destruct (Ascii.eqb x c) eqn:Ex; [|discriminate].
    intros H. injection H as <-. apply Ascii.eqb_eq in Ex. subst x.
    simpl. split; [reflexivity|].
    clear IH. revert E. induction s as [|y s IHs]; simpl; [reflexivity|].
    destruct (strrchr s c); [discriminate|].
    destruct (Ascii.eqb y c); [discriminate|]. intros _. simpl. now apply IHs.
Qed.

(** X1.  The copies [subtitles_Detect] makes of a name fit the buffers
    of [strlen (name) + 1] bytes it gives them: the name without its
    extension, the extension, the trimmed name and the normalized name
    are each no longer than the name. *)
Theorem name_copies_fit :
  forall s : cstring,
    strlen (strcpy_strip_ext s) <= strlen s
    /\ strlen (strcpy_get_ext s) <= strlen s
    /\ strlen (strcpy_trim s) <= strlen s
    /\ strlen (strcpy_trim (strcpy_strip_ext s)) <= strlen s.
Proof.
  intros s. unfold strlen.
  assert (T : forall t, List.length (strcpy_trim t) <= List.length t).
  { intros t. rewrite strcpy_trim_squeeze.
    pose proof (squeeze_length t AtStart). simpl in *. lia. }
  assert (E : List.length (strcpy_strip_ext s) <= List.length s).
  { unfold strcpy_strip_ext. destruct (strrchr s "."%char); [|lia].
    rewrite length_map, length_firstn. lia. }
  repeat split; auto.
  - unfold strcpy_get_ext.
    destruct (strrchr s "."%char); [rewrite length_skipn|simpl]; lia.
  - etransitivity; [apply T|exact E].
Qed.

(** X2.  The two halves of a name.  A name with no dot is its own base
    name, unchanged, and has the empty extension.  A name with a dot is,
    in lower case, the base name [strcpy_strip_ext] returns, a dot and
    the extension [strcpy_get_ext] returns, which has no dot; and a
    name built from a base name and an extension without dot gives them
    back. *)
Theorem name_halves :
  forall s N e : cstring,
    (strrchr s "."%char = None ->
     strcpy_strip_ext s = s /\ strcpy_get_ext s = [])
    /\ (strrchr s "."%char <> None ->
        map tolower s
        = strcpy_strip_ext s ++ "."%char :: map tolower (strcpy_get_ext s)
        /\ nodot (strcpy_get_ext s) = true)
    /\ (nodot e = true ->
        strcpy_strip_ext (file_name N e) = map tolower N
        /\ strcpy_get_ext (file_name N e) = e).
Proof.
  intros s N e. unfold strcpy_strip_ext, strcpy_get_ext. split; [|split].
  - intros ->. split; reflexivity.
  - destruct (strrchr s "."%char) as [k|] eqn:E; [|intros H; now elim H].
    intros _. destruct (strrchr_split s "."%char k E) as [H1 H2].
    split; [|exact H2].
    rewrite H1 at 1. rewrite map_app. reflexivity.
  - intros He. unfold file_name.
    rewrite (strrchr_app N e "."%char He).
    rewrite firstn_app, Nat.sub_diag, firstn_all, app_nil_r.
    split; [reflexivity|].
    clear. induction N as [|x N IH]; simpl; [reflexivity|exact IH].
Qed.

(** The theorem at the name "Movie.Name.SRT". *)
Lemma name_halves_witness :
  map tolower (cs "Movie.Name.SRT")
  = strcpy_strip_ext (cs "Movie.Name.SRT")
    ++ "."%char :: map tolower (strcpy_get_ext (cs "Movie.Name.SRT"))
  /\ nodot (strcpy_get_ext (cs "Movie.Name.SRT")) = true.
Proof.
  apply (name_halves (cs "Movie.Name.SRT") [] []). discriminate.
Defined.

Lemma squeeze_start_white (s : cstring) :
  squeeze AtStart s = [] <-> whiteonly s = true.
Proof.
  induction s as [|c s IH]; simpl; [tauto|].
  destruct (isalnum c); [split; discriminate|exact IH].
Qed.

(** X3.  A name normalizes to the empty string exactly when it has no
    alphanumeric character: [strcpy_trim] returns the empty string on
    the strings [whiteonly] accepts, and on no other. *)
Theorem blank_names :
  forall s : cstring, strcpy_trim s = [] <-> whiteonly s = true.
Proof.
  intros s. rewrite strcpy_trim_squeeze. apply squeeze_start_white.
Qed.

End NameParts.

(* ================================================================== *)
(** ** The extension tests of the two files *)
(* ================================================================== *)

Module Extensions.

Import Subtitles Directory Props CLibFacts SearchFacts.

Lemma strcasecmp_map (a : cstring) :
  forall b, strcasecmp a b = strcmp (map tolower a) (map tolower b).
Proof.
  induction a as [|x a IH]; intros [|y b]; simpl; try reflexivity.
  now rewrite IH.
Qed.

Lemma no_nul_lower (s : cstring) :
  no_nul s = true -> no_nul (map tolower s) = true.
Proof. apply SlaveScoreFacts.no_nul_map_tolower. Qed.

(** Case-insensitive equality, as [strcasecmp] decides it. *)
Lemma strcasecmp_zero (a b : cstring) :
  no_nul a = true -> no_nul b = true ->
  ((strcasecmp a b =? 0)%Z = true <-> map tolower a = map tolower b).
Proof.
  intros Ha Hb. rewrite strcasecmp_map.
  apply strcmp_zero_iff; now apply no_nul_lower.
Qed.

Lemma starts_with_iff (n : cstring) :
  forall h, starts_with n h = true <-> exists t, h = n ++ t.
Proof.
  intros h. split.
  - intros H. eexists. now apply starts_with_split.
  - intros [t ->]. apply starts_with_app.
Qed.

Lemma starts_with_same_length (n : cstring) :
  forall h, List.length n = List.length h ->
            (starts_with n h = true <-> n = h).
Proof.
  induction n as [|x n IH]; intros [|y h] L; simpl in *; try discriminate;
    [tauto|].
  rewrite andb_true_iff, Ascii.eqb_eq, (IH h) by lia.
  split; [intros [-> ->]; reflexivity|intros E; injection E; auto].
Qed.

(** [strncasecmp] over the length of its first argument tests whether
    it is an initial segment of the second, case apart. *)
Lemma strncasecmp_prefix (a : cstring) :
  forall b, no_nul a = true ->
            (strncasecmp a b (List.length a) =? 0)%Z
            = starts_with (map tolower a) (map tolower b).
Proof.
  induction a as [|x a IH]; intros b Ha; [reflexivity|].
  simpl in Ha. apply andb_prop in Ha as [Hx Ha].
  destruct b as [|y b]; simpl.
  - destruct (Ascii.eqb x zero) eqn:E; [discriminate|].
    apply SlaveScoreFacts.tolower_keeps_not_nul in E.
    apply Ascii.eqb_neq in E.
    pose proof (code_nonzero_of_neq _ E) as Hc.
    destruct (Z.of_N (code (tolower x)) =? 0)%Z eqn:Ez; [|reflexivity].
    apply Z.eqb_eq in Ez. lia.
  - destruct (Ascii.eqb (tolower x) (tolower y)) eqn:E; simpl.
    + now apply IH.
    + apply Ascii.eqb_neq in E. pose proof (code_pos_neq _ _ E) as Hc.
      destruct (_ =? 0)%Z eqn:Ez; [|reflexivity].
      apply Z.eqb_eq in Ez. now elim Hc.
Qed.

Lemma strncasecmp_firstn (n : nat) :
  forall a b, strncasecmp a b n = strncasecmp a (firstn n b) n.
Proof.
  induction n as [|n IH]; intros a b; [now destruct a|].
  destruct a as [|x a], b as [|y b]; simpl; try reflexivity.
  now rewrite IH.
Qed.

(** The table of subtitles.c is the table of directory.c, followed by
    its empty terminator, and the extensions are in lower case. *)
Lemma sub_exts_same : sub_exts = ppsz_sub_exts ++ [[]].
Proof. reflexivity. Qed.

Lemma listed_lower (e : cstring) :
  In e (ppsz_sub_exts ++ ppsz_audio_exts) ->
  map tolower e = e /\ e <> [] /\ no_nul e = true.
Proof.
  intros H. unfold ppsz_sub_exts, ppsz_audio_exts in H. simpl in H.
  repeat (destruct H as [<-|H];
          [split; [reflexivity|split; [discriminate|reflexivity]]|]).
  contradiction.
Qed.

Lemma filter_loop_exists (tmp : cstring) (l : list cstring) :
  Forall (fun e => e <> []) l ->
  filter_loop (l ++ [[]]) tmp
  = existsb (fun e => (strcasecmp e tmp =? 0)%Z) l.
Proof.
  induction 1 as [|e l He Hl IH]; simpl; [reflexivity|].
  destruct e as [|c e]; [now elim He|]. now rewrite IH.
Qed.

Lemma sub_exts_nonempty : Forall (fun e : cstring => e <> []) ppsz_sub_exts.
Proof.
  apply Forall_forall. intros e He.
  apply (listed_lower e). apply in_or_app. now left.
Qed.

(** X4.  [subtitles_Filter] accepts a name exactly when the name has a
    dot and what follows its last dot is, in lower case, one of the
    twenty-three subtitle extensions: the whole extension is compared,
    case apart. *)
Theorem subtitles_Filter_exact :
  forall name : cstring,
    no_nul name = true ->
    (subtitles_Filter name = true <->
     strrchr name "."%char <> None /\ In (lower_ext name) ppsz_sub_exts).
Proof.
  intros name Hn. unfold subtitles_Filter, lower_ext.
  destruct (strrchr name "."%char) as [i|];
    [|split; [discriminate|intros [H _]; now elim H]].
  rewrite sub_exts_same, (filter_loop_exists _ _ sub_exts_nonempty).
  rewrite existsb_exists.
  assert (Ht : no_nul (skipn (S i) name) = true)
    by now apply SlaveScoreFacts.no_nul_skipn.
  split.
  - intros (e & He & Hc).
    destruct (listed_lower e (in_or_app _ _ _ (or_introl He)))
      as (Hl & _ & Hz).
    apply (strcasecmp_zero e _ Hz Ht) in Hc. rewrite Hl in Hc.
    split; [discriminate|]. now rewrite <- Hc.
  - intros [_ He].
    exists (map tolower (skipn (S i) name)). split; [exact He|].
    destruct (listed_lower _ (in_or_app _ _ _ (or_introl He)))
      as (Hl & _ & Hz).
    apply (strcasecmp_zero _ _ Hz Ht). now rewrite Hl.
Qed.

(** The theorem at the name "Movie.SRT". *)
Lemma subtitles_Filter_exact_witness :
  subtitles_Filter (cs "Movie.SRT") = true <->
  strrchr (cs "Movie.SRT") "."%char <> None
  /\ In (lower_ext (cs "Movie.SRT")) ppsz_sub_exts.
Proof. exact (subtitles_Filter_exact (cs "Movie.SRT") eq_refl). Defined.

Lemma existsb_same {A : Type} (f g : A -> bool) (l : list A) :
  (forall x, In x l -> f x = g x) -> existsb f l = existsb g l.
Proof.
  induction l as [|x l IH]; intros H; simpl; [reflexivity|].
  rewrite (H x (or_introl eq_refl)), IH; [reflexivity|].
  intros y Hy. apply H. now right.
Qed.

Lemma ext_listed_exists (psz_ext : cstring) (n : nat) (exts : list cstring) :
  ext_listed psz_ext n exts
  = existsb (fun e => (strncasecmp psz_ext e n =? 0)%Z) exts.
Proof.
  induction exts as [|e exts IH]; simpl; [reflexivity|].
  now rewrite IH.
Qed.

(** The test of [is_slave] on one table: the extension, in lower case,
    is an initial segment of a listed extension. *)
Lemma ext_listed_prefix (psz_ext : cstring) (exts : list cstring) :
  no_nul psz_ext = true ->
  (forall e, In e exts -> In e (ppsz_sub_exts ++ ppsz_audio_exts)) ->
  ext_listed psz_ext (strlen psz_ext) exts
  = existsb (starts_with (map tolower psz_ext)) exts.
Proof.
  intros Hz Hin. rewrite ext_listed_exists. apply existsb_same.
  intros e He. unfold strlen. rewrite (strncasecmp_prefix _ _ Hz).
  now destruct (listed_lower e (Hin e He)) as [-> _].
Qed.

(** [is_slave] by the extension in lower case. *)
Lemma is_slave_rule (name : cstring) :
  no_nul name = true ->
  is_slave name =
  match lower_ext name with
  | [] => None
  | _ :: _ =>
      if existsb (starts_with (lower_ext name)) ppsz_sub_exts
      then Some SLAVE_TYPE_SPU
      else if starts_with (lower_ext name) (cs "ac3")
           then Some SLAVE_TYPE_AUDIO
           else None
  end.
Proof.
  intros Hn. unfold is_slave, lower_ext.
  destruct (strrchr name "."%char) as [i|]; [|reflexivity].
  assert (Ht : no_nul (skipn (S i) name) = true)
    by now apply SlaveScoreFacts.no_nul_skipn.
  destruct (skipn (S i) name) as [|c ext] eqn:E; [reflexivity|].
  change (Nat.eqb (strlen (c :: ext)) 0) with false. cbv iota.
  unfold p_slave_list. cbn [slave_lookup].
  rewrite !(ext_listed_prefix _ _ Ht).
  - cbn [existsb ppsz_audio_exts map]. rewrite orb_false_r. reflexivity.
  - intros e He. apply in_or_app. now right.
  - intros e He. apply in_or_app. now left.
Qed.

(** X5.  [is_slave] classifies a name by an initial segment: a name is
    a subtitle slave exactly when its extension is not empty and is,
    case apart, the beginning of a listed subtitle extension; it is an
    audio slave exactly when its extension is not empty, begins no
    subtitle extension and begins "ac3"; a name with no dot or nothing
    behind its last dot is no slave. *)
Theorem is_slave_by_prefix :
  forall name : cstring,
    no_nul name = true ->
    (is_slave name = Some SLAVE_TYPE_SPU <->
     lower_ext name <> []
     /\ exists e tail, In e ppsz_sub_exts /\ e = lower_ext name ++ tail)
    /\ (is_slave name = Some SLAVE_TYPE_AUDIO <->
        lower_ext name <> []
        /\ (forall e tail, In e ppsz_sub_exts -> e <> lower_ext name ++ tail)
        /\ exists tail, cs "ac3" = lower_ext name ++ tail)
    /\ (lower_ext name = [] -> is_slave name = None).
Proof.
  intros name Hn. rewrite (is_slave_rule name Hn).
  destruct (lower_ext name) as [|c ext] eqn:E.
  { split; [|split]; try reflexivity;
      (split; [discriminate|intros [H _]; now elim H]). }
  destruct (existsb (starts_with (c :: ext)) ppsz_sub_exts) eqn:Es.
  - apply existsb_exists in Es as (e & He & Hp).
    apply starts_with_iff in Hp as [tail Ht].
    split; [|split]; [| |discriminate].
    + split; [intros _|reflexivity]. split; [discriminate|eauto].
    + split; [discriminate|]. intros (_ & Hno & _).
      now elim (Hno e tail He).
  - assert (Hno : forall e tail, In e ppsz_sub_exts ->
                                 e <> (c :: ext) ++ tail).
    { intros e tail He Ht.
      assert (existsb (starts_with (c :: ext)) ppsz_sub_exts = true);
        [|congruence].
      apply existsb_exists. exists e. split; [exact He|].
      apply starts_with_iff. eauto. }
    split; [|split]; [| |discriminate].
    + split; [now destruct (starts_with _ _)|].
      intros (_ & e & tail & He & Ht). now elim (Hno e tail He).
    + destruct (starts_with (c :: ext) (cs "ac3")) eqn:Ea.
      * apply starts_with_iff in Ea as [tail Ht].
        split; [intros _|reflexivity].
        split; [discriminate|]. split; [exact Hno|eauto].
      * split; [discriminate|]. intros (_ & _ & tail & Ht).
        assert (starts_with (c :: ext) (cs "ac3") = true); [|congruence].
        apply starts_with_iff. eauto.
Qed.

(** The theorem at the name "Movie.AC": an audio slave. *)
Lemma is_slave_by_prefix_witness :
  is_slave (cs "Movie.AC") = Some SLAVE_TYPE_AUDIO <->
  lower_ext (cs "Movie.AC") <> []
  /\ (forall e tail, In e ppsz_sub_exts ->
                     e <> lower_ext (cs "Movie.AC") ++ tail)
  /\ exists tail, cs "ac3" = lower_ext (cs "Movie.AC") ++ tail.
Proof.
  exact (proj1 (proj2 (is_slave_by_prefix (cs "Movie.AC") eq_refl))).
Defined.

(** X6.  Every name [subtitles_Filter] accepts is a subtitle slave for
    [is_slave]: what the single-sidecar scan takes for a subtitle file,
    the directory listing never lists as a playlist item. *)
Theorem filtered_is_slave :
  forall name : cstring,
    no_nul name = true ->
    subtitles_Filter name = true ->
    is_slave name = Some SLAVE_TYPE_SPU.
Proof.
  intros name Hn Hf. unfold subtitles_Filter in Hf.
  rewrite (is_slave_rule name Hn). unfold lower_ext in *.
  destruct (strrchr name "."%char) as [i|]; [|discriminate].
  rewrite sub_exts_same, (filter_loop_exists _ _ sub_exts_nonempty) in Hf.
  apply existsb_exists in Hf as (e & He & Hc).
  assert (Ht : no_nul (skipn (S i) name) = true)
    by now apply SlaveScoreFacts.no_nul_skipn.
  destruct (listed_lower e (in_or_app _ _ _ (or_introl He)))
    as (Hl & Hne & Hz).
  apply (strcasecmp_zero e _ Hz Ht) in Hc. rewrite Hl in Hc.
  rewrite <- Hc. destruct e as [|c e]; [now elim Hne|].
  assert (Hx : existsb (starts_with (c :: e)) ppsz_sub_exts = true).
  { apply existsb_exists. exists (c :: e). split; [exact He|].
    rewrite <- (app_nil_r (c :: e)) at 2. apply starts_with_app. }
  now rewrite Hx.
Qed.

(** The theorem at the name "Movie.SRT". *)
Lemma filtered_is_slave_witness :
  is_slave (cs "Movie.SRT") = Some SLAVE_TYPE_SPU.
Proof.
  exact (filtered_is_slave (cs "Movie.SRT") eq_refl eq_refl).
Defined.

(** *** [has_ext] *)

Lemma split_on_nonempty (c : ascii) (s : cstring) : split_on c s <> [].
Proof.
  destruct s as [|x s]; simpl; [discriminate|].
  destruct (Ascii.eqb x c); [discriminate|].
  now destruct (split_on c s).
Qed.

(** The first piece ends at the separator [strchr] finds. *)
Lemma split_on_strchr (c : ascii) (s : cstring) :
  split_on c s =
  match strchr s c with
  | Some k => firstn k s :: split_on c (skipn (S k) s)
  | None => [s]
  end.
Proof.
  induction s as [|x s IH]; simpl; [reflexivity|].
  destruct (Ascii.eqb x c); [reflexivity|].
  rewrite IH. now destruct (strchr s c).
Qed.

Lemma strchr_lt (s : cstring) (c : ascii) :
  forall k, strchr s c = Some k -> k < List.length s.
Proof. apply Turns.strchr_bound. Qed.

(** The loop of [has_ext] tests the entries of the list in turn. *)
Lemma has_ext_loop_entries (ext : cstring) (fuel : nat) :
  forall type,
    List.length type < fuel ->
    has_ext_loop fuel ext type = existsb (same_ext ext) (ext_entries type).
Proof.
  induction fuel as [|fuel IH]; intros type H; [lia|].
  destruct type as [|c t]; [reflexivity|].
  unfold ext_entries. rewrite split_on_strchr. cbn [has_ext_loop].
  destruct (strchr (c :: t) ","%char) as [k|] eqn:Ek.
  - pose proof (strchr_lt _ _ _ Ek) as Hk.
    assert (Hs : List.length (skipn (S k) (c :: t)) < fuel)
      by (rewrite length_skipn; simpl in *; lia).
    rewrite (IH _ Hs). unfold ext_entries.
    pose proof (split_on_nonempty ","%char (skipn (S k) (c :: t))) as Hne.
    destruct (split_on ","%char (skipn (S k) (c :: t))) as [|q qs];
      [now elim Hne|].
    assert (Ed : drop_last_empty (firstn k (c :: t) :: q :: qs)
                 = firstn k (c :: t) :: drop_last_empty (q :: qs))
      by (now destruct (firstn k (c :: t))).
    rewrite Ed. cbn [existsb].
    assert (Et : Nat.eqb (strlen ext) k
                 && (strncasecmp ext (c :: t) (strlen ext) =? 0)%Z
                 = same_ext ext (firstn k (c :: t))).
    { unfold same_ext, strlen. rewrite length_firstn, Nat.min_l by lia.
      destruct (Nat.eqb (List.length ext) k) eqn:E; [|reflexivity].
      apply Nat.eqb_eq in E. subst k. simpl.
      now rewrite (strncasecmp_firstn (List.length ext) ext (c :: t)). }
    rewrite Et. now destruct (same_ext ext (firstn k (c :: t))).
  - cbn [drop_last_empty existsb]. rewrite orb_false_r.
    unfold same_ext. now destruct (_ && _).
Qed.

Lemma same_ext_iff (ext entry : cstring) :
  no_nul ext = true ->
  (same_ext ext entry = true <-> map tolower entry = map tolower ext).
Proof.
  intros Hz. unfold same_ext, strlen.
  rewrite andb_true_iff, Nat.eqb_eq, (strncasecmp_prefix ext entry Hz).
  split.
  - intros [L H]. symmetry. apply starts_with_same_length; [|exact H].
    now rewrite !length_map.
  - intros E. split.
    + apply (f_equal (@List.length ascii)) in E.
      now rewrite !length_map in E.
    + rewrite E. rewrite <- (app_nil_r (map tolower ext)) at 2.
      apply starts_with_app.
Qed.

(** X7.  [has_ext] accepts a name exactly when the name has a dot and
    what follows its last dot is, case apart, one of the entries of the
    comma separated list: the whole extension is compared.  An empty
    entry between two commas matches the name that ends with a dot, the
    empty end of a list matches nothing, and without a list nothing is
    accepted. *)
Theorem has_ext_exact :
  forall (exts uri : cstring),
    no_nul uri = true ->
    (has_ext (Some exts) uri = true <->
     strrchr uri "."%char <> None
     /\ exists entry, In entry (ext_entries exts)
                      /\ map tolower entry = lower_ext uri)
    /\ has_ext None uri = false
    /\ ext_entries (cs "avi,,mkv,") = [cs "avi"; []; cs "mkv"].
Proof.
  intros exts uri Hn. split; [|split; reflexivity].
  unfold has_ext, lower_ext.
  destruct (strrchr uri "."%char) as [i|];
    [|split; [discriminate|intros [H _]; now elim H]].
  assert (Ht : no_nul (skipn (S i) uri) = true)
    by now apply SlaveScoreFacts.no_nul_skipn.
  rewrite has_ext_loop_entries by (unfold strlen; lia).
  rewrite existsb_exists. split.
  - intros (entry & He & Hs). split; [discriminate|].
    exists entry. split; [exact He|]. now apply same_ext_iff.
  - intros (_ & entry & He & Hs).
    exists entry. split; [exact He|]. now apply same_ext_iff.
Qed.

(** The theorem at the name "clip.MKV" and the list "avi,mkv". *)
Lemma has_ext_exact_witness :
  has_ext (Some (cs "avi,mkv")) (cs "clip.MKV") = true <->
  strrchr (cs "clip.MKV") "."%char <> None
  /\ exists entry, In entry (ext_entries (cs "avi,mkv"))
                   /\ map tolower entry = lower_ext (cs "clip.MKV").
Proof.
  exact (proj1 (has_ext_exact (cs "avi,mkv") (cs "clip.MKV") eq_refl)).
Defined.

End Extensions.

(* ================================================================== *)
(** ** The list of search paths *)
(* ================================================================== *)

Module SearchPaths.

Import Subtitles Props.

Lemma split_on_skip_spaces (s : cstring) :
  split_on ","%char (Subtitles.skip_spaces s)
  = match split_on ","%char s with
    | [] => []
    | q :: qs => Subtitles.skip_spaces q :: qs
    end.
Proof.
  induction s as [|x s IH]; [reflexivity|].
  cbn [Subtitles.skip_spaces].
  destruct (Ascii.eqb x " "%char) eqn:E.
  - apply Ascii.eqb_eq in E. subst x. rewrite IH. cbn [split_on].
    change (Ascii.eqb " " ",") with false. cbv iota.
    pose proof (Extensions.split_on_nonempty ","%char s) as Hne.
    destruct (split_on ","%char s) as [|q qs]; [now elim Hne|].
    reflexivity.
  - cbn [split_on]. destruct (Ascii.eqb x ","%char); [reflexivity|].
    pose proof (Extensions.split_on_nonempty ","%char s) as Hne.
    destruct (split_on ","%char s) as [|q qs]; [now elim Hne|].
    cbn [Subtitles.skip_spaces]. now rewrite E.
Qed.

(** The loop of [paths_to_list], started behind a comma, returns the
    pieces that are not empty. *)
Lemma paths_loop_pieces (psz_dir : cstring) (fuel : nat) :
  forall s,
    List.length s < fuel ->
    paths_loop fuel psz_dir (Some s)
    = map (with_dir psz_dir) (filter nonempty (path_pieces s)).
Proof.
  induction fuel as [|fuel IH]; intros s H; [lia|].
  destruct s as [|c t]; [reflexivity|].
  unfold path_pieces. rewrite Extensions.split_on_strchr.
  cbn [paths_loop].
  destruct (strchr (c :: t) ","%char) as [k|] eqn:Ek.
  - pose proof (Turns.strchr_bound _ _ _ Ek) as Hk.
    pose proof (Turns.skip_spaces_length (skipn (S k) (c :: t))) as Hs.
    rewrite length_skipn in Hs.
    assert (Hn : List.length (Subtitles.skip_spaces (skipn (S k) (c :: t)))
                 < fuel) by (simpl in *; lia).
    rewrite (IH _ Hn). unfold path_pieces.
    rewrite split_on_skip_spaces.
    pose proof (Extensions.split_on_nonempty ","%char (skipn (S k) (c :: t)))
      as Hne.
    destruct (split_on ","%char (skipn (S k) (c :: t))) as [|q qs];
      [now elim Hne|].
    cbn [map filter].
    destruct (firstn k (c :: t)) as [|x sub]; reflexivity.
  - rewrite Turns.paths_loop_done. reflexivity.
Qed.

Lemma split_on_length (s : cstring) :
  List.length (split_on ","%char s) = i_nb_subdirs s.
Proof.
  induction s as [|x s IH]; simpl; [reflexivity|].
  destruct (Ascii.eqb x ","%char); simpl; [now rewrite IH|].
  pose proof (Extensions.split_on_nonempty ","%char s) as Hne.
  destruct (split_on ","%char s) as [|q qs]; [now elim Hne|].
  simpl in *. exact IH.
Qed.

(** X8.  [paths_to_list] returns the pieces of the list that stand
    between its commas, without the spaces that follow a comma and
    without the empty pieces, in their order; a piece that begins with a
    dot comes behind the directory of the movie, the others as they are.
    Without a directory or without a list it returns [NULL]. *)
Theorem paths_to_list_pieces :
  forall (psz_dir psz_path : cstring),
    paths_to_list (Some psz_dir) (Some psz_path)
    = Some (map (with_dir psz_dir) (filter nonempty (path_pieces psz_path)))
    /\ paths_to_list None (Some psz_path) = None
    /\ paths_to_list (Some psz_dir) None = None.
Proof.
  intros psz_dir psz_path. split; [|split; reflexivity].
  unfold paths_to_list. f_equal.
  apply paths_loop_pieces. unfold strlen. lia.
Qed.

(** X9.  The array [paths_to_list] allocates is large enough: it
    returns at most as many paths as it has counted, one more than the
    commas of the list, so that the paths and the [NULL] behind them fit
    the [i_nb_subdirs + 1] entries; and no path it returns is empty. *)
Theorem paths_to_list_fits :
  forall (psz_dir psz_path : cstring) (subdirs : list cstring),
    paths_to_list (Some psz_dir) (Some psz_path) = Some subdirs ->
    List.length subdirs <= i_nb_subdirs psz_path
    /\ Forall (fun d => d <> []) subdirs.
Proof.
  intros psz_dir psz_path subdirs H.
  unfold paths_to_list in H.
  rewrite paths_loop_pieces in H by (unfold strlen; lia).
  injection H as <-.
  split.
  - rewrite length_map, <- split_on_length.
    etransitivity; [apply filter_length_le|].
    unfold path_pieces.
    destruct (split_on ","%char psz_path); simpl; [lia|].
    now rewrite length_map.
  - apply Forall_forall. intros d Hd.
    apply in_map_iff in Hd as (sub & <- & Hs).
    apply filter_In in Hs as [_ Hs].
    unfold with_dir. destruct sub as [|x sub]; [discriminate|].
    intros E. apply app_eq_nil in E as [_ E]. discriminate.
Qed.

(** The theorem at the list "./subs, /srv/subs,,./x". *)
Lemma paths_to_list_fits_witness :
  List.length [cs "/d/./subs"; cs "/srv/subs"; cs "/d/./x"]
  <= i_nb_subdirs (cs "./subs, /srv/subs,,./x")
  /\ Forall (fun d : cstring => d <> [])
            [cs "/d/./subs"; cs "/srv/subs"; cs "/d/./x"].
Proof.
  exact (paths_to_list_fits (cs "/d/") (cs "./subs, /srv/subs,,./x")
                            [cs "/d/./subs"; cs "/srv/subs"; cs "/d/./x"]
                            eq_refl).
Defined.

End SearchPaths.

(* ================================================================== *)
(** ** What the scan of subtitles_Detect appends *)
(* ================================================================== *)

Module Found.

Import Subtitles Props.

Lemma detect_prio_range (p : cstring) (j : Z) (name : cstring) :
  (0 <= detect_prio p j name <= SLAVE_PRIORITY_MATCH_ALL)%Z.
Proof.
  unfold detect_prio.
  destruct (strcmp _ p =? 0)%Z; [vm_compute; split; discriminate|].
  destruct (strstr _ p).
  - destruct (whiteonly _); vm_compute; split; discriminate.
  - destruct (j =? -1)%Z; vm_compute; split; discriminate.
Qed.

Section Scan.

Variable h : host.
Variable t : Z.
Variables psz_fname f_fname_trim f_dir : cstring.
Variable dirs : list cstring.

Lemma detect_entry_appends (psz_dir : cstring) (j : Z)
      (names : list cstring) (st : scan_state) (name : cstring) :
  In psz_dir dirs -> vlc_opendir h psz_dir = Some names -> In name names ->
  exists found,
    fst (detect_entry h t psz_fname f_fname_trim psz_dir j st name)
    = fst st ++ found
    /\ Forall (candidate_of h t psz_fname f_fname_trim dirs) found.
Proof.
  intros Hd Ho Hn. unfold detect_entry. destruct st as [l io]. simpl.
  destruct (dot_first name) eqn:Edot; simpl;
    [exists []; rewrite app_nil_r; auto|].
  destruct (subtitles_Filter name) eqn:Ef; simpl;
    [|exists []; rewrite app_nil_r; auto].
  destruct (detect_prio f_fname_trim j name >=? t)%Z eqn:Et; simpl;
    [|exists []; rewrite app_nil_r; auto].
  destruct (strcmp _ psz_fname =? 0)%Z eqn:Ec; simpl;
    [exists []; rewrite app_nil_r; auto|].
  destruct (vlc_stat_isreg h _) eqn:Er; simpl;
    [|exists []; rewrite app_nil_r; auto].
  eexists [_]. split; [reflexivity|]. constructor; [|constructor].
  pose proof (detect_prio_range f_fname_trim j name) as [R0 R4].
  assert (Em : (detect_prio f_fname_trim j name mod 256
                = detect_prio f_fname_trim j name)%Z).
  { apply Z.mod_small. unfold SLAVE_PRIORITY_MATCH_ALL in R4. lia. }
  exists psz_dir, name, names, j. simpl. rewrite Em.
  apply Z.geb_le in Et. repeat split; auto.
Qed.

Lemma detect_entries_append (psz_dir : cstring) (j : Z)
      (names : list cstring) :
  In psz_dir dirs -> vlc_opendir h psz_dir = Some names ->
  forall ns st,
    incl ns names ->
    exists found,
      fst (fold_left (detect_entry h t psz_fname f_fname_trim psz_dir j)
                     ns st)
      = fst st ++ found
      /\ Forall (candidate_of h t psz_fname f_fname_trim dirs) found.
Proof.
  intros Hd Ho. induction ns as [|n ns IH]; intros st Hi; simpl.
  - exists []. rewrite app_nil_r. auto.
  - destruct (detect_entry_appends psz_dir j names st n Hd Ho)
      as (f1 & E1 & F1); [apply Hi; now left|].
    destruct (IH (detect_entry h t psz_fname f_fname_trim psz_dir j st n))
      as (f2 & E2 & F2); [intros x Hx; apply Hi; now right|].
    exists (f1 ++ f2). rewrite E2, E1, app_assoc.
    split; [reflexivity|]. apply Forall_app. auto.
Qed.

Lemma detect_dir_appends (j : Z) (psz_dir : cstring) (st : scan_state) :
  In psz_dir dirs ->
  exists found,
    fst (detect_dir h t psz_fname f_fname_trim f_dir j psz_dir st)
    = fst st ++ found
    /\ Forall (candidate_of h t psz_fname f_fname_trim dirs) found.
Proof.
  intros Hd. unfold detect_dir.
  destruct ((0 <=? j)%Z && (strcmp psz_dir f_dir =? 0)%Z);
    [exists []; rewrite app_nil_r; auto|].
  destruct (vlc_opendir h psz_dir) as [names|] eqn:Ho;
    [|exists []; simpl; rewrite app_nil_r; auto].
  exact (detect_entries_append psz_dir j names Hd Ho names (fst st, _)
                               (incl_refl names)).
Qed.

Lemma detect_subdirs_append (subdirs : list cstring) :
  incl subdirs dirs ->
  forall j st,
    exists found,
      fst (detect_subdirs h t psz_fname f_fname_trim f_dir j subdirs st)
      = fst st ++ found
      /\ Forall (candidate_of h t psz_fname f_fname_trim dirs) found.
Proof.
  induction subdirs as [|d ds IH]; intros Hi j st; simpl.
  - exists []. rewrite app_nil_r. auto.
  - destruct (detect_dir_appends j d st) as (f1 & E1 & F1);
      [apply Hi; now left|].
    destruct (IH (fun x Hx => Hi x (or_intror Hx)) (j + 1)%Z
                 (detect_dir h t psz_fname f_fname_trim f_dir j d st))
      as (f2 & E2 & F2).
    exists (f1 ++ f2). rewrite E2, E1, app_assoc.
    split; [reflexivity|]. apply Forall_app. auto.
Qed.

End Scan.

(** The collector: the list it leaves is the list it was given
    followed by candidates of the searched directories. *)
Lemma detect_collect_appends (h : host) (t : Z) (paths : option cstring)
      (psz_fname : cstring) (k : nat) (p_result : subtitle_list) :
  exists found,
    fst (detect_collect h t paths psz_fname (skipn (S k) psz_fname)
                        (firstn (S k) psz_fname) p_result)
    = p_result ++ found
    /\ Forall (candidate_of h t psz_fname
                            (normalize (skipn (S k) psz_fname))
                            (searched_dirs paths psz_fname k))
              found.
Proof.
  set (f_dir := firstn (S k) psz_fname).
  set (trim := normalize (skipn (S k) psz_fname)).
  set (dirs := searched_dirs paths psz_fname k).
  unfold detect_collect.
  destruct (detect_dir_appends h t psz_fname trim f_dir dirs (-1) f_dir
                               (p_result, []))
    as (f1 & E1 & F1); [now left|].
  fold f_dir in E1. simpl in E1.
  unfold dirs, searched_dirs. fold f_dir.
  destruct (paths_to_list (Some f_dir) paths) as [subdirs|] eqn:Ep.
  - destruct (detect_subdirs_append
                h t psz_fname trim f_dir (f_dir :: subdirs) subdirs
                (fun x Hx => or_intror Hx) 0%Z
                (detect_dir h t psz_fname trim f_dir (-1) f_dir
                            (p_result, [])))
      as (f2 & E2 & F2).
    exists (f1 ++ f2). unfold trim, normalize in *.
    rewrite E2, E1, app_assoc. split; [reflexivity|].
    apply Forall_app. split; [|exact F2].
    unfold dirs, searched_dirs in F1. fold f_dir in F1.
    now rewrite Ep in F1.
  - exists f1. unfold trim, normalize in *. rewrite E1.
    split; [reflexivity|].
    unfold dirs, searched_dirs in F1. fold f_dir in F1.
    now rewrite Ep in F1.
Qed.

(** What [subtitles_Detect] leaves when it gets as far as the scan: the
    list of the resolver run on that of the collector. *)
Lemma subtitles_Detect_scanned (p_this : vlc_vars) (h : host)
      (paths : option cstring) (name_org psz_fname : cstring) (k : nat)
      (p_result : subtitle_list) :
  to_int (sub_autodetect_fuzzy p_this) <> 0%Z ->
  vlc_uri2path h name_org = Some psz_fname ->
  strrchr psz_fname "/"%char = Some k ->
  let run := subtitles_Detect p_this h paths (Some name_org) p_result in
  let collected :=
    fst (detect_collect h (to_int (sub_autodetect_fuzzy p_this)) paths
                        psz_fname
                        (skipn (S k) psz_fname) (firstn (S k) psz_fname)
                        p_result) in
  dr_result run = fst (resolve_conflicts collected)
  /\ dr_fault run = snd (resolve_conflicts collected)
  /\ dr_status run
     = match snd (resolve_conflicts collected) with
       | Completed => Some VLC_SUCCESS
       | Faulted _ => None
       end.
Proof.
  intros Hz Hu Hk. unfold subtitles_Detect.
  apply Z.eqb_neq in Hz. rewrite Hz, Hu, Hk.
  destruct (detect_collect _ _ _ _ _ _ _) as [collected io]. simpl.
  now destruct (resolve_conflicts collected) as [l [|f]].
Qed.

(** In the directory of the movie, which keeps its separator, the
    path of an entry has two separators where the movie's has one. *)
Lemma own_directory_path (psz_fname : cstring) (k : nat) (name : cstring) :
  strrchr psz_fname "/"%char = Some k ->
  firstn (S k) psz_fname ++ cs "/" ++ name <> psz_fname.
Proof.
  intros Hk E.
  destruct (NameParts.strrchr_split psz_fname "/"%char k Hk) as [_ Hs].
  assert (E' : firstn (S k) psz_fname ++ cs "/" ++ name
               = firstn (S k) psz_fname ++ skipn (S k) psz_fname)
    by (rewrite firstn_skipn; exact E).
  apply app_inv_head in E'. rewrite <- E' in Hs. discriminate Hs.
Qed.

Lemma own_directory_strcmp (psz_fname : cstring) (k : nat) (name : cstring) :
  strrchr psz_fname "/"%char = Some k ->
  no_nul psz_fname = true -> no_nul name = true ->
  (strcmp (firstn (S k) psz_fname ++ cs "/" ++ name) psz_fname =? 0)%Z
  = false.
Proof.
  intros Hk Hf Hn.
  destruct (strcmp _ psz_fname =? 0)%Z eqn:E; [|reflexivity].
  exfalso. apply SearchFacts.strcmp_zero_iff in E; [| |exact Hf].
  - exact (own_directory_path psz_fname k name Hk E).
  - pose proof (SlaveScoreFacts.no_nul_firstn (S k) psz_fname Hf) as H1.
    unfold no_nul in *. rewrite !forallb_app, H1. simpl. exact Hn.
Qed.

(** X10.  What [subtitles_Detect] appends.  For a threshold that, as
    stored in the [int], is not zero, and a movie path with a directory,
    the list it leaves is the list it was given followed by the
    candidates found, with the same paths and priorities (the resolver
    changes flags only); and each candidate found is a file of a
    searched directory that could be read, whose name has a subtitle
    extension and no dot in front, that is a regular file and whose
    path, made of the directory, a separator and the name, is not the
    string of the movie's path, with the priority of its name, which is
    at least the stored threshold and at most MatchAll.  The test on
    the path compares strings: in the directory of the movie, which
    keeps its separator, no path equals the movie's, so that the movie
    is not kept from being its own candidate. *)
Theorem appended_candidates :
  forall (p_this : vlc_vars) (h : host) (paths : option cstring)
         (name_org psz_fname : cstring) (k : nat)
         (p_result : subtitle_list),
    to_int (sub_autodetect_fuzzy p_this) <> 0%Z ->
    vlc_uri2path h name_org = Some psz_fname ->
    strrchr psz_fname "/"%char = Some k ->
    let run := subtitles_Detect p_this h paths (Some name_org) p_result in
    let i_fuzzy := to_int (sub_autodetect_fuzzy p_this) in
    (exists found,
        map psz_path (dr_result run)
        = map psz_path p_result ++ map psz_path found
        /\ map i_priority (dr_result run)
           = map i_priority p_result ++ map i_priority found
        /\ Forall (candidate_of h i_fuzzy psz_fname
                                (normalize (skipn (S k) psz_fname))
                                (searched_dirs paths psz_fname k))
                  found)
    /\ (forall name,
           no_nul psz_fname = true -> no_nul name = true ->
           (strcmp (firstn (S k) psz_fname ++ cs "/" ++ name) psz_fname
            =? 0)%Z = false).
Proof.
  intros p_this h paths name_org psz_fname k p_result Hz Hu Hk run i_fuzzy.
  split; [|intros name; now apply own_directory_strcmp].
  destruct (detect_collect_appends h i_fuzzy paths psz_fname k p_result)
    as (found & Ec & Fc).
  exists found.
  destruct (subtitles_Detect_scanned p_this h paths name_org psz_fname k
                                     p_result Hz Hu Hk) as (Er & _).
  pose proof (Resolver.resolve_from_framed
                (List.length (p_result ++ found)) 0 (p_result ++ found)) as F.
  apply Resolver.Forall2_framed_map in F as (P & Q & _).
  unfold run. rewrite Er. fold i_fuzzy. rewrite Ec. unfold resolve_conflicts.
  rewrite P, Q, !map_app. repeat split; auto.
Qed.

(** The theorem at the movie "/d/movie.srt", which is found as
    "/d//movie.srt". *)
Lemma appended_candidates_witness :
  (strcmp (firstn 3 (cs "/d/movie.srt") ++ cs "/" ++ cs "movie.srt")
          (cs "/d/movie.srt") =? 0)%Z = false
  /\ map psz_path
         (dr_result (subtitles_Detect
                       (config 1 false)
                       (dir_host (cs "/d/") [cs "movie.srt"])
                       None (Some (cs "/d/movie.srt")) []))
     = [Some (cs "/d//movie.srt")].
Proof.
  split; [|reflexivity].
  refine (proj2 (appended_candidates
                   (config 1 false) (dir_host (cs "/d/") [cs "movie.srt"])
                   None (cs "/d/movie.srt") (cs "/d/movie.srt") 2 []
                   _ eq_refl eq_refl)
                (cs "movie.srt") eq_refl eq_refl).
  discriminate.
Defined.

End Found.

(* ================================================================== *)
(** ** When the conflict resolver completes *)
(* ================================================================== *)

Module Pairing.

Import Subtitles Props.

(** The scan for an index file reads the paths only. *)
Lemma pair_scan_paths (path : cstring) :
  forall l l' j,
    map psz_path l = map psz_path l' ->
    pair_scan path j l = pair_scan path j l'.
Proof.
  induction l as [|a l IH]; intros [|b l'] j H; simpl in *;
    try discriminate; [reflexivity|].
  injection H as E1 E2. rewrite E1.
  destruct (psz_path b) as [inner|]; [|reflexivity].
  destruct (negb _); [now apply IH|].
  destruct (strrchr inner "."%char); [|now apply IH].
  destruct (_ =? 0)%Z; [reflexivity|now apply IH].
Qed.

(** Over candidates with a path the scan ends by [break] when there is
    an index file, and past the last entry when there is none. *)
Lemma pair_scan_given (s : subtitle) (path : cstring) :
  psz_path s = Some path ->
  forall rest j,
    forallb given rest = true ->
    pair_scan path j rest
    = if existsb (partner s) rest then Paired
      else ScanFault (ReadPastEnd (j + List.length rest)).
Proof.
  intros Hs. induction rest as [|a rest IH]; intros j Hg; simpl.
  - now rewrite Nat.add_0_r.
  - simpl in Hg. apply andb_true_iff in Hg as [Ga Gr].
    unfold partner at 1. unfold has_extension. unfold given in Ga.
    rewrite Hs.
    destruct (psz_path a) as [inner|]; [|discriminate].
    destruct (strncasecmp path inner (strlen path - 3) =? 0)%Z; simpl.
    + destruct (strrchr inner "."%char) as [k|]; simpl.
      * destruct (_ =? 0)%Z; simpl; [reflexivity|].
        rewrite (IH (S j) Gr). now rewrite Nat.add_succ_r.
      * rewrite (IH (S j) Gr). now rewrite Nat.add_succ_r.
    + rewrite (IH (S j) Gr). now rewrite Nat.add_succ_r.
Qed.

Lemma reject_at_middle (pre : subtitle_list) (s : subtitle)
      (rest : subtitle_list) :
  reject_at (List.length pre) (pre ++ s :: rest)
  = pre ++ set_rejected s :: rest.
Proof. induction pre as [|a pre IH]; simpl; [reflexivity|now rewrite IH]. Qed.

(** One turn of the resolver on a candidate with a path, in a list
    whose paths are those of [l0]. *)
Lemma resolve_one_given (l0 pre : subtitle_list) (s : subtitle)
      (rest : subtitle_list) :
  forallb given l0 = true -> given s = true ->
  map psz_path (pre ++ s :: rest) = map psz_path l0 ->
  resolve_one (pre ++ s :: rest) (List.length pre) s
  = if paired l0 s then (pre ++ settle s :: rest, Completed)
    else (pre ++ s :: rest, Faulted (ReadPastEnd (List.length l0))).
Proof.
  intros G0 Gs Hp. unfold resolve_one, paired, settle, has_extension.
  unfold given in Gs.
  destruct (psz_path s) as [path|] eqn:Es; [|discriminate].
  destruct (strrchr path "."%char) as [k|]; [|reflexivity].
  destruct (strcasecmp (skipn (S k) path) (cs "sub") =? 0)%Z;
    cbn [negb orb andb].
  - rewrite (pair_scan_paths path _ l0 0 Hp).
    rewrite (pair_scan_given s path Es l0 0 G0).
    destruct (existsb (partner s) l0);
      [now rewrite reject_at_middle|reflexivity].
  - destruct (strcasecmp (skipn (S k) path) (cs "cdg") =? 0)%Z;
      cbn [negb orb andb]; [|reflexivity].
    destruct (i_priority s <? SLAVE_PRIORITY_MATCH_ALL)%Z;
      [now rewrite reject_at_middle|reflexivity].
Qed.

Lemma settle_path (s : subtitle) : psz_path (settle s) = psz_path s.
Proof. unfold settle. now destruct (_ || _). Qed.

(** The loop from index [length pre] on. *)
Lemma resolve_from_given (l0 : subtitle_list) :
  forallb given l0 = true ->
  forall rest pre,
    forallb given rest = true ->
    map psz_path (pre ++ rest) = map psz_path l0 ->
    (forallb (paired l0) rest = true ->
     resolve_from (List.length rest) (List.length pre) (pre ++ rest)
     = (pre ++ map settle rest, Completed))
    /\ (forallb (paired l0) rest = false ->
        snd (resolve_from (List.length rest) (List.length pre)
                          (pre ++ rest))
        = Faulted (ReadPastEnd (List.length l0))).
Proof.
  intros G0. induction rest as [|s rest IH]; intros pre Gr Hp.
  - simpl. split; [reflexivity|discriminate].
  - simpl in Gr. apply andb_true_iff in Gr as [Gs Gr].
    cbn [List.length resolve_from forallb map].
    assert (Hn : nth_error (pre ++ s :: rest) (List.length pre) = Some s).
    { rewrite nth_error_app2 by lia. now rewrite Nat.sub_diag. }
    rewrite Hn, (resolve_one_given l0 pre s rest G0 Gs Hp).
    destruct (paired l0 s); simpl.
    + assert (E : pre ++ settle s :: rest = (pre ++ [settle s]) ++ rest)
        by now rewrite <- app_assoc.
      assert (L : S (List.length pre) = List.length (pre ++ [settle s]))
        by (rewrite length_app; simpl; lia).
      rewrite E, L.
      destruct (IH (pre ++ [settle s]) Gr) as [A B].
      { rewrite <- E, <- Hp, !map_app. simpl. now rewrite settle_path. }
      split.
      * intros F. rewrite (A F). now rewrite <- app_assoc.
      * exact B.
    + split; [discriminate|reflexivity].
Qed.

(** X11.  When the conflict resolver completes.  Over candidates that
    all have a path, the resolver runs to its end exactly when every
    candidate with the extension "sub" has an index file in the list (a
    path with the extension "idx" that agrees with its own on all but
    the last three characters); it then rejects every ".sub" candidate
    and every ".cdg" candidate of priority below MatchAll, and leaves
    every other candidate as it was.  Otherwise the scan for the index
    file reads the entry after the last one. *)
Theorem resolver_completes :
  forall l : subtitle_list,
    forallb given l = true ->
    (snd (resolve_conflicts l) = Completed
     <-> forallb (paired l) l = true)
    /\ (forallb (paired l) l = true ->
        fst (resolve_conflicts l) = map settle l)
    /\ (forallb (paired l) l = false ->
        snd (resolve_conflicts l)
        = Faulted (ReadPastEnd (List.length l))).
Proof.
  intros l G. unfold resolve_conflicts.
  destruct (resolve_from_given l G l [] G eq_refl) as [A B].
  simpl in A, B.
  split; [|split].
  - destruct (forallb (paired l) l).
    + rewrite (A eq_refl). simpl. tauto.
    + rewrite (B eq_refl). split; discriminate.
  - intros F. now rewrite (A F).
  - exact B.
Qed.

(** The theorem at a pair "movie.sub" and "movie.idx" beside
    "song.cdg". *)
Lemma resolver_completes_witness :
  fst (resolve_conflicts
         [candidate "/d//movie.sub" 3; candidate "/d//movie.idx" 3;
          candidate "/d//song.cdg" 2])
  = map settle [candidate "/d//movie.sub" 3; candidate "/d//movie.idx" 3;
                candidate "/d//song.cdg" 2].
Proof.
  exact (proj1 (proj2 (resolver_completes
                         [candidate "/d//movie.sub" 3;
                          candidate "/d//movie.idx" 3;
                          candidate "/d//song.cdg" 2] eq_refl)) eq_refl).
Defined.

End Pairing.

(* ================================================================== *)
(** ** How a run of subtitles_Detect ends *)
(* ================================================================== *)

Module DetectRuns.

Import Subtitles Props.

Lemma has_extension_path (ext : string) (s s' : subtitle) :
  psz_path s = psz_path s' -> has_extension ext s = has_extension ext s'.
Proof. intros H. unfold has_extension. now rewrite H. Qed.

Lemma partner_path (s s' p p' : subtitle) :
  psz_path s = psz_path s' -> psz_path p = psz_path p' ->
  partner s p = partner s' p'.
Proof.
  intros Hs Hp. unfold partner.
  now rewrite Hs, Hp, (has_extension_path "idx" p p' Hp).
Qed.

Lemma existsb_partner_paths (s s' : subtitle) :
  psz_path s = psz_path s' ->
  forall l l',
    map psz_path l = map psz_path l' ->
    existsb (partner s) l = existsb (partner s') l'.
Proof.
  intros Hs. induction l as [|p l IH]; intros [|p' l'] H; simpl in *;
    try discriminate; [reflexivity|].
  injection H as Hp Hl.
  now rewrite (partner_path s s' p p' Hs Hp), (IH l' Hl).
Qed.

(** Whether each ".sub" candidate has its index file is a matter of the
    paths alone. *)
Lemma forallb_paired_paths (L L' : subtitle_list) :
  map psz_path L = map psz_path L' ->
  forall l l',
    map psz_path l = map psz_path l' ->
    forallb (paired L) l = forallb (paired L') l'.
Proof.
  intros HL. induction l as [|s l IH]; intros [|s' l'] H; simpl in *;
    try discriminate; [reflexivity|].
  injection H as Hs Hl. unfold paired at 1 3.
  now rewrite (has_extension_path "sub" s s' Hs),
    (existsb_partner_paths s s' Hs L L' HL), (IH l' Hl).
Qed.

Lemma forallb_given_paths :
  forall l l',
    map psz_path l = map psz_path l' ->
    forallb given l = forallb given l'.
Proof.
  induction l as [|s l IH]; intros [|s' l'] H; simpl in *;
    try discriminate; [reflexivity|].
  injection H as Hs Hl. unfold given at 1 3. now rewrite Hs, (IH l' Hl).
Qed.

Lemma candidates_given (h : host) (t : Z) (psz_fname trim : cstring)
      (dirs : list cstring) (found : subtitle_list) :
  Forall (candidate_of h t psz_fname trim dirs) found ->
  forallb given found = true.
Proof.
  induction 1 as [|s found Hs _ IH]; simpl; [reflexivity|].
  destruct Hs as (dir & name & names & j & _ & _ & _ & _ & _ & P & _).
  unfold given at 1. now rewrite P.
Qed.

(** X12.  How a run of [subtitles_Detect] ends.  Given a list whose
    candidates all have a path, the run leaves such a list, and it ends
    in one of two ways: it returns a status, or the resolver reads the
    entry after the last one of the list, which happens only when some
    ".sub" candidate of the list has no index file in it.  When the run
    returns VLC_SUCCESS every ".sub" candidate of the list has its index
    file there. *)
Theorem detect_outcomes :
  forall (p_this : vlc_vars) (h : host) (paths psz_name_org : option cstring)
         (p_result : subtitle_list),
    forallb given p_result = true ->
    let run := subtitles_Detect p_this h paths psz_name_org p_result in
    forallb given (dr_result run) = true
    /\ ((dr_fault run = Completed /\ dr_status run <> None)
        \/ (dr_fault run = Faulted (ReadPastEnd (List.length (dr_result run)))
            /\ dr_status run = None
            /\ forallb (paired (dr_result run)) (dr_result run) = false))
    /\ (dr_status run = Some VLC_SUCCESS ->
        forallb (paired (dr_result run)) (dr_result run) = true).
Proof.
  intros p_this h paths psz_name_org p_result G run.
  assert (Early : forall r,
             r = {| dr_status := Some VLC_EGENERIC; dr_fault := Completed;
                    dr_result := p_result; dr_io := [] |} ->
             forallb given (dr_result r) = true
             /\ ((dr_fault r = Completed /\ dr_status r <> None)
                 \/ (dr_fault r
                     = Faulted (ReadPastEnd (List.length (dr_result r)))
                     /\ dr_status r = None
                     /\ forallb (paired (dr_result r)) (dr_result r) = false))
             /\ (dr_status r = Some VLC_SUCCESS ->
                 forallb (paired (dr_result r)) (dr_result r) = true)).
  { intros r ->. simpl. split; [exact G|]. split.
    - left. split; [reflexivity|discriminate].
    - discriminate. }
  destruct (to_int (sub_autodetect_fuzzy p_this) =? 0)%Z eqn:Ez;
    [apply Early; unfold run, subtitles_Detect; now rewrite Ez|].
  destruct psz_name_org as [name_org|];
    [|apply Early; unfold run, subtitles_Detect; now rewrite Ez].
  destruct (vlc_uri2path h name_org) as [psz_fname|] eqn:Eu;
    [|apply Early; unfold run, subtitles_Detect; now rewrite Ez, Eu].
  destruct (strrchr psz_fname "/"%char) as [k|] eqn:Ek;
    [|apply Early; unfold run, subtitles_Detect; now rewrite Ez, Eu, Ek].
  clear Early. apply Z.eqb_neq in Ez.
  destruct (Found.subtitles_Detect_scanned p_this h paths name_org psz_fname
                                           k p_result Ez Eu Ek)
    as (Er & Ef & Es).
  destruct (Found.detect_collect_appends h
                                         (to_int (sub_autodetect_fuzzy p_this))
                                         paths psz_fname k p_result)
    as (found & Ec & Fc).
  fold run in Er, Ef, Es. rewrite Ec in Er, Ef, Es.
  set (collected := p_result ++ found) in *.
  assert (Gc : forallb given collected = true).
  { unfold collected. rewrite forallb_app, G. simpl.
    exact (candidates_given _ _ _ _ _ _ Fc). }
  assert (Hp : map psz_path (dr_result run) = map psz_path collected).
  { rewrite Er. unfold resolve_conflicts.
    pose proof (Resolver.resolve_from_framed
                  (List.length collected) 0 collected) as F.
    now apply Resolver.Forall2_framed_map in F. }
  assert (Hl : List.length (dr_result run) = List.length collected).
  { rewrite <- (length_map psz_path), Hp. apply length_map. }
  rewrite (forallb_given_paths _ _ Hp), Hl,
    (forallb_paired_paths _ _ Hp _ _ Hp).
  destruct (Pairing.resolve_from_given collected Gc collected [] Gc eq_refl)
    as [A B].
  simpl in A, B. fold (resolve_conflicts collected) in A, B.
  split; [exact Gc|].
  destruct (forallb (paired collected) collected).
  - rewrite Es, Ef, (A eq_refl). simpl. split; [|reflexivity].
    left. split; [reflexivity|discriminate].
  - rewrite Es, Ef, (B eq_refl). split; [|discriminate].
    right. auto.
Qed.

(** The theorem at the listing of "other.sub", "movie.sub" and
    "movie.idx", where the resolver reads the entry after the third. *)
Lemma detect_outcomes_witness :
  dr_fault
    (subtitles_Detect
       (config 1 false)
       (dir_host (cs "/d/") [cs "other.sub"; cs "movie.sub"; cs "movie.idx"])
       None (Some (cs "/d/movie.mkv")) [])
  = Completed
  \/ forallb
       (paired
          (dr_result
             (subtitles_Detect
                (config 1 false)
                (dir_host (cs "/d/")
                          [cs "other.sub"; cs "movie.sub"; cs "movie.idx"])
                None (Some (cs "/d/movie.mkv")) [])))
       (dr_result
          (subtitles_Detect
             (config 1 false)
             (dir_host (cs "/d/")
                       [cs "other.sub"; cs "movie.sub"; cs "movie.idx"])
             None (Some (cs "/d/movie.mkv")) []))
     = false.
Proof.
  destruct (detect_outcomes
              (config 1 false)
              (dir_host (cs "/d/")
                        [cs "other.sub"; cs "movie.sub"; cs "movie.idx"])
              None (Some (cs "/d/movie.mkv")) [] eq_refl)
    as (_ & [[C _]|(_ & _ & U)] & _).
  - left. exact C.
  - right. exact U.
Defined.

End DetectRuns.

(* ================================================================== *)
(** ** The runs of attach_slaves *)
(* ================================================================== *)

Module Attach.

Import Directory Props.

Lemma store_set_middle (pre : list slot) (s v : slot) (rest : list slot) :
  store_set (List.length pre) v (pre ++ s :: rest) = pre ++ v :: rest.
Proof. induction pre as [|a pre IH]; simpl; [reflexivity|now rewrite IH]. Qed.

Lemma nth_error_middle {A : Type} (pre : list A) (s : A) (rest : list A) :
  nth_error (pre ++ s :: rest) (List.length pre) = Some s.
Proof. rewrite nth_error_app2 by lia. now rewrite Nat.sub_diag. Qed.

Section Turns.

Variable t : Z.













End Turns.



End Attach.

(* ================================================================== *)
(** ** The priority of a slave *)
(* ================================================================== *)

Module Priorities.

Import Directory Props.

Lemma slave_score_range (a b : cstring) :
  (SLAVE_PRIORITY_MATCH_NONE <= slave_score a b <= SLAVE_PRIORITY_MATCH_ALL)%Z.
Proof.
  unfold slave_score.
  destruct (strcmp a b =? 0)%Z; [vm_compute; split; discriminate|].
  destruct (strstr b a); [|vm_compute; split; discriminate].
  destruct (Nat.eqb _ 0); vm_compute; split; discriminate.
Qed.

Lemma slave_score_all (a b : cstring) :
  slave_score a b = SLAVE_PRIORITY_MATCH_ALL
  <-> (strcmp a b =? 0)%Z = true.
Proof.
  unfold slave_score.
  destruct (strcmp a b =? 0)%Z; [tauto|].
  destruct (strstr b a); [destruct (Nat.eqb _ 0)|];
    split; intros H; discriminate H.
Qed.

(** The four ways [name_from_uri] can end. *)
Lemma name_from_uri_cases (mem : nat -> bool) (n : nat) (uri : cstring) :
  DirectoryMem.name_from_uri mem n uri
  = if mem n
    then (if mem (S n) then Some (name_from_uri uri) else None, S (S n))
    else (None, S n).
Proof.
  unfold DirectoryMem.name_from_uri, DirectoryMem.strdup.
  now destruct (mem n).
Qed.

(** The priority stored, as a number. *)
Lemma stored_priority (mem : nat -> bool) (n : nat) (p_item : input_item_t)
      (p_slave : input_item_slave) :
  slave_priority
    (fst (DirectoryMem.calculate_slave_priority mem n p_item p_slave))
  = match fst (DirectoryMem.name_from_uri mem n (psz_uri p_item)),
          fst (DirectoryMem.name_from_uri
                 mem (snd (DirectoryMem.name_from_uri mem n
                                                      (psz_uri p_item)))
                 (slave_uri p_slave)) with
    | Some a, Some b => slave_score a b
    | _, _ => SLAVE_PRIORITY_NONE
    end.
Proof.
  unfold DirectoryMem.calculate_slave_priority.
  destruct (DirectoryMem.name_from_uri mem n (psz_uri p_item))
    as [item_name n1]. cbn [fst snd].
  destruct (DirectoryMem.name_from_uri mem n1 (slave_uri p_slave))
    as [slave_name n2]. cbn [fst snd].
  destruct item_name as [a|]; [destruct slave_name as [b|]|];
    cbn [fst with_priority slave_priority]; try reflexivity.
  pose proof (slave_score_range a b) as [R1 R4].
  unfold SLAVE_PRIORITY_MATCH_NONE, SLAVE_PRIORITY_MATCH_ALL in *.
  apply Z.mod_small. lia.
Qed.

Lemma stored_priority_range (mem : nat -> bool) (n : nat)
      (p_item : input_item_t) (p_slave : input_item_slave) :
  (SLAVE_PRIORITY_NONE
   <= slave_priority
        (fst (DirectoryMem.calculate_slave_priority mem n p_item p_slave))
   <= SLAVE_PRIORITY_MATCH_ALL)%Z.
Proof.
  rewrite stored_priority.
  destruct (fst (DirectoryMem.name_from_uri mem n (psz_uri p_item)))
    as [a|]; [|vm_compute; split; discriminate].
  destruct (fst (DirectoryMem.name_from_uri _ _ (slave_uri p_slave)))
    as [b|]; [|vm_compute; split; discriminate].
  pose proof (slave_score_range a b) as [R1 R4].
  unfold SLAVE_PRIORITY_NONE, SLAVE_PRIORITY_MATCH_NONE in *. lia.
Qed.

(** X14.  The priority [calculate_slave_priority] gives.  It writes the
    priority only: the URI and the type of the slave stay.  The
    priority is SLAVE_PRIORITY_NONE exactly when one of the two names
    could not be allocated, which is the case for the name of the item
    exactly when the first or the second copy [name_from_uri] makes of
    it fails.  When both names are there, they are the names
    [name_from_uri] makes of the two URIs, the priority is one of the
    four match levels and, for URIs that are C strings, MatchAll
    exactly when the two names are the same.  The priority the slave had
    before, from an earlier item, plays no part. *)
Theorem priority_of_slave :
  forall (mem : nat -> bool) (n : nat) (p_item : input_item_t)
         (p_slave : input_item_slave),
    let item_name := DirectoryMem.name_from_uri mem n (psz_uri p_item) in
    let slave_name :=
      DirectoryMem.name_from_uri mem (snd item_name) (slave_uri p_slave) in
    let scored :=
      fst (DirectoryMem.calculate_slave_priority mem n p_item p_slave) in
    slave_uri scored = slave_uri p_slave
    /\ slave_type_of scored = slave_type_of p_slave
    /\ (SLAVE_PRIORITY_NONE <= slave_priority scored
        <= SLAVE_PRIORITY_MATCH_ALL)%Z
    /\ (slave_priority scored = SLAVE_PRIORITY_NONE
        <-> fst item_name = None \/ fst slave_name = None)
    /\ (fst item_name = None <-> mem n = false \/ mem (S n) = false)
    /\ (forall a b,
           fst item_name = Some a -> fst slave_name = Some b ->
           a = name_from_uri (psz_uri p_item)
           /\ b = name_from_uri (slave_uri p_slave)
           /\ scored = calculate_slave_priority p_item p_slave
           /\ (SLAVE_PRIORITY_MATCH_NONE <= slave_priority scored)%Z
           /\ (no_nul (psz_uri p_item) = true ->
               no_nul (slave_uri p_slave) = true ->
               (slave_priority scored = SLAVE_PRIORITY_MATCH_ALL
                <-> a = b)))
    /\ (forall prio,
           fst (DirectoryMem.calculate_slave_priority
                  mem n p_item (with_priority p_slave prio))
           = scored).
Proof.
  intros mem n p_item p_slave item_name slave_name scored.
  pose proof (stored_priority mem n p_item p_slave) as P.
  fold item_name in P. fold slave_name in P. fold scored in P.
  pose proof (stored_priority_range mem n p_item p_slave) as R.
  fold scored in R.
  assert (U : slave_uri scored = slave_uri p_slave
              /\ slave_type_of scored = slave_type_of p_slave
              /\ forall prio,
                   fst (DirectoryMem.calculate_slave_priority
                          mem n p_item (with_priority p_slave prio))
                   = scored).
  { unfold scored, DirectoryMem.calculate_slave_priority.
    cbn [with_priority slave_uri].
    destruct (DirectoryMem.name_from_uri mem n (psz_uri p_item))
      as [[a|] n1];
      destruct (DirectoryMem.name_from_uri mem n1 (slave_uri p_slave))
        as [[b|] n2]; cbn; auto. }
  destruct U as (U1 & U2 & U3).
  split; [exact U1|]. split; [exact U2|]. split; [exact R|].
  split; [|split; [|split; [|exact U3]]].
  - rewrite P.
    destruct (fst item_name) as [a|]; [|split; auto].
    destruct (fst slave_name) as [b|]; [|split; auto].
    pose proof (slave_score_range a b) as [R1 _].
    unfold SLAVE_PRIORITY_NONE, SLAVE_PRIORITY_MATCH_NONE in *.
    split; [lia|intros [H|H]; discriminate H].
  - unfold item_name. rewrite name_from_uri_cases.
    destruct (mem n); [destruct (mem (S n))|]; cbn [fst];
      split; auto; try discriminate; intros [H|H]; discriminate H.
  - intros a b Ha Hb.
    assert (Ea : a = name_from_uri (psz_uri p_item)).
    { unfold item_name in Ha. rewrite name_from_uri_cases in Ha.
      destruct (mem n); [destruct (mem (S n))|]; cbn [fst] in Ha;
        congruence. }
    assert (Eb : b = name_from_uri (slave_uri p_slave)).
    { unfold slave_name in Hb. rewrite name_from_uri_cases in Hb.
      destruct (mem (snd item_name));
        [destruct (mem (S (snd item_name)))|]; cbn [fst] in Hb;
        congruence. }
    rewrite Ha, Hb in P.
    split; [exact Ea|]. split; [exact Eb|]. split; [|split].
    + unfold scored, DirectoryMem.calculate_slave_priority.
      fold item_name.
      destruct item_name as [ia n1] eqn:Ei. cbn [fst snd] in *.
      fold slave_name.
      destruct slave_name as [sb n2] eqn:Es. cbn [fst] in *.
      subst ia sb. cbn [fst].
      unfold calculate_slave_priority. now rewrite <- Ea, <- Eb.
    + rewrite P. apply slave_score_range.
    + intros Ni Ns. rewrite P, slave_score_all, Ea, Eb.
      apply SearchFacts.strcmp_zero_iff;
        now apply SlaveScoreFacts.name_from_uri_no_nul.
Qed.

(** The theorem at "movie.mkv" and its subtitle "Movie.srt", with all
    the memory it takes. *)
Lemma priority_of_slave_witness :
  fst (DirectoryMem.calculate_slave_priority
         (fun _ => true) 0 (item "movie.mkv" 1)
         (input_item_slave_New (cs "file:///d/Movie.srt") SLAVE_TYPE_SPU 0))
  = calculate_slave_priority
      (item "movie.mkv" 1)
      (input_item_slave_New (cs "file:///d/Movie.srt") SLAVE_TYPE_SPU 0).
Proof.
  exact (proj1 (proj2 (proj2
           (proj1 (proj2 (proj2 (proj2 (proj2 (proj2
              (priority_of_slave
                 (fun _ => true) 0 (item "movie.mkv" 1)
                 (input_item_slave_New (cs "file:///d/Movie.srt")
                                       SLAVE_TYPE_SPU 0)))))))
              (cs "movie") (cs "movie") eq_refl eq_refl)))).
Defined.

Section Turns.

Variable mem : nat -> bool.
Variable t : Z.

(** Every slave reaches the threshold, whatever the item. *)
Hypothesis all_pass :
  forall n p_item p_slave,
    (slave_priority
       (fst (DirectoryMem.calculate_slave_priority mem n p_item p_slave))
     >=? t)%Z = true.

Lemma attach_item_all (p_item : input_item_t) (i : nat) :
  forall rest pre a n,
    forallb live rest = true ->
    exists rest' n',
      DirectoryMem.attach_item mem t p_item i (List.length rest)
                               (List.length pre)
                               {| pp_slaves := pre ++ rest; added := a |} n
      = ({| pp_slaves := pre ++ rest';
            added := a ++ map (pair i)
                              (seq (List.length pre) (List.length rest)) |},
         n', Completed)
      /\ forallb live rest' = true
      /\ List.length rest' = List.length rest.
Proof.
  induction rest as [|s rest IH]; intros pre a n L.
  - exists [], n. simpl. now rewrite !app_nil_r.
  - simpl in L. apply andb_true_iff in L as [Ls Lr].
    destruct s as [p_slave|]; [|discriminate].
    cbn [List.length DirectoryMem.attach_item].
    unfold DirectoryMem.attach_one. cbn [pp_slaves added].
    rewrite Attach.nth_error_middle.
    pose proof (all_pass n p_item p_slave) as Hp.
    destruct (DirectoryMem.calculate_slave_priority mem n p_item p_slave)
      as [scored n1]. cbn [fst] in Hp. rewrite Hp.
    rewrite Attach.store_set_middle.
    assert (E : pre ++ Live scored :: rest = (pre ++ [Live scored]) ++ rest)
      by now rewrite <- app_assoc.
    assert (Len : S (List.length pre) = List.length (pre ++ [Live scored]))
      by (rewrite length_app; simpl; lia).
    rewrite E, Len.
    destruct (IH (pre ++ [Live scored]) (a ++ [(i, List.length pre)]) n1 Lr)
      as (rest' & n' & R & L' & N').
    exists (Live scored :: rest'), n'. rewrite R, <- Len.
    split; [|split; [exact L'|simpl; now rewrite N']].
    cbn [seq map]. now rewrite <- !app_assoc.
Qed.

Lemma attach_children_all :
  forall children i slots a n,
    forallb live slots = true ->
    exists slots' n',
      DirectoryMem.attach_children mem t i children
                                   {| pp_slaves := slots; added := a |} n
      = ({| pp_slaves := slots';
            added := a ++ list_prod (seq i (List.length children))
                                    (seq 0 (List.length slots)) |},
         n', Completed)
      /\ forallb live slots' = true
      /\ List.length slots' = List.length slots.
Proof.
  induction children as [|c rest IH]; intros i slots a n L.
  - exists slots, n. simpl. now rewrite app_nil_r.
  - cbn [DirectoryMem.attach_children pp_slaves].
    destruct (attach_item_all c i slots [] a n L)
      as (slots1 & n1 & R1 & L1 & N1).
    cbn [List.length app] in R1. rewrite R1.
    destruct (IH (S i) slots1
                 (a ++ map (pair i) (seq 0 (List.length slots))) n1 L1)
      as (slots2 & n2 & R2 & L2 & N2).
    exists slots2, n2. rewrite R2, N1.
    split; [|split; [exact L2|congruence]].
    cbn [List.length seq list_prod]. now rewrite <- app_assoc.
Qed.

End Turns.

Section NoMemory.

Variable mem : nat -> bool.
Variable t : Z.

(** No slave reaches the threshold, whatever the item. *)
Hypothesis none_pass :
  forall n p_item p_slave,
    (slave_priority
       (fst (DirectoryMem.calculate_slave_priority mem n p_item p_slave))
     >=? t)%Z = false.

Lemma attach_one_none (p_item : input_item_t) (i j : nat)
      (st : attach_state) (n : nat) :
  added (fst (fst (DirectoryMem.attach_one mem t p_item i j st n)))
  = added st.
Proof.
  unfold DirectoryMem.attach_one.
  destruct (nth_error (pp_slaves st) j) as [[p_slave|]|]; try reflexivity.
  pose proof (none_pass n p_item p_slave) as Hp.
  destruct (DirectoryMem.calculate_slave_priority mem n p_item p_slave)
    as [scored n1]. cbn [fst] in Hp. now rewrite Hp.
Qed.

Lemma attach_item_none (p_item : input_item_t) (i : nat) (turns : nat) :
  forall j st n,
    added (fst (fst (DirectoryMem.attach_item mem t p_item i turns j st n)))
    = added st.
Proof.
  induction turns as [|turns IH]; intros j st n; [reflexivity|].
  cbn [DirectoryMem.attach_item].
  pose proof (attach_one_none p_item i j st n) as H1.
  destruct (DirectoryMem.attach_one mem t p_item i j st n)
    as [[st' n'] [|f]]; cbn [fst] in *; [|exact H1].
  now rewrite IH.
Qed.

Lemma attach_children_none (children : list input_item_t) :
  forall i st n,
    added (fst (fst (DirectoryMem.attach_children mem t i children st n)))
    = added st.
Proof.
  induction children as [|c rest IH]; intros i st n; [reflexivity|].
  cbn [DirectoryMem.attach_children].
  pose proof (attach_item_none c i (List.length (pp_slaves st)) 0 st n)
    as H1.
  destruct (DirectoryMem.attach_item mem t c i _ 0 st n)
    as [[st' n'] [|f]]; cbn [fst] in *; [|exact H1].
  now rewrite IH.
Qed.

End NoMemory.

(** X15.  The lowest thresholds.  On slaves none of which has been
    freed, [attach_slaves] runs to its end, attaches every slave to
    every child, child by child, and deletes none, at a threshold that
    as stored in the [int] is negative, whatever the memory, and at the
    threshold MatchNone when every allocation succeeds.  When no
    allocation succeeds every priority is SLAVE_PRIORITY_NONE, and at a
    threshold above zero nothing is attached. *)
Theorem attach_slaves_all :
  forall (mem : nat -> bool) (p_demux : vlc_vars)
         (children : list input_item_t) (p_slaves : list slot),
    forallb live p_slaves = true ->
    let i_fuzzy := to_int (sub_autodetect_fuzzy p_demux) in
    let r := DirectoryMem.attach_slaves mem p_demux children p_slaves in
    (((i_fuzzy < 0)%Z
      \/ (i_fuzzy = SLAVE_PRIORITY_MATCH_NONE /\ forall n, mem n = true)) ->
     snd r = Completed
     /\ added (fst (fst r))
        = list_prod (seq 0 (List.length children))
                    (seq 0 (List.length p_slaves))
     /\ forallb live (pp_slaves (fst (fst r))) = true)
    /\ ((0 < i_fuzzy)%Z -> (forall n, mem n = false) ->
        added (fst (fst r)) = []).
Proof.
  intros mem p_demux children p_slaves L i_fuzzy r.
  split.
  - intros H.
    assert (Hz : (i_fuzzy =? 0)%Z = false).
    { apply Z.eqb_neq. unfold SLAVE_PRIORITY_MATCH_NONE in H.
      destruct H as [H|[H _]]; lia. }
    assert (P : forall n p_item p_slave,
               (slave_priority
                  (fst (DirectoryMem.calculate_slave_priority
                          mem n p_item p_slave)) >=? i_fuzzy)%Z = true).
    { intros n p_item p_slave. apply Z.geb_le.
      destruct H as [H|[H Hm]].
      - pose proof (stored_priority_range mem n p_item p_slave) as [R0 _].
        unfold SLAVE_PRIORITY_NONE in R0. lia.
      - rewrite stored_priority, !name_from_uri_cases, !Hm. cbn [fst snd].
        rewrite H. apply slave_score_range. }
    destruct (attach_children_all mem i_fuzzy P children 0 p_slaves [] 0 L)
      as (slots' & n' & R & L' & _).
    unfold r, DirectoryMem.attach_slaves. fold i_fuzzy.
    rewrite Hz, R. cbn. auto.
  - intros Hpos Hm.
    unfold r, DirectoryMem.attach_slaves. fold i_fuzzy.
    destruct (i_fuzzy =? 0)%Z; [reflexivity|].
    rewrite attach_children_none; [reflexivity|].
    intros n p_item p_slave. rewrite Z.geb_leb. apply Z.leb_gt.
    rewrite stored_priority, !name_from_uri_cases, !Hm. cbn [fst].
    unfold SLAVE_PRIORITY_NONE. lia.
Qed.

(** The theorem at two movies and one unrelated subtitle file, at the
    threshold 1 with all the memory it takes. *)
Lemma attach_slaves_all_witness :
  added (fst (fst (DirectoryMem.attach_slaves
                     (fun _ => true) (config 1 false)
                     [item "movie.mkv" 1; item "film.mkv" 1]
                     [Live (input_item_slave_New (cs "file:///d/other.srt")
                                                 SLAVE_TYPE_SPU 0)])))
  = list_prod (seq 0 2) (seq 0 1).
Proof.
  refine (proj1 (proj2 (proj1 (attach_slaves_all
                                 (fun _ => true) (config 1 false)
                                 [item "movie.mkv" 1; item "film.mkv" 1]
                                 [Live (input_item_slave_New
                                          (cs "file:///d/other.srt")
                                          SLAVE_TYPE_SPU 0)] eq_refl)
                              _))).
  right. split; [reflexivity|reflexivity].
Defined.

End Priorities.

(* ================================================================== *)
(** ** The name name_from_uri makes *)
(* ================================================================== *)

Module UriNames.

Import Directory Props.

Lemma tolower_space (c : ascii) :
  Ascii.eqb (tolower c) " "%char = Ascii.eqb c " "%char.
Proof. CLibFacts.all_chars c. Qed.

Lemma tolower_slash (c : ascii) :
  Ascii.eqb (tolower c) "/"%char = Ascii.eqb c "/"%char.
Proof. CLibFacts.all_chars c. Qed.

Lemma skip_spaces_lower (s : cstring) :
  skip_spaces (map tolower s) = map tolower (skip_spaces s).
Proof.
  induction s as [|c s IH]; simpl; [reflexivity|].
  rewrite tolower_space. now destruct (Ascii.eqb c " "%char).
Qed.

Lemma skip_spaces_idem (s : cstring) :
  skip_spaces (skip_spaces s) = skip_spaces s.
Proof.
  induction s as [|c s IH]; simpl; [reflexivity|].
  destruct (Ascii.eqb c " "%char) eqn:E; [exact IH|].
  simpl. now rewrite E.
Qed.

(** Removing the trailing spaces of a string without leading spaces
    leaves one without leading spaces. *)
Lemma lstrip_rstrip (s : cstring) :
  skip_spaces s = s ->
  skip_spaces (rev (skip_spaces (rev s))) = rev (skip_spaces (rev s)).
Proof.
  destruct s as [|c s]; [reflexivity|]. simpl.
  destruct (Ascii.eqb c " "%char) eqn:E.
  - intros H. exfalso.
    destruct (SlaveScoreFacts.skip_spaces_suffix s) as [sp Hsp].
    apply (f_equal (@List.length ascii)) in H.
    apply (f_equal (@List.length ascii)) in Hsp.
    rewrite length_app in Hsp. simpl in H. lia.
  - intros _. rewrite SlaveScoreFacts.skip_spaces_app.
    destruct (skip_spaces (rev s)) as [|x r] eqn:Er.
    + simpl. rewrite E. simpl. now rewrite E.
    + rewrite rev_app_distr. simpl. now rewrite E.
Qed.

Lemma forallb_firstn {A : Type} (P : A -> bool) (k : nat) (s : list A) :
  forallb P s = true -> forallb P (firstn k s) = true.
Proof.
  intros H. rewrite <- (firstn_skipn k s), forallb_app in H.
  now apply andb_prop in H as [H _].
Qed.

Lemma forallb_skip_spaces (P : ascii -> bool) (s : cstring) :
  forallb P s = true -> forallb P (skip_spaces s) = true.
Proof.
  intros H. destruct (SlaveScoreFacts.skip_spaces_suffix s) as [sp Hsp].
  rewrite Hsp, forallb_app in H. now apply andb_prop in H as [_ H].
Qed.

Lemma forallb_rev {A : Type} (P : A -> bool) (s : list A) :
  forallb P (rev s) = forallb P s.
Proof.
  induction s as [|c s IH]; simpl; [reflexivity|].
  rewrite forallb_app, IH. simpl. rewrite andb_true_r. apply andb_comm.
Qed.

Lemma noslash_lower (s : cstring) :
  noslash (map tolower s) = noslash s.
Proof.
  induction s as [|c s IH]; simpl; [reflexivity|].
  now rewrite tolower_slash, IH.
Qed.

Lemma skip_spaces_short (s : cstring) :
  List.length (skip_spaces s) <= List.length s.
Proof.
  destruct (SlaveScoreFacts.skip_spaces_suffix s) as [sp Hsp].
  apply (f_equal (@List.length ascii)) in Hsp.
  rewrite length_app in Hsp. lia.
Qed.

(** X16.  The name [name_from_uri] makes.  It is no longer than the
    URI, has no directory separator, no space in front or behind, and
    no upper-case letter; and it is made from the part of the URI after
    its last separator alone. *)
Theorem name_from_uri_shape :
  forall uri : cstring,
    let name := name_from_uri uri in
    strlen name <= strlen uri
    /\ noslash name = true
    /\ skip_spaces name = name
    /\ rev (skip_spaces (rev name)) = name
    /\ map tolower name = name
    /\ (forall dir, noslash uri = true ->
                    name_from_uri (dir ++ "/"%char :: uri) = name).
Proof.
  intros uri name. unfold name, name_from_uri.
  set (file := match strrchr uri "/"%char with
               | Some k => skipn (S k) uri
               | None => uri
               end).
  set (base := match strrchr file "."%char with
               | Some k => firstn k file
               | None => file
               end).
  assert (Lf : List.length file <= List.length uri).
  { unfold file. destruct (strrchr uri "/"%char);
      [rewrite length_skipn|]; lia. }
  assert (Lb : List.length base <= List.length file).
  { unfold base. destruct (strrchr file "."%char);
      [rewrite length_firstn|]; lia. }
  assert (Sf : noslash file = true).
  { unfold file. destruct (strrchr uri "/"%char) as [k|] eqn:E.
    - exact (proj2 (NameParts.strrchr_split uri "/"%char k E)).
    - clear -E. unfold noslash. induction uri as [|c u IH]; simpl in *;
        [reflexivity|].
      destruct (strrchr u "/"%char); [discriminate|].
      destruct (Ascii.eqb c "/"%char); [discriminate|]. simpl.
      now apply IH. }
  assert (Sb : noslash base = true).
  { unfold base. destruct (strrchr file "."%char);
      [now apply forallb_firstn|exact Sf]. }
  split; [|split; [|split; [|split; [|split]]]].
  - unfold strlen. rewrite length_map, length_rev.
    pose proof (skip_spaces_short (rev (skip_spaces base))) as H1.
    pose proof (skip_spaces_short base) as H2.
    rewrite length_rev in H1. lia.
  - rewrite noslash_lower. unfold noslash in *.
    rewrite forallb_rev. apply forallb_skip_spaces.
    rewrite forallb_rev. now apply forallb_skip_spaces.
  - rewrite skip_spaces_lower. f_equal.
    apply lstrip_rstrip, skip_spaces_idem.
  - rewrite <- map_rev, skip_spaces_lower, map_rev. f_equal.
    now rewrite rev_involutive, skip_spaces_idem.
  - rewrite map_map.
    apply map_ext. intros c. apply CLibFacts.tolower_tolower.
  - intros dir Hs.
    rewrite (SearchFacts.strrchr_app dir uri "/"%char Hs).
    rewrite SlaveScoreFacts.skipn_app_cons.
    unfold base, file.
    now rewrite (SearchFacts.strrchr_none uri "/"%char Hs).
Qed.

(** The theorem at the name " The Movie.mkv" in the directory
    "file:///d". *)
Lemma name_from_uri_shape_witness :
  name_from_uri (cs "file:///d" ++ "/"%char :: cs " The Movie.mkv")
  = name_from_uri (cs " The Movie.mkv").
Proof.
  exact (proj2 (proj2 (proj2 (proj2 (proj2
           (name_from_uri_shape (cs " The Movie.mkv"))))))
           (cs "file:///d") eq_refl).
Defined.

End UriNames.

(* ================================================================== *)
(** ** What Demux makes of a listing *)
(* ================================================================== *)

Module Listing.

Import Directory Props.



Section Slots.

Variable entries : list input_item_t.




End Slots.



End Listing.

(* ================================================================== *)
(** ** The comparators *)
(* ================================================================== *)

Module Ordering.

Import Subtitles Directory Props.

Lemma strcmp_antisym (a : cstring) :
  forall b, strcmp b a = (- strcmp a b)%Z.
Proof.
  induction a as [|x a IH]; intros [|y b]; simpl; try lia.
  destruct (Ascii.eqb x y) eqn:E.
  - apply Ascii.eqb_eq in E. subst y. rewrite Ascii.eqb_refl. apply IH.
  - destruct (Ascii.eqb y x) eqn:E'; [|lia].
    apply Ascii.eqb_eq in E'. subst y. now rewrite Ascii.eqb_refl in E.
Qed.

Lemma code_pos (x : ascii) (s : cstring) :
  no_nul (x :: s) = true -> (0 < Z.of_N (code x))%Z.
Proof.
  intros H. simpl in H. apply andb_prop in H as [Hx _].
  destruct (Ascii.eqb x zero) eqn:E; [discriminate|].
  apply Ascii.eqb_neq in E.
  pose proof (CLibFacts.code_nonzero_of_neq x E). lia.
Qed.

Lemma no_nul_tail (x : ascii) (s : cstring) :
  no_nul (x :: s) = true -> no_nul s = true.
Proof. intros H. simpl in H. now apply andb_prop in H as [_ H]. Qed.

(** [strcmp] orders the C strings. *)
Lemma strcmp_trans (a : cstring) :
  forall b c,
    no_nul a = true -> no_nul b = true -> no_nul c = true ->
    (strcmp a b <= 0)%Z -> (strcmp b c <= 0)%Z -> (strcmp a c <= 0)%Z.
Proof.
  induction a as [|x a IH]; intros [|y b] [|z c] Ha Hb Hc Hab Hbc;
    simpl in *; try lia.
  - pose proof (code_pos x a Ha). lia.
  - pose proof (code_pos y b Hb). lia.
  - destruct (Ascii.eqb x y) eqn:Exy.
    + apply Ascii.eqb_eq in Exy. subst y.
      destruct (Ascii.eqb x z) eqn:Exz; [|exact Hbc].
      exact (IH b c (no_nul_tail _ _ Ha) (no_nul_tail _ _ Hb)
                (no_nul_tail _ _ Hc) Hab Hbc).
    + destruct (Ascii.eqb y z) eqn:Eyz.
      * apply Ascii.eqb_eq in Eyz. subst z. now rewrite Exy.
      * destruct (Ascii.eqb x z) eqn:Exz; [|lia].
        apply Ascii.eqb_eq in Exz. subst z.
        apply Ascii.eqb_neq in Exy.
        pose proof (CLibFacts.code_pos_neq x y Exy). lia.
Qed.

(** X18.  The order of [subtitle_Compare].  Of two candidates the one
    of higher priority comes first, whatever the paths; candidates of
    the same priority compare as their paths do, first against second,
    by [strcoll] in a build that has it and by [strcmp] otherwise.
    Where that comparison behaves as an order on the three paths, so
    does [subtitle_Compare] on the candidates: swapping the arguments
    swaps the sign, and it is transitive.  [strcmp] does so on all C
    strings, and in the build without [strcoll] the result is zero for
    the same priority and path only. *)
Theorem subtitle_Compare_order :
  forall (bld : build) (a b c : subtitle) (pa pb pc : cstring),
    psz_path a = Some pa -> psz_path b = Some pb -> psz_path c = Some pc ->
    ((i_priority b < i_priority a)%Z ->
     subtitle_Compare bld a b = Some (-1)%Z)
    /\ ((i_priority a < i_priority b)%Z ->
        subtitle_Compare bld a b = Some 1%Z)
    /\ (i_priority a = i_priority b ->
        subtitle_Compare bld a b = Some (path_order bld pa pb))
    /\ (orders (path_order bld) pa pb pc ->
        exists ab ba,
          subtitle_Compare bld a b = Some ab
          /\ subtitle_Compare bld b a = Some ba
          /\ Z.sgn ba = (- Z.sgn ab)%Z
          /\ (forall bc ac,
                 subtitle_Compare bld b c = Some bc ->
                 subtitle_Compare bld a c = Some ac ->
                 (ab <= 0)%Z -> (bc <= 0)%Z -> (ac <= 0)%Z))
    /\ (no_nul pa = true -> no_nul pb = true -> no_nul pc = true ->
        orders strcmp pa pb pc
        /\ (subtitle_Compare NO_STRCOLL a b = Some 0%Z
            <-> i_priority a = i_priority b /\ pa = pb)).
Proof.
  intros bld a b c pa pb pc Ea Eb Ec.
  assert (R : forall x y px py,
             psz_path x = Some px -> psz_path y = Some py ->
             subtitle_Compare bld x y
             = if (i_priority y <? i_priority x)%Z then Some (-1)%Z
               else if (i_priority x <? i_priority y)%Z then Some 1%Z
                    else Some (path_order bld px py)).
  { intros x y px py Ex Ey. unfold subtitle_Compare, path_order.
    rewrite Z.gtb_ltb, Ex, Ey. now destruct bld. }
  split; [|split; [|split; [|split]]].
  - intros H. rewrite (R a b pa pb Ea Eb).
    now destruct (Z.ltb_spec (i_priority b) (i_priority a)); [|lia].
  - intros H. rewrite (R a b pa pb Ea Eb).
    destruct (Z.ltb_spec (i_priority b) (i_priority a)); [lia|].
    now destruct (Z.ltb_spec (i_priority a) (i_priority b)); [|lia].
  - intros H. rewrite (R a b pa pb Ea Eb), H, Z.ltb_irrefl. reflexivity.
  - intros [Anti Trans].
    rewrite (R a b pa pb Ea Eb), (R b a pb pa Eb Ea),
      (R b c pb pc Eb Ec), (R a c pa pc Ea Ec).
    destruct (Z.ltb_spec (i_priority b) (i_priority a)) as [Lba|Lba].
    + destruct (Z.ltb_spec (i_priority a) (i_priority b)); [lia|].
      exists (-1)%Z, 1%Z.
      split; [reflexivity|]. split; [reflexivity|]. split; [reflexivity|].
      intros bc ac.
      destruct (Z.ltb_spec (i_priority c) (i_priority a));
        [intros _ E; injection E as <-; lia|].
      destruct (Z.ltb_spec (i_priority c) (i_priority b)); [lia|].
      destruct (Z.ltb_spec (i_priority b) (i_priority c)); [|lia].
      intros E. injection E as <-. lia.
    + destruct (Z.ltb_spec (i_priority a) (i_priority b)) as [Lab|Lab].
      * exists 1%Z, (-1)%Z.
        split; [reflexivity|]. split; [reflexivity|]. split; [reflexivity|].
        intros; lia.
      * exists (path_order bld pa pb), (path_order bld pb pa).
        split; [reflexivity|]. split; [reflexivity|]. split; [exact Anti|].
        intros bc ac.
        destruct (Z.ltb_spec (i_priority c) (i_priority b));
          [intros E; injection E as <-;
           destruct (Z.ltb_spec (i_priority c) (i_priority a)); [|lia];
           intros E; injection E as <-; lia|].
        destruct (Z.ltb_spec (i_priority b) (i_priority c));
          [intros E; injection E as <-; lia|].
        intros E. injection E as <-.
        destruct (Z.ltb_spec (i_priority c) (i_priority a)); [lia|].
        destruct (Z.ltb_spec (i_priority a) (i_priority c)); [lia|].
        intros E. injection E as <-. exact Trans.
  - intros Na Nb Nc. split.
    + split; [rewrite (strcmp_antisym pa pb); apply Z.sgn_opp|].
      now apply strcmp_trans.
    + unfold subtitle_Compare. rewrite Z.gtb_ltb, Ea, Eb.
      destruct (Z.ltb_spec (i_priority b) (i_priority a));
        [split; [discriminate|intros [E _]; lia]|].
      destruct (Z.ltb_spec (i_priority a) (i_priority b));
        [split; [discriminate|intros [E _]; lia]|].
      split.
      * intros E. injection E as E. split; [lia|].
        now apply SearchFacts.strcmp_zero.
      * intros [_ ->]. now rewrite CLibFacts.strcmp_refl.
Qed.

(** The theorem at "a.srt" and "b.srt" of priority MatchLeft, in the
    build without [strcoll]. *)
Lemma subtitle_Compare_order_witness :
  subtitle_Compare NO_STRCOLL (candidate "/d//a.srt" 3)
                   (candidate "/d//b.srt" 3)
  = Some (strcmp (cs "/d//a.srt") (cs "/d//b.srt"))
  /\ orders strcmp (cs "/d//a.srt") (cs "/d//b.srt") (cs "/d//c.srt").
Proof.
  destruct (subtitle_Compare_order
              NO_STRCOLL (candidate "/d//a.srt" 3) (candidate "/d//b.srt" 3)
              (candidate "/d//c.srt" 3)
              (cs "/d//a.srt") (cs "/d//b.srt") (cs "/d//c.srt")
              eq_refl eq_refl eq_refl)
    as (_ & _ & D & _ & O).
  split; [exact (D eq_refl)|exact (proj1 (O eq_refl eq_refl eq_refl))].
Defined.

Lemma compar_collate_cases (bld : build) (p1 p2 : input_item_t) :
  compar_collate bld p1 p2 =
  match (i_type p1 =? ITEM_TYPE_DIRECTORY)%Z,
        (i_type p2 =? ITEM_TYPE_DIRECTORY)%Z with
  | true, false => (-1)%Z
  | false, true => 1%Z
  | _, _ => name_order bld (name_of p1) (name_of p2)
  end.
Proof.
  unfold compar_collate, compar_type, name_order.
  destruct (i_type p1 =? i_type p2)%Z eqn:E.
  - apply Z.eqb_eq in E. rewrite E. simpl.
    now destruct (i_type p2 =? ITEM_TYPE_DIRECTORY)%Z, bld.
  - simpl.
    destruct (i_type p1 =? ITEM_TYPE_DIRECTORY)%Z eqn:E1;
      destruct (i_type p2 =? ITEM_TYPE_DIRECTORY)%Z eqn:E2; simpl;
      try reflexivity.
    + apply Z.eqb_eq in E1, E2. apply Z.eqb_neq in E. congruence.
    + now destruct bld.
Qed.

(** X19.  The order of [compar_collate].  A directory comes before
    everything that is not one, whatever the names; two directories,
    and two entries neither of which is one, compare as their names
    do, first against second, by [strcoll] in a build that has it and
    by [strcasecmp] otherwise.  Where that comparison behaves as an
    order on the three names, so does [compar_collate] on the entries:
    swapping the arguments swaps the sign, and it is transitive.
    [strcasecmp] does so on all C strings, and in the build without
    [strcoll] two entries compare equal exactly when both or neither
    are directories and their names differ in case only. *)
Theorem compar_collate_order :
  forall (bld : build) (a b c : input_item_t),
    (i_type a = ITEM_TYPE_DIRECTORY -> i_type b <> ITEM_TYPE_DIRECTORY ->
     compar_collate bld a b = (-1)%Z /\ compar_collate bld b a = 1%Z)
    /\ ((i_type a = ITEM_TYPE_DIRECTORY <-> i_type b = ITEM_TYPE_DIRECTORY) ->
        compar_collate bld a b = name_order bld (name_of a) (name_of b))
    /\ (orders (name_order bld) (name_of a) (name_of b) (name_of c) ->
        Z.sgn (compar_collate bld b a)
        = (- Z.sgn (compar_collate bld a b))%Z
        /\ ((compar_collate bld a b <= 0)%Z ->
            (compar_collate bld b c <= 0)%Z ->
            (compar_collate bld a c <= 0)%Z))
    /\ (no_nul (name_of a) = true -> no_nul (name_of b) = true ->
        no_nul (name_of c) = true ->
        orders strcasecmp (name_of a) (name_of b) (name_of c)
        /\ (compar_collate NO_STRCOLL a b = 0%Z
            <-> ((i_type a = ITEM_TYPE_DIRECTORY
                  <-> i_type b = ITEM_TYPE_DIRECTORY)
                 /\ map tolower (name_of a) = map tolower (name_of b)))).
Proof.
  intros bld a b c. rewrite !compar_collate_cases.
  split; [|split; [|split]].
  - intros Da Db. apply Z.eqb_eq in Da. apply Z.eqb_neq in Db.
    now rewrite Da, Db.
  - intros [D1 D2].
    destruct (Z.eqb_spec (i_type a) ITEM_TYPE_DIRECTORY) as [Da|Da];
      destruct (Z.eqb_spec (i_type b) ITEM_TYPE_DIRECTORY) as [Db|Db];
      try reflexivity; tauto.
  - intros [Anti Trans].
    destruct (Z.eqb_spec (i_type a) ITEM_TYPE_DIRECTORY) as [Da|Da];
      destruct (Z.eqb_spec (i_type b) ITEM_TYPE_DIRECTORY) as [Db|Db];
      destruct (Z.eqb_spec (i_type c) ITEM_TYPE_DIRECTORY) as [Dc|Dc];
      (split; [try exact Anti; reflexivity|]);
      try exact Trans; intros; lia.
  - intros Ha Hb Hc. unfold orders, name_order.
    rewrite !Extensions.strcasecmp_map.
    pose proof (Extensions.no_nul_lower _ Ha) as La.
    pose proof (Extensions.no_nul_lower _ Hb) as Lb.
    pose proof (Extensions.no_nul_lower _ Hc) as Lc.
    split.
    + split; [rewrite (strcmp_antisym (map tolower (name_of a)));
              apply Z.sgn_opp|].
      now apply strcmp_trans.
    + assert (Zero : strcmp (map tolower (name_of a))
                            (map tolower (name_of b)) = 0%Z
                     <-> map tolower (name_of a) = map tolower (name_of b)).
      { split; [now apply SearchFacts.strcmp_zero|].
        intros ->. apply CLibFacts.strcmp_refl. }
      destruct (Z.eqb_spec (i_type a) ITEM_TYPE_DIRECTORY) as [Da|Da];
        destruct (Z.eqb_spec (i_type b) ITEM_TYPE_DIRECTORY) as [Db|Db];
        try (rewrite Zero; tauto);
        (split; [discriminate|intros [[I1 I2] _]; tauto]).
Qed.

(** The theorem at the directory "b" and the file "a.mkv", in the
    build without [strcoll]. *)
Lemma compar_collate_order_witness :
  compar_collate NO_STRCOLL (item "b" ITEM_TYPE_DIRECTORY)
                 (item "a.mkv" ITEM_TYPE_FILE) = (-1)%Z
  /\ compar_collate NO_STRCOLL (item "a.mkv" ITEM_TYPE_FILE)
                    (item "b" ITEM_TYPE_DIRECTORY) = 1%Z.
Proof.
  refine (proj1 (compar_collate_order
                   NO_STRCOLL (item "b" ITEM_TYPE_DIRECTORY)
                   (item "a.mkv" ITEM_TYPE_FILE)
                   (item "a.mkv" ITEM_TYPE_FILE)) eq_refl _).
  discriminate.
Defined.

End Ordering.

(* ================================================================== *)
(** ** The duration of an EIT event *)
(* ================================================================== *)

Module Durations.

Import TsPsiEit Props.

Local Open Scope Z_scope.

(** The two digits of a byte, by division. *)
Lemma CVT_FROM_BCD_digits (v : Z) :
  0 <= v ->
  CVT_FROM_BCD v = (v / 16) mod 16 * 10 + v mod 16.
Proof.
  intros Hv. unfold CVT_FROM_BCD, uint32_t.
  change 15 with (Z.ones 4).
  rewrite !Z.land_ones by lia. rewrite Z.shiftr_div_pow2 by lia.
  change (2 ^ 4) with 16.
  pose proof (Z.mod_pos_bound (v / 16) 16 ltac:(lia)).
  pose proof (Z.mod_pos_bound v 16 ltac:(lia)).
  change (2 ^ 32) with 4294967296.
  rewrite (Z.mod_small ((v / 16) mod 16 * 10) 4294967296) by lia.
  apply Z.mod_small. lia.
Qed.

Lemma CVT_FROM_BCD_range (v : Z) :
  0 <= v -> 0 <= CVT_FROM_BCD v <= 165.
Proof.
  intros Hv. rewrite CVT_FROM_BCD_digits by exact Hv.
  pose proof (Z.mod_pos_bound (v / 16) 16 ltac:(lia)).
  pose proof (Z.mod_pos_bound v 16 ltac:(lia)).
  lia.
Qed.

(** No step of the sum wraps around. *)
Lemma EITConvertDuration_sum (d : Z) :
  0 <= d ->
  EITConvertDuration d
  = CVT_FROM_BCD (Z.shiftr d 16) * 3600 + CVT_FROM_BCD (Z.shiftr d 8) * 60
    + CVT_FROM_BCD d.
Proof.
  intros Hd. unfold EITConvertDuration, uint32_t, int_of_uint.
  pose proof (CVT_FROM_BCD_range (Z.shiftr d 16)
                                 ltac:(apply Z.shiftr_nonneg; lia)).
  pose proof (CVT_FROM_BCD_range (Z.shiftr d 8)
                                 ltac:(apply Z.shiftr_nonneg; lia)).
  pose proof (CVT_FROM_BCD_range d Hd).
  change (2 ^ 32) with 4294967296. change (2 ^ 31) with 2147483648.
  rewrite (Z.mod_small (CVT_FROM_BCD (Z.shiftr d 16) * 3600) 4294967296)
    by lia.
  rewrite (Z.mod_small (CVT_FROM_BCD (Z.shiftr d 8) * 60) 4294967296)
    by lia.
  rewrite (Z.mod_small (CVT_FROM_BCD (Z.shiftr d 16) * 3600
                        + CVT_FROM_BCD (Z.shiftr d 8) * 60) 4294967296)
    by lia.
  rewrite (Z.mod_small (CVT_FROM_BCD (Z.shiftr d 16) * 3600
                        + CVT_FROM_BCD (Z.shiftr d 8) * 60
                        + CVT_FROM_BCD d) 4294967296)
    by lia.
  destruct (Z.ltb_spec (CVT_FROM_BCD (Z.shiftr d 16) * 3600
                        + CVT_FROM_BCD (Z.shiftr d 8) * 60
                        + CVT_FROM_BCD d) 2147483648); lia.
Qed.

Lemma two_digits (n : Z) :
  0 <= n < 100 -> 0 <= n / 10 < 10 /\ 0 <= n mod 10 < 10.
Proof.
  intros H. split.
  - split; [apply Z.div_pos; lia|apply Z.div_lt_upper_bound; lia].
  - apply Z.mod_pos_bound. lia.
Qed.

Lemma bcd_byte_range (n : Z) : 0 <= n < 100 -> 0 <= bcd_byte n < 256.
Proof. intros H. pose proof (two_digits n H). unfold bcd_byte. lia. Qed.

Lemma CVT_FROM_BCD_byte (x n : Z) :
  0 <= x -> 0 <= n < 100 -> CVT_FROM_BCD (x * 256 + bcd_byte n) = n.
Proof.
  intros Hx Hn. pose proof (two_digits n Hn) as [T U].
  pose proof (bcd_byte_range n Hn) as R.
  rewrite CVT_FROM_BCD_digits by lia.
  unfold bcd_byte.
  assert (E : x * 256 + (n / 10 * 16 + n mod 10)
              = (x * 16 + n / 10) * 16 + n mod 10) by lia.
  rewrite E.
  assert (D : ((x * 16 + n / 10) * 16 + n mod 10) / 16 = x * 16 + n / 10).
  { rewrite Z.div_add_l by lia. rewrite (Z.div_small (n mod 10)); lia. }
  assert (M : ((x * 16 + n / 10) * 16 + n mod 10) mod 16 = n mod 10).
  { rewrite Z.add_comm, Z.mod_add by lia. apply Z.mod_small. lia. }
  rewrite D, M.
  assert (M2 : (x * 16 + n / 10) mod 16 = n / 10).
  { rewrite Z.add_comm, Z.mod_add by lia. apply Z.mod_small. lia. }
  rewrite M2. symmetry. rewrite Z.mul_comm. apply Z.div_mod. lia.
Qed.

(** X20.  The duration of an EIT event.  For every 32-bit value
    [EITConvertDuration] computes its sum without wrap-around and
    returns a number of seconds between 0 and 604065, which depends on
    the low 24 bits only; and for a duration of [h] hours, [m] minutes
    and [s] seconds written in two decimal digits each it returns
    [h * 3600 + m * 60 + s]. *)
Theorem EITConvertDuration_seconds :
  forall d h m s : Z,
    0 <= d < 2 ^ 32 ->
    0 <= h < 100 -> 0 <= m < 100 -> 0 <= s < 100 ->
    0 <= EITConvertDuration d <= 604065
    /\ EITConvertDuration d = EITConvertDuration (d mod 2 ^ 24)
    /\ EITConvertDuration (bcd_duration h m s) = h * 3600 + m * 60 + s
    /\ 0 <= bcd_duration h m s < 2 ^ 24.
Proof.
  intros d h m s Hd Hh Hm Hs.
  pose proof (bcd_byte_range h Hh) as Bh.
  pose proof (bcd_byte_range m Hm) as Bm.
  pose proof (bcd_byte_range s Hs) as Bs.
  split; [|split; [|split]].
  - rewrite EITConvertDuration_sum by lia.
    pose proof (CVT_FROM_BCD_range (Z.shiftr d 16)
                                   ltac:(apply Z.shiftr_nonneg; lia)).
    pose proof (CVT_FROM_BCD_range (Z.shiftr d 8)
                                   ltac:(apply Z.shiftr_nonneg; lia)).
    pose proof (CVT_FROM_BCD_range d ltac:(lia)).
    lia.
  - pose proof (Z.mod_pos_bound d (2 ^ 24) ltac:(lia)) as Hm24.
    rewrite !EITConvertDuration_sum by lia.
    rewrite !CVT_FROM_BCD_digits
      by (try apply Z.shiftr_nonneg; lia).
    rewrite !Z.shiftr_div_pow2 by lia.
    change (2 ^ 24) with 16777216 in *. change (2 ^ 16) with 65536.
    change (2 ^ 8) with 256.
    assert (E : d = 16777216 * (d / 16777216) + d mod 16777216)
      by (apply Z.div_mod; lia).
    set (q := d / 16777216) in *. set (r := d mod 16777216) in *.
    assert (E16 : d / 65536 = q * 256 + r / 65536).
    { rewrite E.
      replace (16777216 * q + r) with (q * 256 * 65536 + r) by lia.
      now rewrite Z.div_add_l by lia. }
    assert (E8 : d / 256 = q * 65536 + r / 256).
    { rewrite E.
      replace (16777216 * q + r) with (q * 65536 * 256 + r) by lia.
      now rewrite Z.div_add_l by lia. }
    assert (E0 : d mod 16 = r mod 16).
    { rewrite E.
      replace (16777216 * q + r) with (r + q * 1048576 * 16) by lia.
      now rewrite Z.mod_add by lia. }
    assert (E1 : d / 16 mod 16 = r / 16 mod 16).
    { rewrite E.
      replace (16777216 * q + r) with (q * 1048576 * 16 + r) by lia.
      rewrite Z.div_add_l by lia.
      replace (q * 1048576 + r / 16) with (r / 16 + q * 65536 * 16) by lia.
      now rewrite Z.mod_add by lia. }
    rewrite E16, E8, E0, E1.
    assert (A : (q * 256 + r / 65536) mod 16 = r / 65536 mod 16).
    { replace (q * 256 + r / 65536) with (r / 65536 + q * 16 * 16) by lia.
      now rewrite Z.mod_add by lia. }
    assert (B : (q * 256 + r / 65536) / 16 mod 16 = r / 65536 / 16 mod 16).
    { replace (q * 256 + r / 65536) with (q * 16 * 16 + r / 65536) by lia.
      rewrite Z.div_add_l by lia.
      replace (q * 16 + r / 65536 / 16) with (r / 65536 / 16 + q * 16)
        by lia.
      now rewrite Z.mod_add by lia. }
    assert (C : (q * 65536 + r / 256) mod 16 = r / 256 mod 16).
    { replace (q * 65536 + r / 256) with (r / 256 + q * 4096 * 16) by lia.
      now rewrite Z.mod_add by lia. }
    assert (D : (q * 65536 + r / 256) / 16 mod 16 = r / 256 / 16 mod 16).
    { replace (q * 65536 + r / 256) with (q * 4096 * 16 + r / 256) by lia.
      rewrite Z.div_add_l by lia.
      replace (q * 4096 + r / 256 / 16) with (r / 256 / 16 + q * 256 * 16)
        by lia.
      now rewrite Z.mod_add by lia. }
    now rewrite A, B, C, D.
  - unfold bcd_duration.
    rewrite EITConvertDuration_sum by lia.
    rewrite !Z.shiftr_div_pow2 by lia.
    change (2 ^ 16) with 65536. change (2 ^ 8) with 256.
    assert (E16 : (bcd_byte h * 65536 + bcd_byte m * 256 + bcd_byte s)
                  / 65536 = 0 * 256 + bcd_byte h).
    { rewrite <- Z.add_assoc, Z.div_add_l by lia.
      rewrite (Z.div_small (bcd_byte m * 256 + bcd_byte s)); lia. }
    assert (E8 : (bcd_byte h * 65536 + bcd_byte m * 256 + bcd_byte s) / 256
                 = bcd_byte h * 256 + bcd_byte m).
    { replace (bcd_byte h * 65536 + bcd_byte m * 256 + bcd_byte s)
        with ((bcd_byte h * 256 + bcd_byte m) * 256 + bcd_byte s) by lia.
      rewrite Z.div_add_l by lia.
      rewrite (Z.div_small (bcd_byte s)); lia. }
    rewrite E16, E8.
    replace (bcd_byte h * 65536 + bcd_byte m * 256 + bcd_byte s)
      with ((bcd_byte h * 256 + bcd_byte m) * 256 + bcd_byte s) by lia.
    rewrite !CVT_FROM_BCD_byte by lia. reflexivity.
  - unfold bcd_duration. change (2 ^ 24) with 16777216. lia.
Qed.

(** The theorem at the value 0x01023045 and at 1 h 30 min 45 s. *)
Lemma EITConvertDuration_seconds_witness :
  0 <= EITConvertDuration 16920645 <= 604065
  /\ EITConvertDuration 16920645 = EITConvertDuration (16920645 mod 2 ^ 24)
  /\ EITConvertDuration (bcd_duration 1 30 45) = 1 * 3600 + 30 * 60 + 45
  /\ 0 <= bcd_duration 1 30 45 < 2 ^ 24.
Proof.
  apply (EITConvertDuration_seconds 16920645 1 30 45); lia.
Defined.

End Durations.

(* ================================================================== *)
(** ** The candidates of a scan, exactly *)
(* ================================================================== *)

Module ScanOrder.

Import Subtitles Props.

Section Scan.

Variable h : host.
Variable t : Z.
Variables psz_fname f_fname_trim f_dir : cstring.

Lemma detect_entry_accepted (psz_dir : cstring) (j : Z) (st : scan_state)
      (name : cstring) :
  fst (detect_entry h t psz_fname f_fname_trim psz_dir j st name)
  = fst st
    ++ (if accepted h t psz_fname f_fname_trim j psz_dir name
        then [{| psz_path := Some (psz_dir ++ cs "/" ++ name);
                 i_priority := detect_prio f_fname_trim j name;
                 b_rejected := false |}]
        else []).
Proof.
  unfold detect_entry, accepted. destruct st as [l io]. simpl fst.
  destruct (dot_first name); cbn [negb orb andb fst];
    [now rewrite app_nil_r|].
  destruct (subtitles_Filter name); cbn [negb orb andb fst];
    [|now rewrite app_nil_r].
  destruct (detect_prio f_fname_trim j name >=? t)%Z; cbn [andb fst];
    [|now rewrite app_nil_r].
  destruct (strcmp _ psz_fname =? 0)%Z; cbn [negb andb fst];
    [now rewrite app_nil_r|].
  destruct (vlc_stat_isreg h _); cbn [fst]; [|now rewrite app_nil_r].
  unfold subtitle_New, subtitle_list_AppendItem. cbn [fst].
  pose proof (Found.detect_prio_range f_fname_trim j name) as [R0 R4].
  unfold SLAVE_PRIORITY_MATCH_ALL in R4.
  rewrite Z.mod_small by lia. reflexivity.
Qed.

Lemma detect_entries_accepted (psz_dir : cstring) (j : Z) :
  forall names st,
    fst (fold_left (detect_entry h t psz_fname f_fname_trim psz_dir j)
                   names st)
    = fst st
      ++ map (fun name =>
                {| psz_path := Some (psz_dir ++ cs "/" ++ name);
                   i_priority := detect_prio f_fname_trim j name;
                   b_rejected := false |})
             (filter (accepted h t psz_fname f_fname_trim j psz_dir) names).
Proof.
  induction names as [|n names IH]; intros st; cbn [fold_left filter].
  - simpl. now rewrite app_nil_r.
  - rewrite IH, detect_entry_accepted, <- app_assoc. f_equal.
    now destruct (accepted h t psz_fname f_fname_trim j psz_dir n).
Qed.

(** The priority of a name is the same in every listed directory. *)
Lemma detect_prio_listed (j : Z) (name : cstring) :
  (0 <= j)%Z ->
  detect_prio f_fname_trim j name = detect_prio f_fname_trim 0 name.
Proof.
  intros Hj. unfold detect_prio.
  destruct (Z.eqb_spec j (-1)); [lia|reflexivity].
Qed.

Lemma found_in_listed (j : Z) (dir : cstring) :
  (0 <= j)%Z ->
  found_in h t psz_fname f_fname_trim j dir
  = found_in h t psz_fname f_fname_trim 0 dir.
Proof.
  intros Hj. unfold found_in.
  destruct (vlc_opendir h dir) as [names|]; [|reflexivity].
  induction names as [|n names IH]; [reflexivity|]. cbn [filter].
  assert (A : accepted h t psz_fname f_fname_trim j dir n
              = accepted h t psz_fname f_fname_trim 0 dir n)
    by (unfold accepted; now rewrite (detect_prio_listed j n Hj)).
  rewrite A.
  destruct (accepted h t psz_fname f_fname_trim 0 dir n); [|exact IH].
  cbn [map]. now rewrite IH, (detect_prio_listed j n Hj).
Qed.

Lemma detect_dir_found (j : Z) (psz_dir : cstring) (st : scan_state) :
  fst (detect_dir h t psz_fname f_fname_trim f_dir j psz_dir st)
  = fst st
    ++ (if (0 <=? j)%Z && (strcmp psz_dir f_dir =? 0)%Z then []
        else found_in h t psz_fname f_fname_trim j psz_dir).
Proof.
  unfold detect_dir, found_in.
  destruct ((0 <=? j)%Z && (strcmp psz_dir f_dir =? 0)%Z);
    [now rewrite app_nil_r|].
  destruct (vlc_opendir h psz_dir) as [names|];
    [|simpl; now rewrite app_nil_r].
  now rewrite detect_entries_accepted.
Qed.

Lemma detect_subdirs_found (subdirs : list cstring) :
  forall j st,
    (0 <= j)%Z ->
    fst (detect_subdirs h t psz_fname f_fname_trim f_dir j subdirs st)
    = fst st
      ++ flat_map (fun dir =>
                     if (strcmp dir f_dir =? 0)%Z then []
                     else found_in h t psz_fname f_fname_trim 0 dir)
                  subdirs.
Proof.
  induction subdirs as [|d ds IH]; intros j st Hj; cbn [detect_subdirs].
  - simpl. now rewrite app_nil_r.
  - rewrite IH by lia. rewrite detect_dir_found, <- app_assoc.
    f_equal. cbn [flat_map]. f_equal.
    destruct (Z.leb_spec 0 j); [|lia]. cbn [andb].
    now rewrite (found_in_listed j d Hj).
Qed.

End Scan.

(** X21.  The candidates of a scan, exactly.  For a threshold that, as
    stored in the [int], is not zero, and a movie path with a directory,
    the paths and the priorities [subtitles_Detect] leaves are those of
    the given list, then of the accepted entries of the movie's
    directory, then of the accepted entries of each listed directory
    other than the movie's, in the order of the list and, within a
    directory, in the order its entries are read; an entry is accepted
    when it passes the tests of the scan, the stored threshold among
    them.  In the movie's directory every entry reaches the threshold
    1. *)
Theorem scan_order :
  forall (p_this : vlc_vars) (h : host) (paths : option cstring)
         (name_org psz_fname : cstring) (k : nat)
         (p_result : subtitle_list),
    to_int (sub_autodetect_fuzzy p_this) <> 0%Z ->
    vlc_uri2path h name_org = Some psz_fname ->
    strrchr psz_fname "/"%char = Some k ->
    let run := subtitles_Detect p_this h paths (Some name_org) p_result in
    let f_dir := firstn (S k) psz_fname in
    let trim := normalize (skipn (S k) psz_fname) in
    let i_fuzzy := to_int (sub_autodetect_fuzzy p_this) in
    let found :=
      found_all h i_fuzzy psz_fname trim f_dir
                (match paths_to_list (Some f_dir) paths with
                 | Some subdirs => subdirs
                 | None => []
                 end) in
    map psz_path (dr_result run) = map psz_path (p_result ++ found)
    /\ map i_priority (dr_result run) = map i_priority (p_result ++ found)
    /\ (forall name,
           (detect_prio trim (-1) name >=? SLAVE_PRIORITY_MATCH_NONE)%Z
           = true).
Proof.
  intros p_this h paths name_org psz_fname k p_result Hz Hu Hk
         run f_dir trim i_fuzzy found.
  destruct (Found.subtitles_Detect_scanned p_this h paths name_org psz_fname
                                           k p_result Hz Hu Hk) as (Er & _).
  fold run in Er. fold i_fuzzy in Er.
  assert (Ec : fst (detect_collect h i_fuzzy paths
                                   psz_fname (skipn (S k) psz_fname)
                                   f_dir p_result)
               = p_result ++ found).
  { unfold detect_collect, found, found_all. fold f_dir.
    change (strcpy_trim (strcpy_strip_ext (skipn (S k) psz_fname)))
      with trim.
    destruct (paths_to_list (Some f_dir) paths) as [subdirs|].
    - rewrite detect_subdirs_found by lia.
      rewrite detect_dir_found. cbn [fst].
      destruct (Z.leb_spec 0 (-1)); [lia|]. cbn [andb].
      now rewrite <- app_assoc.
    - rewrite detect_dir_found. cbn [fst flat_map].
      destruct (Z.leb_spec 0 (-1)); [lia|]. cbn [andb].
      now rewrite app_nil_r. }
  fold f_dir in Er. rewrite Ec in Er.
  pose proof (Resolver.resolve_from_framed
                (List.length (p_result ++ found)) 0 (p_result ++ found)) as F.
  apply Resolver.Forall2_framed_map in F as (P & Q & _).
  rewrite Er. unfold resolve_conflicts.
  split; [exact P|]. split; [exact Q|].
  intros name. unfold detect_prio.
  destruct (strcmp _ trim =? 0)%Z; [reflexivity|].
  destruct (strstr _ trim); [now destruct (whiteonly _)|reflexivity].
Qed.

(** The theorem at the movie "/d/movie.mkv" beside two subtitle
    files. *)
Lemma scan_order_witness :
  map psz_path
      (dr_result (subtitles_Detect (config 1 false) movie_host None
                                   (Some (cs "/d/movie.mkv")) []))
  = map psz_path
        ([] ++ found_all movie_host 1 (cs "/d/movie.mkv")
                         (normalize (skipn 3 (cs "/d/movie.mkv")))
                         (firstn 3 (cs "/d/movie.mkv"))
                         (match paths_to_list
                                  (Some (firstn 3 (cs "/d/movie.mkv"))) None
                          with
                          | Some subdirs => subdirs
                          | None => []
                          end)).
Proof.
  refine (proj1 (scan_order (config 1 false) movie_host None
                            (cs "/d/movie.mkv") (cs "/d/movie.mkv") 2 []
                            _ eq_refl eq_refl)).
  discriminate.
Defined.

End ScanOrder.

(* ================================================================== *)
(** ** The earlier revision of is_slave *)
(* ================================================================== *)

Module Earlier.

Import Directory Props.

(** An extension that is not empty differs from "idx" or from "sub" on
    its first character. *)
Lemma ext_listed_first (c : ascii) (r : cstring) (n : nat)
      (rest : list cstring) :
  Part000.ext_listed (c :: r) (S n) (cs "idx" :: cs "sub" :: rest) = true.
Proof.
  cbn [Part000.ext_listed].
  change (cs "idx") with ("i"%char :: cs "dx").
  change (cs "sub") with ("s"%char :: cs "ub").
  cbn [strncasecmp].
  change (tolower "i") with "i"%char. change (tolower "s") with "s"%char.
  destruct (Ascii.eqb (tolower c) "i") eqn:Ei.
  - apply Ascii.eqb_eq in Ei. rewrite Ei.
    change (Ascii.eqb "i" "s") with false.
    destruct (negb _); reflexivity.
  - apply Ascii.eqb_neq in Ei.
    pose proof (CLibFacts.code_pos_neq _ _ Ei) as Hne.
    apply Z.eqb_neq in Hne. now rewrite Hne.
Qed.

Lemma is_slave_inverted (psz_name : cstring) :
  Part000.is_slave psz_name
  = if with_extension psz_name then Some SLAVE_TYPE_SPU else None.
Proof.
  unfold Part000.is_slave, with_extension.
  destruct (strrchr psz_name "."%char) as [i|]; [|reflexivity].
  destruct (skipn (S i) psz_name) as [|c r]; [reflexivity|].
  unfold strlen. cbn [List.length Nat.eqb negb].
  unfold Part000.p_slave_list, ppsz_sub_exts.
  cbn [map Part000.slave_lookup].
  now rewrite ext_listed_first.
Qed.

Lemma read_items_earlier (p_demux : vlc_vars) (stream : list input_item_t) :
  forall st,
    Part000.children (fold_left (Part000.read_item p_demux) stream st)
    = Part000.children st
      ++ filter (fun p_item =>
                   negb (skip_item (show_hiddenfiles p_demux) p_item)
                   && negb (with_extension (name_of p_item))
                   && negb (has_ext (ignore_filetypes p_demux)
                                    (name_of p_item)))
                stream.
Proof.
  induction stream as [|p_item rest IH]; intros st; cbn [fold_left filter].
  - now rewrite app_nil_r.
  - rewrite IH. unfold Part000.read_item. rewrite is_slave_inverted.
    destruct (skip_item _ p_item); cbn [negb andb]; [reflexivity|].
    destruct (with_extension (name_of p_item)); cbn [negb andb];
      [reflexivity|].
    destruct (has_ext _ _); cbn [negb Part000.children]; [reflexivity|].
    now rewrite <- app_assoc.
Qed.

(** X22.  The earlier revision of [is_slave].  In unnamed/part_000 the
    test on the extension is inverted: every name with something after
    its last dot is classified as a subtitle slave, whatever the
    extension, and no name as an audio slave.  The directory loop of
    that revision therefore makes children only of entries without an
    extension. *)
Theorem earlier_is_slave :
  forall (p_demux : vlc_vars) (stream : list input_item_t)
         (psz_name : cstring),
    Part000.is_slave psz_name
    = (if with_extension psz_name then Some SLAVE_TYPE_SPU else None)
    /\ Part000.is_slave psz_name <> Some SLAVE_TYPE_AUDIO
    /\ Forall (fun p_item => with_extension (name_of p_item) = false)
              (Part000.children (Part000.read_dir p_demux stream))
    /\ (forall N, Part000.is_slave (N ++ cs ".mkv") = Some SLAVE_TYPE_SPU).
Proof.
  intros p_demux stream psz_name.
  split; [apply is_slave_inverted|]. split; [|split].
  - rewrite is_slave_inverted. now destruct (with_extension psz_name).
  - unfold Part000.read_dir. rewrite read_items_earlier.
    cbn [Part000.children app]. apply Forall_forall.
    intros p_item Hin. apply filter_In in Hin as [_ H].
    apply andb_prop in H as [H _]. apply andb_prop in H as [_ H].
    now destruct (with_extension (name_of p_item)).
  - intros N. rewrite is_slave_inverted. unfold with_extension.
    change (N ++ cs ".mkv") with (N ++ "."%char :: cs "mkv").
    rewrite (SearchFacts.strrchr_app N (cs "mkv") "."%char eq_refl).
    now rewrite SlaveScoreFacts.skipn_app_cons.
Qed.

End Earlier.

(* ================================================================== *)
(** ** The four levels of detect_prio *)
(* ================================================================== *)

Module Levels.

Import Subtitles Props.

Lemma well_spaced_no_nul (s : cstring) :
  forall b, well_spaced b s = true -> no_nul s = true.
Proof.
  induction s as [|c s IH]; intros b H; simpl in *; [reflexivity|].
  destruct (Ascii.eqb c zero) eqn:Ez.
  - apply Ascii.eqb_eq in Ez. subst c. simpl in H. discriminate.
  - simpl. destruct (Ascii.eqb c " "%char).
    + apply andb_prop in H as [_ H]. exact (IH _ H).
    + apply andb_prop in H as [_ H]. exact (IH _ H).
Qed.

(** A normalized name is a C string. *)
Lemma normalize_no_nul (name : cstring) : no_nul (normalize name) = true.
Proof.
  pose proof (NormalizerFacts.normalized_strcpy_trim
                (strcpy_strip_ext name)) as H.
  unfold normalize. unfold normalized in H.
  destruct (strcpy_trim (strcpy_strip_ext name)) as [|c t] eqn:E;
    [reflexivity|].
  exact (well_spaced_no_nul _ _ H).
Qed.

(** X23.  The four levels of [detect_prio].  Against the normalized
    movie name, an entry scores MatchAll exactly when its normalized
    name is the movie's; it scores MatchRight or MatchLeft exactly when
    the two differ and the movie's occurs in the entry's; otherwise it
    scores MatchNone in the directory of the movie and
    SLAVE_PRIORITY_NONE in every other directory. *)
Theorem detect_prio_levels :
  forall (f name : cstring) (j : Z),
    let p := detect_prio (normalize f) j name in
    let occurs := exists a b, normalize name = a ++ normalize f ++ b in
    (p = SLAVE_PRIORITY_MATCH_ALL <-> normalize name = normalize f)
    /\ (p = SLAVE_PRIORITY_MATCH_RIGHT \/ p = SLAVE_PRIORITY_MATCH_LEFT
        <-> normalize name <> normalize f /\ occurs)
    /\ (p = SLAVE_PRIORITY_MATCH_NONE <-> j = (-1)%Z /\ ~ occurs)
    /\ (p = SLAVE_PRIORITY_NONE <-> j <> (-1)%Z /\ ~ occurs).
Proof.
  intros f name j p occurs.
  pose proof (normalize_no_nul f) as Nf.
  pose proof (normalize_no_nul name) as Nn.
  pose proof (SearchFacts.strcmp_zero_iff _ _ Nn Nf) as Z0.
  unfold p, detect_prio. fold (normalize name).
  destruct (strcmp (normalize name) (normalize f) =? 0)%Z eqn:Ec.
  - assert (E : normalize name = normalize f) by now apply Z0.
    assert (O : occurs).
    { exists [], []. now rewrite E, app_nil_r. }
    split; [tauto|]. split; [|split].
    + split; [intros [H|H]; discriminate H|tauto].
    + split; [intros H; discriminate H|tauto].
    + split; [intros H; discriminate H|tauto].
  - assert (E : normalize name <> normalize f).
    { intros H. apply Z0 in H. congruence. }
    split; [split; [|tauto]|].
    { destruct (strstr _ _); [destruct (whiteonly _)|destruct (j =? -1)%Z];
        intros H; discriminate H. }
    destruct (strstr (normalize name) (normalize f)) as [k|] eqn:Es.
    + assert (O : occurs).
      { destruct (SearchFacts.strstr_some _ _ _ Es) as [H _].
        now exists (firstn k (normalize name)),
                   (skipn (k + List.length (normalize f)) (normalize name)). }
      split; [|split].
      * split; [tauto|]. intros _.
        destruct (whiteonly _); [left|right]; reflexivity.
      * split; [|tauto]. destruct (whiteonly _); intros H; discriminate H.
      * split; [|tauto]. destruct (whiteonly _); intros H; discriminate H.
    + assert (O : ~ occurs).
      { intros (a & b & H).
        exact (SearchFacts.strstr_none _ _ a b Es H). }
      destruct (Z.eqb_spec j (-1)) as [J|J].
      * split; [split; [intros [H|H]; discriminate H|tauto]|].
        split; [tauto|]. split; [intros H; discriminate H|tauto].
      * split; [split; [intros [H|H]; discriminate H|tauto]|].
        split; [|tauto]. split; [intros H; discriminate H|tauto].
Qed.

End Levels.

(* ================================================================== *)
(** ** The calls a scan makes to the file system *)
(* ================================================================== *)

Module ScanCalls.

Import Subtitles Props.

Section Scan.

Variable h : host.
Variable t : Z.
Variables psz_fname f_fname_trim f_dir : cstring.

Lemma detect_entry_io (psz_dir : cstring) (j : Z) (st : scan_state)
      (name : cstring) :
  snd (detect_entry h t psz_fname f_fname_trim psz_dir j st name)
  = snd st ++ io_of_entry t psz_fname f_fname_trim j psz_dir name.
Proof.
  unfold detect_entry, io_of_entry. destruct st as [l io]. simpl snd.
  destruct (dot_first name); cbn [negb orb andb snd]; [reflexivity|].
  destruct (subtitles_Filter name); cbn [negb orb andb snd];
    [|reflexivity].
  destruct (detect_prio f_fname_trim j name >=? t)%Z; cbn [andb snd];
    [|reflexivity].
  destruct (strcmp _ psz_fname =? 0)%Z; cbn [negb andb snd];
    [reflexivity|].
  destruct (vlc_stat_isreg h _); cbn [snd subtitle_New];
    now rewrite <- app_assoc.
Qed.

Lemma detect_entries_io (psz_dir : cstring) (j : Z) :
  forall names st,
    snd (fold_left (detect_entry h t psz_fname f_fname_trim psz_dir j)
                   names st)
    = snd st
      ++ flat_map (io_of_entry t psz_fname f_fname_trim j psz_dir) names.
Proof.
  induction names as [|n names IH]; intros st; cbn [fold_left flat_map].
  - now rewrite app_nil_r.
  - now rewrite IH, detect_entry_io, <- app_assoc.
Qed.

Lemma io_of_dir_listed (j : Z) (dir : cstring) :
  (0 <= j)%Z ->
  io_of_dir h t psz_fname f_fname_trim j dir
  = io_of_dir h t psz_fname f_fname_trim 0 dir.
Proof.
  intros Hj. unfold io_of_dir. f_equal.
  destruct (vlc_opendir h dir) as [names|]; [|reflexivity].
  apply flat_map_ext. intros name. unfold io_of_entry.
  now rewrite (ScanOrder.detect_prio_listed f_fname_trim j name Hj).
Qed.

Lemma detect_dir_io (j : Z) (psz_dir : cstring) (st : scan_state) :
  snd (detect_dir h t psz_fname f_fname_trim f_dir j psz_dir st)
  = snd st
    ++ (if (0 <=? j)%Z && (strcmp psz_dir f_dir =? 0)%Z then []
        else io_of_dir h t psz_fname f_fname_trim j psz_dir).
Proof.
  unfold detect_dir, io_of_dir.
  destruct ((0 <=? j)%Z && (strcmp psz_dir f_dir =? 0)%Z);
    [now rewrite app_nil_r|].
  destruct (vlc_opendir h psz_dir) as [names|]; [|reflexivity].
  rewrite detect_entries_io. cbn [snd]. now rewrite <- app_assoc.
Qed.

Lemma detect_subdirs_io (subdirs : list cstring) :
  forall j st,
    (0 <= j)%Z ->
    snd (detect_subdirs h t psz_fname f_fname_trim f_dir j subdirs st)
    = snd st
      ++ flat_map (fun dir =>
                     if (strcmp dir f_dir =? 0)%Z then []
                     else io_of_dir h t psz_fname f_fname_trim 0 dir)
                  subdirs.
Proof.
  induction subdirs as [|d ds IH]; intros j st Hj; cbn [detect_subdirs].
  - simpl. now rewrite app_nil_r.
  - rewrite IH by lia. rewrite detect_dir_io, <- app_assoc.
    f_equal. cbn [flat_map]. f_equal.
    destruct (Z.leb_spec 0 j); [|lia]. cbn [andb].
    now rewrite (io_of_dir_listed j d Hj).
Qed.

(** [vlc_stat] is called on paths other than the movie's only. *)
Lemma io_of_dir_stat (j : Z) (dir : cstring) :
  ~ In (IoStat psz_fname) (io_of_dir h t psz_fname f_fname_trim j dir).
Proof.
  unfold io_of_dir. intros [H|H]; [discriminate H|].
  destruct (vlc_opendir h dir) as [names|]; [|exact H].
  apply in_flat_map in H as (name & _ & H).
  unfold io_of_entry in H. destruct H as [H|H]; [discriminate H|].
  destruct (strcmp (dir ++ cs "/" ++ name) psz_fname =? 0)%Z eqn:E;
    [now rewrite andb_false_r in H|].
  rewrite andb_true_r in H.
  destruct (_ && _); [|exact H].
  destruct H as [H|[]].
  assert (P : dir ++ cs "/" ++ name = psz_fname) by congruence.
  rewrite P, CLibFacts.strcmp_refl in E. discriminate E.
Qed.

End Scan.

(** X24.  The calls a scan makes to the file system.  For a threshold
    that, as stored in the [int], is not zero, and a movie path with a
    directory, [subtitles_Detect] opens the movie's directory, then each
    listed directory other than it, in order; it reads every entry of a
    directory it could open, and calls [vlc_stat] right after reading
    an entry exactly when its name has no dot in front, has a subtitle
    extension and reaches the stored threshold and its path is not the
    string of the movie's path.  That string is never passed to
    [vlc_stat]; but the test compares strings, and in the movie's own
    directory, where the path has two separators, [vlc_stat] is called
    for every entry with an accepted name that reaches the threshold,
    the movie among them. *)
Theorem scan_calls :
  forall (p_this : vlc_vars) (h : host) (paths : option cstring)
         (name_org psz_fname : cstring) (k : nat)
         (p_result : subtitle_list),
    to_int (sub_autodetect_fuzzy p_this) <> 0%Z ->
    vlc_uri2path h name_org = Some psz_fname ->
    strrchr psz_fname "/"%char = Some k ->
    let run := subtitles_Detect p_this h paths (Some name_org) p_result in
    let i_fuzzy := to_int (sub_autodetect_fuzzy p_this) in
    let f_dir := firstn (S k) psz_fname in
    let trim := normalize (skipn (S k) psz_fname) in
    dr_io run
    = io_all h i_fuzzy psz_fname trim f_dir
             (match paths_to_list (Some f_dir) paths with
              | Some subdirs => subdirs
              | None => []
              end)
    /\ ~ In (IoStat psz_fname) (dr_io run)
    /\ (forall names name,
           vlc_opendir h f_dir = Some names -> In name names ->
           no_nul psz_fname = true -> no_nul name = true ->
           dot_first name = false -> subtitles_Filter name = true ->
           (i_fuzzy <= detect_prio trim (-1) name)%Z ->
           In (IoStat (f_dir ++ cs "/" ++ name)) (dr_io run)).
Proof.
  intros p_this h paths name_org psz_fname k p_result Hz Hu Hk
         run t f_dir trim.
  assert (Er : dr_io run
               = snd (detect_collect h t paths psz_fname
                                     (skipn (S k) psz_fname) f_dir
                                     p_result)).
  { unfold run, subtitles_Detect. fold t.
    apply Z.eqb_neq in Hz. fold t in Hz. rewrite Hz, Hu, Hk. fold f_dir.
    destruct (detect_collect _ _ _ _ _ _ _) as [collected io]. simpl.
    now destruct (resolve_conflicts collected) as [l [|f]]. }
  assert (Ec : dr_io run
               = io_all h t psz_fname trim f_dir
                        (match paths_to_list (Some f_dir) paths with
                         | Some subdirs => subdirs
                         | None => []
                         end)).
  { rewrite Er. unfold detect_collect, io_all.
    change (strcpy_trim (strcpy_strip_ext (skipn (S k) psz_fname)))
      with trim.
    destruct (paths_to_list (Some f_dir) paths) as [subdirs|].
    - rewrite detect_subdirs_io by lia.
      rewrite detect_dir_io. cbn [snd app].
      destruct (Z.leb_spec 0 (-1)); [lia|]. cbn [andb]. reflexivity.
    - rewrite detect_dir_io. cbn [snd app flat_map].
      destruct (Z.leb_spec 0 (-1)); [lia|]. cbn [andb].
      now rewrite app_nil_r. }
  split; [exact Ec|]. split.
  - rewrite Ec. unfold io_all. intros H. apply in_app_or in H as [H|H].
    + exact (io_of_dir_stat h t psz_fname trim (-1) f_dir H).
    + apply in_flat_map in H as (d & _ & H).
      destruct (strcmp d f_dir =? 0)%Z; [exact H|].
      exact (io_of_dir_stat h t psz_fname trim 0 d H).
  - intros names name Ho Hin Hf Hn Hdot Hfilter Hprio.
    rewrite Ec. unfold io_all. apply in_or_app. left.
    unfold io_of_dir. rewrite Ho. right.
    apply in_flat_map. exists name. split; [exact Hin|].
    unfold io_of_entry. right.
    rewrite Hdot, Hfilter.
    pose proof (Found.own_directory_strcmp psz_fname k name Hk Hf Hn) as Hc.
    fold f_dir in Hc. rewrite Hc.
    apply Z.geb_le in Hprio. rewrite Hprio. now left.
Qed.

(** The theorem at the movie "/d/movie.srt", for which [vlc_stat] is
    called as "/d//movie.srt". *)
Lemma scan_calls_witness :
  In (IoStat (cs "/d//movie.srt"))
     (dr_io (subtitles_Detect (config 1 false)
                              (dir_host (cs "/d/") [cs "movie.srt"])
                              None (Some (cs "/d/movie.srt")) [])).
Proof.
  refine (proj2 (proj2 (scan_calls
                          (config 1 false)
                          (dir_host (cs "/d/") [cs "movie.srt"]) None
                          (cs "/d/movie.srt") (cs "/d/movie.srt") 2 []
                          _ eq_refl eq_refl))
                [cs "movie.srt"] (cs "movie.srt")
                eq_refl _ eq_refl eq_refl eq_refl eq_refl _).
  - discriminate.
  - now left.
  - vm_compute. discriminate.
Defined.

End ScanCalls.
